(** * NeurPaper voice agent: audio codecs, playback scheduling, teardown

    A shallow embedding of the voice/audio subsystem of the front-end
    ([components/VoiceAgent.tsx] and the audio helpers and paper fetch of
    [services/gemini.ts]) together with the properties its specification
    states about it.

    Conventions.
    - A [Uint8Array] is a [list Byte.byte]; a JavaScript "binary string"
      (every code unit below 256) is a [string] of 8-bit [ascii].
    - A finite JavaScript number is the rational [Q] it denotes.  Every
      operation the code performs on samples (scaling by a power of two,
      truncation, division by a power of two) is exact on IEEE doubles; the
      sums of the playback cursor are rounded to doubles ([Double.add]).
    - Code that can throw returns a [Completion]; code that mutates refs or
      platform objects threads a [World] through a small state-and-exception
      monad. *)

From Stdlib Require Import ZArith NArith QArith Qround Qminmax Qabs Qpower Lia Lqa ZifyNat.
From Stdlib Require PrimFloat FloatOps SpecFloat Uint63.
From Stdlib Require Import Ascii String.
From stdpp Require Import base gmap sets list strings pretty.

(** ** Completions: a value, or a thrown exception *)

Inductive JsError :=
  | TypeError
  | RangeError
  | InvalidCharacterError
  | NotSupportedError
  | SyntaxError
  | ServiceError.

Inductive Completion (A : Type) :=
  | Return (a : A)
  | Throw (e : JsError).
Arguments Return {A} a.
Arguments Throw {A} e.

Definition is_return {A} (c : Completion A) : bool :=
  match c with Return _ => true | Throw _ => false end.

(** ** The platform's [btoa] and [atob]

    [encodeAudio] and [decodeAudio] delegate to the browser's [btoa] and
    [atob].  They are modelled from the HTML standard: [btoa] is the base64
    encoding of RFC 4648 with padding, [atob] is the standard's
    "forgiving-base64 decode". *)

Module Base64.

Definition alphabet : list ascii :=
  list_ascii_of_string
    "ABCDEFGHIJKLMNOPQRSTUVWXYZabcdefghijklmnopqrstuvwxyz0123456789+/".

Definition sextet_char (n : N) : ascii :=
  nth (N.to_nat n) alphabet "="%char.

Fixpoint index_of (c : ascii) (l : list ascii) (i : N) : option N :=
  match l with
  | [] => None
  | x :: l' => if Ascii.eqb c x then Some i else index_of c l' (N.succ i)
  end.

Definition char_sextet (c : ascii) : option N := index_of c alphabet 0%N.

(** Three octets make four sextets; a final group of one or two octets is
    padded with zero bits to two or three sextets. *)
Fixpoint sextets_of_octets (bs : list N) : list N :=
  match bs with
  | [] => []
  | [a] => [a / 4; (a mod 4) * 16]%N
  | [a; b] => [a / 4; (a mod 4) * 16 + b / 16; (b mod 16) * 4]%N
  | a :: b :: c :: rest =>
      (a / 4 :: (a mod 4) * 16 + b / 16 :: (b mod 16) * 4 + c / 64
         :: c mod 64 :: sextets_of_octets rest)%N
  end.

Definition padding (n : nat) : list ascii :=
  match n mod 4 with
  | 2 => ["="; "="]%char
  | 3 => ["="]%char
  | _ => []
  end.

Definition btoa (s : string) : string :=
  let sx := sextets_of_octets (map N_of_ascii (list_ascii_of_string s)) in
  string_of_list_ascii (map sextet_char sx ++ padding (length sx)).

(** Four sextets make three octets; two trailing sextets make one octet and
    three make two, the spare low bits being discarded. *)
Fixpoint octets_of_sextets (xs : list N) : list N :=
  match xs with
  | a :: b :: c :: d :: rest =>
      (a * 4 + b / 16 :: (b mod 16) * 16 + c / 4 :: (c mod 4) * 64 + d
         :: octets_of_sextets rest)%N
  | [a; b; c] => [a * 4 + b / 16; (b mod 16) * 16 + c / 4]%N
  | [a; b] => [a * 4 + b / 16]%N
  | _ => []
  end.

Definition is_ascii_whitespace (c : ascii) : bool :=
  let n := N_of_ascii c in
  ((n =? 9) || (n =? 10) || (n =? 12) || (n =? 13) || (n =? 32))%N.

Definition is_pad (c : ascii) : bool := Ascii.eqb c "="%char.

(** Remove one or two trailing [=] from input whose length is a multiple
    of four. *)
Definition strip_padding (l : list ascii) : list ascii :=
  if (length l mod 4 =? 0)%nat then
    match rev l with
    | p :: q :: r =>
        if is_pad p then (if is_pad q then rev r else rev (q :: r)) else l
    | [p] => if is_pad p then [] else l
    | [] => l
    end
  else l.

Fixpoint sextets_of_chars (l : list ascii) : option (list N) :=
  match l with
  | [] => Some []
  | c :: l' =>
      match char_sextet c, sextets_of_chars l' with
      | Some n, Some ns => Some (n :: ns)
      | _, _ => None
      end
  end.

(** [None] is the [InvalidCharacterError] that [atob] throws. *)
Definition atob (s : string) : option string :=
  let data :=
    List.filter (λ c, negb (is_ascii_whitespace c)) (list_ascii_of_string s) in
  let data := strip_padding data in
  if (length data mod 4 =? 1)%nat then None
  else
    match sextets_of_chars data with
    | None => None
    | Some xs =>
        Some (string_of_list_ascii (map ascii_of_N (octets_of_sextets xs)))
    end.

(** The ranges of the two kinds of digit. *)
Definition octet (n : N) : Prop := (n < 256)%N.
Definition sextet (n : N) : Prop := (n < 64)%N.

End Base64.

(** ** [encodeAudio] and [decodeAudio] ([services/gemini.ts]) *)

(** [for (i < len) binary += String.fromCharCode(bytes[i]); return btoa(binary)] *)
Definition encodeAudio (bytes : list Byte.byte) : string :=
  let binary :=
    foldl (λ binary b, (binary ++ String (ascii_of_byte b) "")%string)
          EmptyString bytes in
  Base64.btoa binary.

(** [string.charCodeAt(i)]: [NaN] when out of range, which a [Uint8Array]
    slot stores as 0. *)
Definition charCodeAt_u8 (s : string) (i : nat) : Byte.byte :=
  match String.get i s with
  | Some c => byte_of_ascii c
  | None => Byte.x00
  end.

(** [bytes = new Uint8Array(len); for (i < len) bytes[i] = s.charCodeAt(i)] *)
Definition decodeAudio (base64 : string) : Completion (list Byte.byte) :=
  match Base64.atob base64 with
  | None => Throw InvalidCharacterError
  | Some binaryString =>
      let len := String.length binaryString in
      Return (foldl (λ bytes i, <[i := charCodeAt_u8 binaryString i]> bytes)
                    (replicate len Byte.x00) (seq 0 len))
  end.

(** ** Typed arrays and the 16-bit PCM frame codec *)

(** A JavaScript number held in a [Float32Array] slot: a finite value, or
    [NaN] (what arithmetic on an out-of-range read yields). *)
Inductive Num :=
  | Finite (q : Q)
  | NaN.

Module PCM.

(** Truncation toward zero of a finite number. *)
Definition truncate (x : Q) : Z := Z.quot (Qnum x) (Z.pos (Qden x)).

(** The values a 16-bit signed slot holds. *)
Definition int16 (v : Z) : Prop := (-32768 ≤ v ≤ 32767)%Z.

(** Storing a finite number into an [Int16Array] slot (ECMAScript ToInt16):
    truncate, reduce modulo 2^16, and read the result as a signed value. *)
Definition toInt16 (x : Q) : Z :=
  let int16bit := (truncate x mod 65536)%Z in
  if (int16bit >=? 32768)%Z then (int16bit - 65536)%Z else int16bit.

(** Storing into an [Int16Array] slot of a sample read from a
    [Float32Array] and scaled; a read out of range is [undefined], the
    product [NaN], which is stored as 0. *)
Definition scaled_sample (inputData : list Q) (i : nat) : Z :=
  match inputData !! i with
  | Some x => toInt16 (x * 32768)
  | None => 0%Z
  end.

(** [VoiceAgent.tsx], lines 124-128:
    [int16 = new Int16Array(l); for (i < l) int16[i] = inputData[i] * 32768]. *)
Definition int16_of_input (inputData : list Q) : list Z :=
  let l := length inputData in
  foldl (λ int16 i, <[i := scaled_sample inputData i]> int16)
        (replicate l 0%Z) (seq 0 l).

Definition u8 (z : Z) : Byte.byte :=
  match Byte.of_N (Z.to_N (z mod 256)) with
  | Some b => b
  | None => Byte.x00
  end.

Definition Z_of_byte (b : Byte.byte) : Z := Z.of_N (Byte.to_N b).

(** The two bytes of a 16-bit slot, low byte first (typed arrays use the
    platform's byte order, little-endian on every browser platform). *)
Definition int16_bytes (v : Z) : list Byte.byte :=
  let u := (v mod 65536)%Z in [u8 u; u8 (u / 256)].

(** [new Uint8Array(int16.buffer)]: the bytes underlying an [Int16Array]. *)
Definition Uint8Array_of_Int16Array (int16 : list Z) : list Byte.byte :=
  concat (map int16_bytes int16).

(** The capture-side conversion of lines 124-129, before [encodeAudio]. *)
Definition samplesToFrame (inputData : list Q) : list Byte.byte :=
  Uint8Array_of_Int16Array (int16_of_input inputData).

Definition int16_of_bytes (lo hi : Byte.byte) : Z :=
  let u := (Z_of_byte lo + 256 * Z_of_byte hi)%Z in
  if (u >=? 32768)%Z then (u - 65536)%Z else u.

Fixpoint int16_pairs (bs : list Byte.byte) : list Z :=
  match bs with
  | lo :: hi :: rest => int16_of_bytes lo hi :: int16_pairs rest
  | _ => []
  end.

(** [new Int16Array(data.buffer)]: a [RangeError] unless the buffer's byte
    length is a multiple of the element size 2. *)
Definition Int16Array_of_buffer (data : list Byte.byte)
  : Completion (list Z) :=
  if Nat.even (length data) then Return (int16_pairs data)
  else Throw RangeError.

Record AudioBuffer := {
  numberOfChannels : nat;
  buffer_length : nat;
  sampleRate : Q;
  channels : list (list Num)
}.

(** How long the buffer lasts, in seconds: its length over its sample
    rate.  The [duration] attribute is this quotient as a double. *)
Definition duration (b : AudioBuffer) : Q :=
  inject_Z (Z.of_nat (buffer_length b)) / sampleRate b.

(** The greatest channel count [createBuffer] accepts (32 in the browsers,
    and the least the Web Audio standard lets an implementation support). *)
Definition maxChannels : nat := 32.

(** [ctx.createBuffer(numberOfChannels, length, sampleRate)], modelled from
    the Web Audio standard: the [length] argument is converted to an
    unsigned integer by truncation; a channel count, a length or a sample
    rate that is zero or negative, or a channel count beyond the supported
    maximum, is a [NotSupportedError]; the new buffer is silent.  Lengths
    are below 2^32, the range of the argument's type.  Which positive
    sample rates are accepted is the implementation's choice, within the
    standard's demand that 8000 to 96000 be: a positive rate outside an
    implementation's range is rejected there with the same error, and is
    accepted here. *)
Definition createBuffer (numChannels : nat) (frameCount : Q) (rate : Q)
  : Completion AudioBuffer :=
  let len := Z.to_nat (truncate frameCount) in
  if (numChannels =? 0)%nat || (maxChannels <? numChannels)%nat
     || (len =? 0)%nat || Qle_bool rate 0
  then Throw NotSupportedError
  else Return {| numberOfChannels := numChannels;
                 buffer_length := len;
                 sampleRate := rate;
                 channels := replicate numChannels (replicate len (Finite 0)) |}.

(** [dataInt16[k] / 32768.0]; an out-of-range read is [undefined] and the
    quotient [NaN]. *)
Definition sample_of_int16 (v : option Z) : Num :=
  match v with
  | Some z => Finite (inject_Z z / 32768)
  | None => NaN
  end.

(** The number of turns of [for (i = 0; i < frameCount; i++)]. *)
Definition loop_turns (frameCount : Q) : nat := Z.to_nat (Qceiling frameCount).

(** The inner loop; a write past the end of a typed array is ignored, as
    stdpp's list insert is. *)
Definition fill_channel (dataInt16 : list Z) (numChannels channel : nat)
    (frameCount : Q) (channelData : list Num) : list Num :=
  foldl (λ cd i,
           <[i := sample_of_int16 (dataInt16 !! (i * numChannels + channel))]> cd)
        channelData (seq 0 (loop_turns frameCount)).

(** [decodeAudioData(data, ctx, sampleRate, numChannels)] of
    [services/gemini.ts].  With [numChannels = 0] the quotient [frameCount]
    is not finite, and [createBuffer] rejects the channel count whatever the
    length, so the value Rocq's division takes there is immaterial. *)
Definition decodeAudioData (data : list Byte.byte) (rate : Q)
    (numChannels : nat) : Completion AudioBuffer :=
  match Int16Array_of_buffer data with
  | Throw e => Throw e
  | Return dataInt16 =>
      let frameCount :=
        (inject_Z (Z.of_nat (length dataInt16))
           / inject_Z (Z.of_nat numChannels))%Q in
      match createBuffer numChannels frameCount rate with
      | Throw e => Throw e
      | Return buffer =>
          Return
            {| numberOfChannels := numberOfChannels buffer;
               buffer_length := buffer_length buffer;
               sampleRate := sampleRate buffer;
               channels :=
                 foldl (λ chs channel,
                          alter (fill_channel dataInt16 numChannels channel
                                              frameCount) channel chs)
                       (channels buffer) (seq 0 numChannels) |}
      end
  end.

(** The specification's name for the decoding direction. *)
Definition frameToSamples (bytes : list Byte.byte) (channelCount : nat)
  : Completion (list (list Num)) :=
  match decodeAudioData bytes 24000 channelCount with
  | Return b => Return (channels b)
  | Throw e => Throw e
  end.

(** Sample [i] of channel [ch] of a decoded result. *)
Definition sample_at (r : Completion (list (list Num))) (ch i : nat)
  : option Num :=
  match r with
  | Return chs => chs !! ch ≫= (λ cd, cd !! i)
  | Throw _ => None
  end.

(** The recovered sample is a finite number within [eps] of [x]. *)
Definition within (eps : Q) (x : Q) (r : option Num) : Prop :=
  match r with
  | Some (Finite v) => (Qabs (v - x) <= eps)%Q
  | _ => False
  end.

(** The round-trip property of the frame codec as the specification words
    it, for one sample sequence and channel count. *)
Definition roundtrip_within (eps : Q) (s : list Q) (c : nat) : Prop :=
  ∀ ch i x, ch < c → s !! (i * c + ch) = Some x →
    within eps x (sample_at (frameToSamples (samplesToFrame s) c) ch i).

End PCM.

(** ** JavaScript numbers: IEEE 754 binary64 on the finite numbers

    Clock readings, the playback cursor and the [duration] of an audio
    buffer are doubles, and [+] and [/] on them round to the nearest double,
    ties to the even one.  A finite double is carried as the rational it
    denotes.  [double] rounds a rational to 53 significant bits with the
    exponent of the last place no lower than -1074 (so subnormal numbers are
    covered).  It does not overflow to [Infinity], which the standard's
    rounding does for magnitudes from 2^1024 - 2^970 on: the clock readings
    and cursor sums of this program are seconds since the audio context was
    created. *)

Module Double.

(** Rounding to the nearest integer, a tie going to the even one. *)
Definition rne (q : Q) : Z :=
  let f := Qfloor q in
  match (q - inject_Z f ?= 1 # 2)%Q with
  | Lt => f
  | Gt => (f + 1)%Z
  | Eq => if Z.even f then f else (f + 1)%Z
  end.

Definition pow2 (k : Z) : Q := (2 ^ k)%Q.

(** The integer part of the binary logarithm of a positive rational. *)
Definition ilog2 (q : Q) : Z :=
  let k := (Z.log2 (Qnum q) - Z.log2 (Z.pos (Qden q)))%Z in
  if Qle_bool (pow2 k) q then k else (k - 1)%Z.

(** The significand has 53 bits; the least exponent of a last place is
    that of the least subnormal number, 2^-1074. *)
Definition precision : Z := 53.
Definition emin : Z := -1074.

(** The exponent of the last place of the doubles around a positive [q]. *)
Definition ulp_exponent (q : Q) : Z :=
  Z.max emin (ilog2 q - (precision - 1)).

(** Rounding to a multiple of [2^e]. *)
Definition to_grid (e : Z) (x : Q) : Q :=
  (inject_Z (rne (x / pow2 e)) * pow2 e)%Q.

Definition round_pos (q : Q) : Q := to_grid (ulp_exponent q) q.

(** The double nearest to [q]. *)
Definition double (q : Q) : Q :=
  let q := Qred q in
  match Qnum q with
  | Z0 => 0%Q
  | Zpos _ => round_pos q
  | Zneg _ => (- round_pos (- q))%Q
  end.

(** The rationals that are doubles. *)
Definition is_double (q : Q) : bool := Qeq_bool (double q) q.

(** [a + b] and [a / b] on doubles. *)
Definition add (a b : Q) : Q := double (a + b).

Definition div (a b : Q) : Q := double (a / b).

(** A double of the kernel's own binary64 arithmetic as a rational;
    [None] for an infinity or a NaN. *)
Definition of_float (f : PrimFloat.float) : option Q :=
  match FloatOps.Prim2SF f with
  | SpecFloat.S754_zero _ => Some 0%Q
  | SpecFloat.S754_finite s m e =>
      Some ((if s then - inject_Z (Z.pos m) else inject_Z (Z.pos m)) * pow2 e)%Q
  | _ => None
  end.

Definition agrees (f : PrimFloat.float) (q : Q) : bool :=
  match of_float f with
  | Some x => Qeq_bool x q
  | None => false
  end.

End Double.

(** ** The voice agent component ([components/VoiceAgent.tsx]) *)

Module Voice.

(** An [AudioBufferSourceNode] created by [onmessage]: when it was told to
    start, how long its buffer lasts (its length over its sample rate), and
    whether [stop()] was called. *)
Record SourceNode := {
  startAt : Q;
  node_duration : Q;
  node_stopped : bool
}.

(** [audioBuffer.duration]: the attribute is a double, the quotient of the
    length by the sample rate rounded. *)
Definition buffer_duration (audioBuffer : PCM.AudioBuffer) : Q :=
  Double.double (PCM.duration audioBuffer).

(** Where the handler puts the end of a segment: its start plus its
    duration as line 169 adds them, in doubles.  It is the value the cursor
    takes when the segment is scheduled. *)
Definition endAt (n : SourceNode) : Q :=
  Double.add (startAt n) (Double.double (node_duration n)).

Inductive PromiseState := Pending | Fulfilled | Rejected.

(** What [sessionRef.current] (declared [useRef<any>]) can hold besides
    [null]: the promise returned by [liveClient.connect], which is what
    line 190 stores, or a session object. *)
Inductive SessionRefValue := SessionPromise | SessionObject.

(** The argument of [session.sendRealtimeInput]. *)
Record Frame := {
  mimeType : string;
  data : string
}.

(** Teardown calls on platform objects, logged in the order made. *)
Inductive Effect :=
  | ProcessorDisconnect
  | SourceDisconnect
  | TrackStop
  | SessionClose
  | OutputContextClose
  | InputContextClose.

(** A server message as [onmessage] reads it: the inline audio of the first
    part of the model turn, if any, and the [interrupted] flag. *)
Record LiveServerMessage := {
  inlineData : option string;
  interrupted : bool
}.

(** The component's refs and state, the closure variable of the capture
    callback, and the state of the platform objects of one activation.
    A ref to one of those objects is [true] when set and [false] when
    [null]; source nodes are identified by their index in [nodes]. *)
Record World := {
  inputAudioContextRef : bool;
  outputAudioContextRef : bool;
  streamRef : bool;
  processorRef : bool;
  sourceRef : bool;
  nextStartTimeRef : Q;
  sessionRef : option SessionRefValue;
  sourcesRef : gset nat;
  isConnected : bool;
  isMuted : bool;
  status : string;
  closure_isMuted : bool;
  mic_live : bool;
  session_open : bool;
  output_open : bool;
  input_open : bool;
  sessionPromise : PromiseState;
  reactions : list Frame;
  sent : list Frame;
  nodes : list SourceNode;
  trace : list Effect
}.

Definition set_inputAudioContextRef (v : bool) (w : World) : World :=
  {| inputAudioContextRef := v;
     outputAudioContextRef := outputAudioContextRef w;
     streamRef := streamRef w; processorRef := processorRef w;
     sourceRef := sourceRef w; nextStartTimeRef := nextStartTimeRef w;
     sessionRef := sessionRef w; sourcesRef := sourcesRef w;
     isConnected := isConnected w; isMuted := isMuted w; status := status w;
     closure_isMuted := closure_isMuted w; mic_live := mic_live w;
     session_open := session_open w; output_open := output_open w;
     input_open := input_open w; sessionPromise := sessionPromise w;
     reactions := reactions w; sent := sent w; nodes := nodes w;
     trace := trace w |}.

Definition set_outputAudioContextRef (v : bool) (w : World) : World :=
  {| inputAudioContextRef := inputAudioContextRef w;
     outputAudioContextRef := v; streamRef := streamRef w;
     processorRef := processorRef w; sourceRef := sourceRef w;
     nextStartTimeRef := nextStartTimeRef w; sessionRef := sessionRef w;
     sourcesRef := sourcesRef w; isConnected := isConnected w;
     isMuted := isMuted w; status := status w;
     closure_isMuted := closure_isMuted w; mic_live := mic_live w;
     session_open := session_open w; output_open := output_open w;
     input_open := input_open w; sessionPromise := sessionPromise w;
     reactions := reactions w; sent := sent w; nodes := nodes w;
     trace := trace w |}.

Definition set_streamRef (v : bool) (w : World) : World :=
  {| inputAudioContextRef := inputAudioContextRef w;
     outputAudioContextRef := outputAudioContextRef w; streamRef := v;
     processorRef := processorRef w; sourceRef := sourceRef w;
     nextStartTimeRef := nextStartTimeRef w; sessionRef := sessionRef w;
     sourcesRef := sourcesRef w; isConnected := isConnected w;
     isMuted := isMuted w; status := status w;
     closure_isMuted := closure_isMuted w; mic_live := mic_live w;
     session_open := session_open w; output_open := output_open w;
     input_open := input_open w; sessionPromise := sessionPromise w;
     reactions := reactions w; sent := sent w; nodes := nodes w;
     trace := trace w |}.

Definition set_processorRef (v : bool) (w : World) : World :=
  {| inputAudioContextRef := inputAudioContextRef w;
     outputAudioContextRef := outputAudioContextRef w;
     streamRef := streamRef w; processorRef := v; sourceRef := sourceRef w;
     nextStartTimeRef := nextStartTimeRef w; sessionRef := sessionRef w;
     sourcesRef := sourcesRef w; isConnected := isConnected w;
     isMuted := isMuted w; status := status w;
     closure_isMuted := closure_isMuted w; mic_live := mic_live w;
     session_open := session_open w; output_open := output_open w;
     input_open := input_open w; sessionPromise := sessionPromise w;
     reactions := reactions w; sent := sent w; nodes := nodes w;
     trace := trace w |}.

Definition set_sourceRef (v : bool) (w : World) : World :=
  {| inputAudioContextRef := inputAudioContextRef w;
     outputAudioContextRef := outputAudioContextRef w;
     streamRef := streamRef w; processorRef := processorRef w;
     sourceRef := v; nextStartTimeRef := nextStartTimeRef w;
     sessionRef := sessionRef w; sourcesRef := sourcesRef w;
     isConnected := isConnected w; isMuted := isMuted w; status := status w;
     closure_isMuted := closure_isMuted w; mic_live := mic_live w;
     session_open := session_open w; output_open := output_open w;
     input_open := input_open w; sessionPromise := sessionPromise w;
     reactions := reactions w; sent := sent w; nodes := nodes w;
     trace := trace w |}.

Definition set_nextStartTimeRef (v : Q) (w : World) : World :=
  {| inputAudioContextRef := inputAudioContextRef w;
     outputAudioContextRef := outputAudioContextRef w;
     streamRef := streamRef w; processorRef := processorRef w;
     sourceRef := sourceRef w; nextStartTimeRef := v;
     sessionRef := sessionRef w; sourcesRef := sourcesRef w;
     isConnected := isConnected w; isMuted := isMuted w; status := status w;
     closure_isMuted := closure_isMuted w; mic_live := mic_live w;
     session_open := session_open w; output_open := output_open w;
     input_open := input_open w; sessionPromise := sessionPromise w;
     reactions := reactions w; sent := sent w; nodes := nodes w;
     trace := trace w |}.

Definition set_sessionRef (v : option SessionRefValue) (w : World) : World :=
  {| inputAudioContextRef := inputAudioContextRef w;
     outputAudioContextRef := outputAudioContextRef w;
     streamRef := streamRef w; processorRef := processorRef w;
     sourceRef := sourceRef w; nextStartTimeRef := nextStartTimeRef w;
     sessionRef := v; sourcesRef := sourcesRef w;
     isConnected := isConnected w; isMuted := isMuted w; status := status w;
     closure_isMuted := closure_isMuted w; mic_live := mic_live w;
     session_open := session_open w; output_open := output_open w;
     input_open := input_open w; sessionPromise := sessionPromise w;
     reactions := reactions w; sent := sent w; nodes := nodes w;
     trace := trace w |}.

Definition set_sourcesRef (v : gset nat) (w : World) : World :=
  {| inputAudioContextRef := inputAudioContextRef w;
     outputAudioContextRef := outputAudioContextRef w;
     streamRef := streamRef w; processorRef := processorRef w;
     sourceRef := sourceRef w; nextStartTimeRef := nextStartTimeRef w;
     sessionRef := sessionRef w; sourcesRef := v;
     isConnected := isConnected w; isMuted := isMuted w; status := status w;
     closure_isMuted := closure_isMuted w; mic_live := mic_live w;
     session_open := session_open w; output_open := output_open w;
     input_open := input_open w; sessionPromise := sessionPromise w;
     reactions := reactions w; sent := sent w; nodes := nodes w;
     trace := trace w |}.

Definition set_isConnected (v : bool) (w : World) : World :=
  {| inputAudioContextRef := inputAudioContextRef w;
     outputAudioContextRef := outputAudioContextRef w;
     streamRef := streamRef w; processorRef := processorRef w;
     sourceRef := sourceRef w; nextStartTimeRef := nextStartTimeRef w;
     sessionRef := sessionRef w; sourcesRef := sourcesRef w;
     isConnected := v; isMuted := isMuted w; status := status w;
     closure_isMuted := closure_isMuted w; mic_live := mic_live w;
     session_open := session_open w; output_open := output_open w;
     input_open := input_open w; sessionPromise := sessionPromise w;
     reactions := reactions w; sent := sent w; nodes := nodes w;
     trace := trace w |}.

Definition set_isMuted (v : bool) (w : World) : World :=
  {| inputAudioContextRef := inputAudioContextRef w;
     outputAudioContextRef := outputAudioContextRef w;
     streamRef := streamRef w; processorRef := processorRef w;
     sourceRef := sourceRef w; nextStartTimeRef := nextStartTimeRef w;
     sessionRef := sessionRef w; sourcesRef := sourcesRef w;
     isConnected := isConnected w; isMuted := v; status := status w;
     closure_isMuted := closure_isMuted w; mic_live := mic_live w;
     session_open := session_open w; output_open := output_open w;
     input_open := input_open w; sessionPromise := sessionPromise w;
     reactions := reactions w; sent := sent w; nodes := nodes w;
     trace := trace w |}.

Definition set_status (v : string) (w : World) : World :=
  {| inputAudioContextRef := inputAudioContextRef w;
     outputAudioContextRef := outputAudioContextRef w;
     streamRef := streamRef w; processorRef := processorRef w;
     sourceRef := sourceRef w; nextStartTimeRef := nextStartTimeRef w;
     sessionRef := sessionRef w; sourcesRef := sourcesRef w;
     isConnected := isConnected w; isMuted := isMuted w; status := v;
     closure_isMuted := closure_isMuted w; mic_live := mic_live w;
     session_open := session_open w; output_open := output_open w;
     input_open := input_open w; sessionPromise := sessionPromise w;
     reactions := reactions w; sent := sent w; nodes := nodes w;
     trace := trace w |}.

Definition set_closure_isMuted (v : bool) (w : World) : World :=
  {| inputAudioContextRef := inputAudioContextRef w;
     outputAudioContextRef := outputAudioContextRef w;
     streamRef := streamRef w; processorRef := processorRef w;
     sourceRef := sourceRef w; nextStartTimeRef := nextStartTimeRef w;
     sessionRef := sessionRef w; sourcesRef := sourcesRef w;
     isConnected := isConnected w; isMuted := isMuted w; status := status w;
     closure_isMuted := v; mic_live := mic_live w;
     session_open := session_open w; output_open := output_open w;
     input_open := input_open w; sessionPromise := sessionPromise w;
     reactions := reactions w; sent := sent w; nodes := nodes w;
     trace := trace w |}.

Definition set_mic_live (v : bool) (w : World) : World :=
  {| inputAudioContextRef := inputAudioContextRef w;
     outputAudioContextRef := outputAudioContextRef w;
     streamRef := streamRef w; processorRef := processorRef w;
     sourceRef := sourceRef w; nextStartTimeRef := nextStartTimeRef w;
     sessionRef := sessionRef w; sourcesRef := sourcesRef w;
     isConnected := isConnected w; isMuted := isMuted w; status := status w;
     closure_isMuted := closure_isMuted w; mic_live := v;
     session_open := session_open w; output_open := output_open w;
     input_open := input_open w; sessionPromise := sessionPromise w;
     reactions := reactions w; sent := sent w; nodes := nodes w;
     trace := trace w |}.

Definition set_session_open (v : bool) (w : World) : World :=
  {| inputAudioContextRef := inputAudioContextRef w;
     outputAudioContextRef := outputAudioContextRef w;
     streamRef := streamRef w; processorRef := processorRef w;
     sourceRef := sourceRef w; nextStartTimeRef := nextStartTimeRef w;
     sessionRef := sessionRef w; sourcesRef := sourcesRef w;
     isConnected := isConnected w; isMuted := isMuted w; status := status w;
     closure_isMuted := closure_isMuted w; mic_live := mic_live w;
     session_open := v; output_open := output_open w;
     input_open := input_open w; sessionPromise := sessionPromise w;
     reactions := reactions w; sent := sent w; nodes := nodes w;
     trace := trace w |}.

Definition set_output_open (v : bool) (w : World) : World :=
  {| inputAudioContextRef := inputAudioContextRef w;
     outputAudioContextRef := outputAudioContextRef w;
     streamRef := streamRef w; processorRef := processorRef w;
     sourceRef := sourceRef w; nextStartTimeRef := nextStartTimeRef w;
     sessionRef := sessionRef w; sourcesRef := sourcesRef w;
     isConnected := isConnected w; isMuted := isMuted w; status := status w;
     closure_isMuted := closure_isMuted w; mic_live := mic_live w;
     session_open := session_open w; output_open := v;
     input_open := input_open w; sessionPromise := sessionPromise w;
     reactions := reactions w; sent := sent w; nodes := nodes w;
     trace := trace w |}.

Definition set_input_open (v : bool) (w : World) : World :=
  {| inputAudioContextRef := inputAudioContextRef w;
     outputAudioContextRef := outputAudioContextRef w;
     streamRef := streamRef w; processorRef := processorRef w;
     sourceRef := sourceRef w; nextStartTimeRef := nextStartTimeRef w;
     sessionRef := sessionRef w; sourcesRef := sourcesRef w;
     isConnected := isConnected w; isMuted := isMuted w; status := status w;
     closure_isMuted := closure_isMuted w; mic_live := mic_live w;
     session_open := session_open w; output_open := output_open w;
     input_open := v; sessionPromise := sessionPromise w;
     reactions := reactions w; sent := sent w; nodes := nodes w;
     trace := trace w |}.

Definition set_sessionPromise (v : PromiseState) (w : World) : World :=
  {| inputAudioContextRef := inputAudioContextRef w;
     outputAudioContextRef := outputAudioContextRef w;
     streamRef := streamRef w; processorRef := processorRef w;
     sourceRef := sourceRef w; nextStartTimeRef := nextStartTimeRef w;
     sessionRef := sessionRef w; sourcesRef := sourcesRef w;
     isConnected := isConnected w; isMuted := isMuted w; status := status w;
     closure_isMuted := closure_isMuted w; mic_live := mic_live w;
     session_open := session_open w; output_open := output_open w;
     input_open := input_open w; sessionPromise := v;
     reactions := reactions w; sent := sent w; nodes := nodes w;
     trace := trace w |}.

Definition set_reactions (v : list Frame) (w : World) : World :=
  {| inputAudioContextRef := inputAudioContextRef w;
     outputAudioContextRef := outputAudioContextRef w;
     streamRef := streamRef w; processorRef := processorRef w;
     sourceRef := sourceRef w; nextStartTimeRef := nextStartTimeRef w;
     sessionRef := sessionRef w; sourcesRef := sourcesRef w;
     isConnected := isConnected w; isMuted := isMuted w; status := status w;
     closure_isMuted := closure_isMuted w; mic_live := mic_live w;
     session_open := session_open w; output_open := output_open w;
     input_open := input_open w; sessionPromise := sessionPromise w;
     reactions := v; sent := sent w; nodes := nodes w; trace := trace w |}.

Definition set_sent (v : list Frame) (w : World) : World :=
  {| inputAudioContextRef := inputAudioContextRef w;
     outputAudioContextRef := outputAudioContextRef w;
     streamRef := streamRef w; processorRef := processorRef w;
     sourceRef := sourceRef w; nextStartTimeRef := nextStartTimeRef w;
     sessionRef := sessionRef w; sourcesRef := sourcesRef w;
     isConnected := isConnected w; isMuted := isMuted w; status := status w;
     closure_isMuted := closure_isMuted w; mic_live := mic_live w;
     session_open := session_open w; output_open := output_open w;
     input_open := input_open w; sessionPromise := sessionPromise w;
     reactions := reactions w; sent := v; nodes := nodes w;
     trace := trace w |}.

Definition set_nodes (v : list SourceNode) (w : World) : World :=
  {| inputAudioContextRef := inputAudioContextRef w;
     outputAudioContextRef := outputAudioContextRef w;
     streamRef := streamRef w; processorRef := processorRef w;
     sourceRef := sourceRef w; nextStartTimeRef := nextStartTimeRef w;
     sessionRef := sessionRef w; sourcesRef := sourcesRef w;
     isConnected := isConnected w; isMuted := isMuted w; status := status w;
     closure_isMuted := closure_isMuted w; mic_live := mic_live w;
     session_open := session_open w; output_open := output_open w;
     input_open := input_open w; sessionPromise := sessionPromise w;
     reactions := reactions w; sent := sent w; nodes := v;
     trace := trace w |}.

Definition set_trace (v : list Effect) (w : World) : World :=
  {| inputAudioContextRef := inputAudioContextRef w;
     outputAudioContextRef := outputAudioContextRef w;
     streamRef := streamRef w; processorRef := processorRef w;
     sourceRef := sourceRef w; nextStartTimeRef := nextStartTimeRef w;
     sessionRef := sessionRef w; sourcesRef := sourcesRef w;
     isConnected := isConnected w; isMuted := isMuted w; status := status w;
     closure_isMuted := closure_isMuted w; mic_live := mic_live w;
     session_open := session_open w; output_open := output_open w;
     input_open := input_open w; sessionPromise := sessionPromise w;
     reactions := reactions w; sent := sent w; nodes := nodes w;
     trace := v |}.

(** The component as first rendered: every ref [null], the cursor 0, the
    set of sources empty, not connected, not muted. *)
Definition initial : World :=
  {| inputAudioContextRef := false; outputAudioContextRef := false;
     streamRef := false; processorRef := false; sourceRef := false;
     nextStartTimeRef := 0; sessionRef := None; sourcesRef := ∅;
     isConnected := false; isMuted := false; status := "Initializing...";
     closure_isMuted := false; mic_live := false; session_open := false;
     output_open := false; input_open := false; sessionPromise := Pending;
     reactions := []; sent := []; nodes := []; trace := [] |}.

(** *** Handlers as state transformers that may throw *)

Definition M (A : Type) : Type := World → Completion A * World.

Definition ret {A} (a : A) : M A := λ w, (Return a, w).

Definition throw {A} (e : JsError) : M A := λ w, (Throw e, w).

Definition bind {A B} (m : M A) (k : A → M B) : M B :=
  λ w, match m w with
       | (Return a, w') => k a w'
       | (Throw e, w') => (Throw e, w')
       end.

Definition gets {A} (f : World → A) : M A := λ w, (Return (f w), w).

Definition modify (f : World → World) : M unit := λ w, (Return tt, f w).

Definition lift {A} (c : Completion A) : M A := λ w, (c, w).

Definition when (b : bool) (m : M unit) : M unit := if b then m else ret tt.

Declare Scope js_scope.
Delimit Scope js_scope with js.
Notation "x <- m ;; k" := (bind m (λ x, k))
  (at level 100, m at next level, right associativity) : js_scope.
Notation "m ;; k" := (bind m (λ _, k))
  (at level 100, right associativity) : js_scope.
Local Open Scope js_scope.

Definition emit (e : Effect) : M unit :=
  modify (λ w, set_trace (trace w ++ [e]) w).

(** The state a handler leaves behind, whether it returned or threw. *)
Definition exec {A} (m : M A) (w : World) : World := (m w).2.

(** *** [cleanup], lines 30-56 *)

(** [streamRef.current.getTracks().forEach(track => track.stop())] *)
Definition stop_tracks : M unit :=
  emit TrackStop ;; modify (set_mic_live false).

(** [sessionRef.current.close()]: a session object closes its connection;
    a promise has no [close] property, and calling [undefined] is a
    [TypeError]. *)
Definition call_close (v : SessionRefValue) : M unit :=
  match v with
  | SessionObject => emit SessionClose ;; modify (set_session_open false)
  | SessionPromise => throw TypeError
  end.

Definition cleanup : M unit :=
  p <- gets processorRef ;;
  when p (emit ProcessorDisconnect ;; modify (set_processorRef false)) ;;
  s <- gets sourceRef ;;
  when s (emit SourceDisconnect ;; modify (set_sourceRef false)) ;;
  st <- gets streamRef ;;
  when st (stop_tracks ;; modify (set_streamRef false)) ;;
  se <- gets sessionRef ;;
  match se with
  | Some v => call_close v ;; modify (set_sessionRef None)
  | None => ret tt
  end ;;
  o <- gets outputAudioContextRef ;;
  when o (emit OutputContextClose ;; modify (set_output_open false) ;;
          modify (set_outputAudioContextRef false)) ;;
  i <- gets inputAudioContextRef ;;
  when i (emit InputContextClose ;; modify (set_input_open false) ;;
          modify (set_inputAudioContextRef false)) ;;
  modify (set_isConnected false).

(** *** The effect, lines 58-202 *)

(** [initSession] after [await getUserMedia] settles.  A rejection lands in
    the [catch]; a grant hands over a live stream, after which both audio
    contexts are created and [liveClient.connect] returns the pending
    promise that line 190 stores in [sessionRef]. *)
Definition initSession_resume (granted : bool) : M unit :=
  if granted then
    modify (set_mic_live true) ;;
    modify (set_streamRef true) ;;
    modify (set_status "Connecting to Gemini...") ;;
    modify (set_input_open true) ;; modify (set_output_open true) ;;
    modify (set_inputAudioContextRef true) ;;
    modify (set_outputAudioContextRef true) ;;
    modify (set_sessionPromise Pending) ;;
    modify (set_sessionRef (Some SessionPromise))
  else
    modify (set_status "Failed to connect microphone").

(** The effect body runs when [isOpen] or [contextSummary] changes, and only
    then.  The callbacks it creates close over the [isMuted] of the render
    that ran it. *)
Definition effect (isOpen : bool) : M unit :=
  if negb isOpen then cleanup
  else
    m <- gets isMuted ;;
    modify (set_closure_isMuted m) ;;
    modify (set_status "Requesting permissions...").

(** [return () => cleanup()] *)
Definition effect_cleanup : M unit := cleanup.

(** The mute button: [setIsMuted(!isMuted)].  The component renders again;
    [isMuted] is not among the effect's dependencies, so the effect does not
    run again and the callbacks in place keep their closure. *)
Definition toggleMute : M unit :=
  m <- gets isMuted ;; modify (set_isMuted (negb m)).

(** [onopen], lines 107-143: the connection is open, and the capture
    pipeline is built and wired to the callback below. *)
Definition onopen : M unit :=
  modify (set_session_open true) ;;
  modify (set_isConnected true) ;;
  modify (set_status "Listening...") ;;
  modify (set_sourceRef true) ;;
  modify (set_processorRef true).

(** [onclose], lines 179-182, and [onerror], lines 183-186. *)
Definition onclose : M unit :=
  modify (set_session_open false) ;; modify (set_isConnected false).

Definition onerror : M unit := modify (set_status "Error occurred").

(** [session.sendRealtimeInput(frame)]: a closed connection discards what
    it is given. *)
Definition sendRealtimeInput (f : Frame) : M unit :=
  o <- gets session_open ;;
  when o (modify (λ w, set_sent (sent w ++ [f]) w)).

(** [sessionPromise.then(session => session.sendRealtimeInput(frame))]:
    the reaction runs once the promise is fulfilled, at once if it already
    is. *)
Definition then_send (f : Frame) : M unit :=
  p <- gets sessionPromise ;;
  match p with
  | Fulfilled => sendRealtimeInput f
  | Pending => modify (λ w, set_reactions (reactions w ++ [f]) w)
  | Rejected => ret tt
  end.

(** The promise returned by [connect] is fulfilled: queued reactions run in
    the order registered. *)
Definition session_fulfilled : M unit :=
  modify (set_sessionPromise Fulfilled) ;;
  fs <- gets reactions ;;
  modify (set_reactions []) ;;
  foldr (λ f k, sendRealtimeInput f ;; k) (ret tt) fs.

(** The frame built from one captured block, lines 122-136. *)
Definition pcm_frame (inputData : list Q) : Frame :=
  let pcmData := encodeAudio (PCM.samplesToFrame inputData) in
  {| mimeType := "audio/pcm;rate=16000"; data := pcmData |}.

(** [processor.onaudioprocess], lines 119-139. *)
Definition onaudioprocess (inputData : list Q) : M unit :=
  muted <- gets closure_isMuted ;;
  if muted then ret tt else then_send (pcm_frame inputData).

(** *** [onmessage], lines 144-178 *)

(** The handler is an [async] function.  Lines 151-158 run when it is
    called, with [now] the reading of [ctx.currentTime] (never negative):
    the cursor is clamped, the text decoded, and [decodeAudioData], whose
    body has no [await] of its own, returns a promise that is already
    settled.  A text that [decodeAudio] rejects throws here, after the
    clamp.  At the [await] of line 153 the handler gives up control. *)
Definition enqueue_begin (now : Q) (base64Audio : string)
  : M (Completion PCM.AudioBuffer) :=
  modify (λ w, set_nextStartTimeRef (Qmax (nextStartTimeRef w) now) w) ;;
  bytes <- lift (decodeAudio base64Audio) ;;
  ret (PCM.decodeAudioData bytes 24000 1).

(** Lines 160-170 run when the handler resumes: a rejected promise throws
    at the [await]; otherwise the source is started at the cursor as it then
    is, and the cursor advanced by the buffer's duration. *)
Definition enqueue_resume (settled : Completion PCM.AudioBuffer) : M unit :=
  audioBuffer <- lift settled ;;
  id <- gets (λ w, length (nodes w)) ;;
  cursor <- gets nextStartTimeRef ;;
  modify (λ w, set_nodes (nodes w ++ [{| startAt := cursor;
                                         node_duration := PCM.duration audioBuffer;
                                         node_stopped := false |}]) w) ;;
  modify (set_nextStartTimeRef
            (Double.add cursor (buffer_duration audioBuffer))) ;;
  modify (λ w, set_sourcesRef (sourcesRef w ∪ {[id]}) w).

(** Lines 151-170 when nothing else runs during the [await]. *)
Definition enqueue (now : Q) (base64Audio : string) : M unit :=
  settled <- enqueue_begin now base64Audio ;;
  enqueue_resume settled.

Definition stop_node (n : SourceNode) : SourceNode :=
  {| startAt := startAt n; node_duration := node_duration n;
     node_stopped := true |}.

(** Lines 173-177. *)
Definition interrupt : M unit :=
  modify (λ w, set_nodes (set_fold (alter stop_node) (nodes w) (sourcesRef w)) w) ;;
  modify (set_sourcesRef ∅) ;;
  modify (set_nextStartTimeRef 0).

(** The empty string is falsy, as [undefined] is. *)
Definition truthy (s : option string) : option string :=
  match s with
  | Some (String _ _ as s') => Some s'
  | _ => None
  end.

(** One call of the handler run to its end, no other handler running
    during its [await]. *)
Definition onmessage (now : Q) (message : LiveServerMessage) : M unit :=
  match truthy (inlineData message) with
  | Some base64Audio =>
      ctx <- gets outputAudioContextRef ;;
      if negb ctx then ret tt
      else
        enqueue now base64Audio ;;
        when (interrupted message) interrupt
  | None => when (interrupted message) interrupt
  end.

(** The ['ended'] listener of a source node, line 164-166. *)
Definition onended (id : nat) : M unit :=
  modify (λ w, set_sourcesRef (sourcesRef w ∖ {[id]}) w).

(** A run of the message handler over the messages received, each with the
    clock reading at its arrival, and each handled to its end before the
    next arrives. *)
Definition run_messages (ms : list (Q * LiveServerMessage)) (w : World)
  : World :=
  foldl (λ w m, exec (onmessage m.1 m.2) w) w ms.

(** *** The handler across its [await]

    Between the two halves of a call of [onmessage] other handlers may
    run.  A call suspended at line 153 holds the settled promise it awaits
    and the [interrupted] flag of its message; suspended calls resume in the
    order in which they were suspended, as the reactions of promises do. *)
Record Suspended := {
  awaited : Completion PCM.AudioBuffer;
  then_interrupted : bool
}.

(** The component together with the calls of [onmessage] that are
    suspended, the oldest first. *)
Record Loop := {
  world : World;
  suspended : list Suspended
}.

(** No call is suspended. *)
Definition idle (w : World) : Loop := {| world := w; suspended := [] |}.

(** The transport calls [onmessage]: lines 145-158.  A message without
    audio is handled to its end, there being no [await] on that path. *)
Definition onmessage_begin (now : Q) (message : LiveServerMessage) (l : Loop)
  : Loop :=
  match truthy (inlineData message) with
  | Some base64Audio =>
      if negb (outputAudioContextRef (world l)) then l
      else
        match enqueue_begin now base64Audio (world l) with
        | (Return settled, w) =>
            {| world := w;
               suspended :=
                 suspended l ++ [{| awaited := settled;
                                    then_interrupted := interrupted message |}] |}
        | (Throw _, w) => {| world := w; suspended := suspended l |}
        end
  | None =>
      {| world := exec (when (interrupted message) interrupt) (world l);
         suspended := suspended l |}
  end.

(** A suspended call resumes: lines 160-177. *)
Definition onmessage_resume (s : Suspended) : M unit :=
  enqueue_resume (awaited s) ;;
  when (then_interrupted s) interrupt.

(** What the event loop runs next: a call of [onmessage] by the transport,
    the resumption of the oldest suspended call, or the ['ended'] listener
    of a source. *)
Inductive Event :=
  | Message (now : Q) (message : LiveServerMessage)
  | Resume
  | Ended (id : nat).

Definition step (l : Loop) (e : Event) : Loop :=
  match e with
  | Message now message => onmessage_begin now message l
  | Resume =>
      match suspended l with
      | [] => l
      | s :: rest =>
          {| world := exec (onmessage_resume s) (world l); suspended := rest |}
      end
  | Ended id =>
      {| world := exec (onended id) (world l); suspended := suspended l |}
  end.

Definition run_events (es : list Event) (l : Loop) : Loop := foldl step l es.

(** No interruption is signalled during a run: none by a message that
    arrives, none by a call already suspended. *)
Definition uninterrupted (es : list Event) (l : Loop) : Prop :=
  Forall (λ e, match e with
               | Message _ message => interrupted message = false
               | _ => True
               end) es
  ∧ Forall (λ s, then_interrupted s = false) (suspended l).

(** Consecutive segments are in sequence: each starts no earlier than the
    end the handler computed for the one before it. *)
Definition in_sequence (segs : list SourceNode) : Prop :=
  ∀ k a b, segs !! k = Some a → segs !! S k = Some b →
    (endAt a <= startAt b)%Q.

(** The segment [enqueue] schedules for a decoded buffer. *)
Definition segment (cursor now : Q) (audioBuffer : PCM.AudioBuffer)
  : SourceNode :=
  {| startAt := Qmax cursor now;
     node_duration := PCM.duration audioBuffer;
     node_stopped := false |}.

(** The queue invariant over the segments created from index [n] on: they
    are in sequence, and the cursor is no earlier than the end of the last
    one. *)
Definition queue_inv (n : nat) (w : World) : Prop :=
  n ≤ length (nodes w)
  ∧ in_sequence (drop n (nodes w))
  ∧ ∀ a, last (drop n (nodes w)) = Some a →
         (endAt a <= nextStartTimeRef w)%Q.

(** A message that carries audio only. *)
Definition audio_message (base64Audio : string) : LiveServerMessage :=
  {| inlineData := Some base64Audio; interrupted := false |}.

(** A message that carries the interruption signal only. *)
Definition interruption : LiveServerMessage :=
  {| inlineData := None; interrupted := true |}.

(** The state after a successful activation: the effect ran with the panel
    open and the microphone unmuted, permission was granted, the session
    opened and the promise returned by [connect] was fulfilled. *)
Definition active : World :=
  exec session_fulfilled
    (exec onopen (exec (initSession_resume true) (exec (effect true) initial))).

(** A frame of 0.1 s of silence as the server sends it: 2400 samples of
    16 bits at 24 kHz. *)
Definition tenth_of_a_second : string := encodeAudio (replicate 4800 Byte.x00).

(** An active session that has just scheduled one such frame, at clock
    reading 0. *)
Definition playing : World :=
  exec (onmessage 0 (audio_message tenth_of_a_second)) active.

End Voice.

(** ** The paper fetch ([generateArxivPapers], [services/gemini.ts]) *)

Module Papers.

(** A value [JSON.parse] can return.  A number is carried as the literal
    that wrote it; the members of an object are listed as written, and a
    key written twice has the value written last. *)
#[local] Unset Elimination Schemes.
Inductive JSON :=
  | JNull
  | JBool (b : bool)
  | JNumber (literal : string)
  | JString (s : string)
  | JArray (items : list JSON)
  | JObject (members : list (string * JSON)).
#[local] Set Elimination Schemes.

(** [types.ts] *)
Record Paper := {
  title : string;
  authors : list string;
  year : string;
  summary : string;
  highlights : list string;
  link : string
}.

(** [object[key]] on a parsed object; [None] is [undefined]. *)
Definition member (key : string) (members : list (string * JSON))
  : option JSON :=
  snd <$> last (filter (λ m, String.eqb m.1 key) members).

Definition is_string (v : option JSON) : bool :=
  match v with Some (JString _) => true | _ => false end.

Definition is_string_array (v : option JSON) : bool :=
  match v with
  | Some (JArray items) => forallb (λ x, is_string (Some x)) items
  | _ => false
  end.

(** The value has the shape of a [Paper]: an object with the six members
    at their types. *)
Definition is_paper (v : JSON) : bool :=
  match v with
  | JObject ms =>
      is_string (member "title" ms) && is_string_array (member "authors" ms)
      && is_string (member "year" ms) && is_string (member "summary" ms)
      && is_string_array (member "highlights" ms)
      && is_string (member "link" ms)
  | _ => false
  end.

(** The value has the shape of a [Paper[]]. *)
Definition is_paper_list (v : JSON) : bool :=
  match v with
  | JArray items => forallb is_paper items
  | _ => false
  end.

(** A [Paper] as the value [JSON.parse] returns for it. *)
Definition paper_json (p : Paper) : JSON :=
  JObject [("title", JString (title p));
           ("authors", JArray (JString <$> authors p));
           ("year", JString (year p));
           ("summary", JString (summary p));
           ("highlights", JArray (JString <$> highlights p));
           ("link", JString (link p))].

(** *** String operations of the platform *)

Definition quote : string := String (ascii_of_nat 34) EmptyString.

(** [s.replace(/pat/g, '')] for a literal, non-empty pattern: every
    occurrence found scanning left to right is deleted; [skip] counts the
    characters of a match still to be dropped. *)
Fixpoint remove_all_from (pat : string) (skip : nat) (s : string) : string :=
  match s with
  | EmptyString => EmptyString
  | String c s' =>
      match skip with
      | S k => remove_all_from pat k s'
      | O =>
          if String.prefix pat s
          then remove_all_from pat (String.length pat - 1) s'
          else String c (remove_all_from pat 0 s')
      end
  end.

Definition remove_all (pat s : string) : string := remove_all_from pat 0 s.

(** [s.indexOf(c)] for a one-character argument; [None] is -1. *)
Fixpoint indexOf (c : ascii) (s : string) : option nat :=
  match s with
  | EmptyString => None
  | String x s' =>
      if Ascii.eqb x c then Some 0 else S <$> indexOf c s'
  end.

(** [s.lastIndexOf(c)] *)
Fixpoint lastIndexOf (c : ascii) (s : string) : option nat :=
  match s with
  | EmptyString => None
  | String x s' =>
      match lastIndexOf c s' with
      | Some i => Some (S i)
      | None => if Ascii.eqb x c then Some 0 else None
      end
  end.

(** [s.substring(a, b)]: both indices are clamped to the length and swapped
    when [a > b]. *)
Definition js_substring (a b : nat) (s : string) : string :=
  let a' := a `min` String.length s in
  let b' := b `min` String.length s in
  String.substring (a' `min` b') (a' `max` b' - a' `min` b') s.

(** *** The collaborators *)

Section fetch.

(** [ai.models.generateContent] for a prompt: it rejects, or it answers
    with a response whose [text] may be [undefined]. *)
Variable generateContent : string → Completion (option string).

(** [JSON.parse(text)]: a [SyntaxError] on text that is not JSON;
    otherwise the value the text denotes, whatever its shape. *)
Variable JSON_parse : string → Completion JSON.

Definition prompt (topic : string) (count : nat) : string :=
  "Find " +:+ pretty count +:+ " real or realistic arXiv papers about "
    +:+ quote +:+ topic +:+ quote +:+ ". 
  Return a structured JSON list. 
  For each paper, provide:
  - " +:+ quote +:+ "title" +:+ quote +:+ ": string
  - " +:+ quote +:+ "authors" +:+ quote +:+ ": array of strings
  - " +:+ quote +:+ "year" +:+ quote +:+ ": string
  - " +:+ quote +:+ "summary" +:+ quote +:+ ": A brief summary (approx 50 words)
  - " +:+ quote +:+ "highlights" +:+ quote
    +:+ ": array of strings (key bullet points)
  - " +:+ quote +:+ "link" +:+ quote
    +:+ ": string (use a real arxiv.org link if found, or generate a plausible one).
  
  IMPORTANT: Return ONLY the valid JSON array. Do not use Markdown formatting. Do not include explanations.
  Use Google Search to ensure the papers are real.".

(** [response.text || "[]"]: [undefined] and the empty string are falsy. *)
Definition text_or_default (text : option string) : string :=
  match text with
  | Some (String _ _ as t) => t
  | _ => "[]"
  end.

(** Lines 35-47: strip Markdown fences, then keep the stretch from the
    first [[] to the last []] when both occur.  Either way the result is
    what [JSON.parse] is given. *)
Definition extract_json (text : string) : string :=
  let text := remove_all "```" (remove_all "```json" text) in
  match indexOf "[" text, lastIndexOf "]" text with
  | Some start, Some end_ => js_substring start (end_ + 1) text
  | _, _ => text
  end.

(** The body of the [try] block.  [as Paper[]] is a cast of the type
    checker, erased from the code that runs: what is returned is the value
    [JSON.parse] returned. *)
Definition fetch_and_parse (topic : string) (count : nat)
  : Completion JSON :=
  match generateContent (prompt topic count) with
  | Throw e => Throw e
  | Return text => JSON_parse (extract_json (text_or_default text))
  end.

(** [try { ... } catch (error) { console.error(...); return []; }] *)
Definition generateArxivPapers (topic : string) (count : nat)
  : Completion JSON :=
  match fetch_and_parse topic count with
  | Return papers => Return papers
  | Throw _ => Return (JArray [])
  end.

End fetch.

(** A record of the shape the service is asked for. *)
Definition sample_paper : Paper :=
  {| title := "Attention Is All You Need"; authors := ["A. Vaswani"];
     year := "2017"; summary := "Transformers."; highlights := ["attention"];
     link := "https://arxiv.org/abs/1706.03762" |}.

End Papers.

(** ** Further vocabulary for the codecs *)

Module CodecText.

(** The characters of base64 text: the 64 digits and the padding sign. *)
Definition text_safe (c : ascii) : Prop :=
  is_Some (Base64.char_sextet c) ∨ c = "="%char.

(** [base64data.split(',')[1]] of [blobToBase64] ([services/gemini.ts],
    line 101): the stretch between the first comma and the second, or
    [undefined] ([None]) when there is no comma. *)
Fixpoint until_comma (s : string) : string :=
  match s with
  | EmptyString => EmptyString
  | String c s' =>
      if Ascii.eqb c ","%char then EmptyString else String c (until_comma s')
  end.

Fixpoint split_comma_1 (s : string) : option string :=
  match s with
  | EmptyString => None
  | String c s' =>
      if Ascii.eqb c ","%char then Some (until_comma s') else split_comma_1 s'
  end.

(** The string [reader.result] that [readAsDataURL] produces for a blob of
    the given media type and content. *)
Definition data_url (mediaType : string) (content : list Byte.byte) : string :=
  "data:" +:+ mediaType +:+ ";base64," +:+ encodeAudio content.

(** What the promise of [blobToBase64] resolves to. *)
Definition blobToBase64 (mediaType : string) (content : list Byte.byte)
  : option string :=
  split_comma_1 (data_url mediaType content).

Definition has_no (c : ascii) (s : string) : Prop :=
  Forall (λ x, x ≠ c) (list_ascii_of_string s).

End CodecText.

(** ** Activation: the instruction sent with [connect], and capture runs *)

Module VoiceSetup.
Import Voice.

(** [s.slice(0, n)]: the first [n] characters, or all of [s] when it has
    fewer. *)
Definition slice_to (n : nat) (s : string) : string := String.substring 0 n s.

(** The limit of line 84, 25000 characters. *)
Definition contextLimit : nat := 25 * 1000.

(** Line 84. *)
Definition safeContext (contextSummary : string) : string :=
  slice_to contextLimit contextSummary.

(** Lines 86-95. *)
Definition systemInstruction (contextSummary : string) : string :=
  "You are a helpful voice assistant for a research paper database. 
        
        CONTEXT DATABASE:
        " +:+ safeContext contextSummary +:+ "
        
        INSTRUCTIONS:
        1. Answer questions specifically using the information in the CONTEXT DATABASE above.
        2. If the user asks about the " +:+ Papers.quote +:+ "database"
    +:+ Papers.quote +:+ " or " +:+ Papers.quote +:+ "papers" +:+ Papers.quote
    +:+ ", refer to the content above.
        3. Keep answers concise, spoken-style, and conversational.
        4. If the context is empty, say " +:+ Papers.quote
    +:+ "I don't have any papers loaded right now." +:+ Papers.quote.

(** The capture callback run on a series of blocks, in the order the
    processor delivers them. *)
Definition run_blocks (blocks : list (list Q)) (w : World) : World :=
  foldl (λ w b, exec (onaudioprocess b) w) w blocks.

(** A message that carries audio together with the interruption signal. *)
Definition audio_and_interruption (base64Audio : string) : LiveServerMessage :=
  {| inlineData := Some base64Audio; interrupted := true |}.

End VoiceSetup.

(** ** The application shell ([App.tsx]) *)

Module App.

(** *** The mock training curve, lines 15-25 *)

(** [types.ts] *)
Record TrainingMetric := {
  epoch : nat;
  loss : Q;
  accuracy : Q
}.

Section training.

(** [Math.random()]: the result of the [n]-th call made by one run of the
    generator, a number in [0, 1). *)
Variable random : nat → Q.

(** One turn of the loop: [data], [loss] and [accuracy] before and after.
    Turn [i] makes calls [2 i] and [2 i + 1] of [Math.random]. *)
Definition training_step (st : list TrainingMetric * Q * Q) (i : nat)
  : list TrainingMetric * Q * Q :=
  let '(data, loss, accuracy) := st in
  let loss' :=
    Qmax (1 # 10) (loss * (95 # 100) + (random (2 * i) * (1 # 10) - (5 # 100))) in
  let accuracy' :=
    Qmin (99 # 100) (accuracy * (105 # 100) + random (2 * i + 1) * (2 # 100)) in
  (data ++ [{| epoch := i + 1; loss := loss'; accuracy := accuracy' |}],
   loss', accuracy').

(** The loop variables after [k] turns. *)
Definition training_state (k : nat) : list TrainingMetric * Q * Q :=
  foldl training_step ([], 25 # 10, 1 # 10) (seq 0 k).

Definition generateTrainingData (points : nat) : list TrainingMetric :=
  (training_state points).1.1.

End training.

(** Every call of the random source yields a number in [0, 1). *)
Definition unit_interval (random : nat → Q) : Prop :=
  ∀ n, (0 <= random n)%Q ∧ (random n < 1)%Q.

(** The least loss the generator can reach after [k] turns:
    [b 0 = 2.5], [b (k + 1) = 0.95 * b k - 0.05]. *)
Fixpoint loss_floor (k : nat) : Q :=
  match k with
  | O => 25 # 10
  | S k' => Qred (loss_floor k' * (95 # 100) - (5 # 100))
  end.

(** *** The chat transcript, lines 132-177 *)

Inductive Role := user | model.

(** [types.ts]; [id] is the number whose decimal string the source stores. *)
Record ChatMessage := {
  id : Z;
  role : Role;
  text : string;
  isThinking : option bool
}.

Record ChatState := {
  chatHistory : list ChatMessage;
  chatInput : string;
  isChatLoading : bool
}.

(** The white space [trim] removes, among the code units below 256. *)
Definition is_js_whitespace (c : ascii) : bool :=
  let n := N_of_ascii c in
  ((n =? 9) || (n =? 10) || (n =? 11) || (n =? 12) || (n =? 13) || (n =? 32)
   || (n =? 160))%N.

(** [!chatInput.trim()]: the trimmed input is empty exactly when every
    character is white space. *)
Definition is_blank (s : string) : bool :=
  forallb is_js_whitespace (list_ascii_of_string s).

(** What [chatWithKnowledgeBase] and the stream it returns do: the call
    throws; or the stream yields chunks, each with an optional text, and
    then ends or throws. *)
Inductive ChatOutcome :=
  | CallFails
  | Streams (chunks : list (option string)) (completes : bool).

(** [chunk.text || ""] *)
Definition chunk_text (t : option string) : string :=
  match t with
  | Some s => s
  | None => EmptyString
  end.

(** The update of line 164-168 for one chunk. *)
Definition show_response (botMsgId : Z) (fullResponse : string)
    (history : list ChatMessage) : list ChatMessage :=
  map (λ msg, if (id msg =? botMsgId)%Z
              then {| id := id msg; role := role msg; text := fullResponse;
                      isThinking := Some false |}
              else msg) history.

(** The loop of lines 160-169: [fullResponse] and the history after the
    chunks received. *)
Definition stream_chunks (botMsgId : Z) (chunks : list (option string))
    (history : list ChatMessage) : string * list ChatMessage :=
  foldl (λ st chunk,
           let fullResponse := (st.1 +:+ chunk_text chunk)%string in
           (fullResponse, show_response botMsgId fullResponse st.2))
        (EmptyString, history) chunks.

Definition error_message (now : Z) : ChatMessage :=
  {| id := now; role := model; text := "Sorry, I encountered an error.";
     isThinking := None |}.

(** [handleSendMessage], with [t1], [t2], [t3] the readings of [Date.now()]
    at lines 135, 155 and 173, and the state it leaves when it is done. *)
Definition handleSendMessage (t1 t2 t3 : Z) (outcome : ChatOutcome)
    (st : ChatState) : ChatState :=
  if is_blank (chatInput st) then st
  else
    let userMsg := {| id := t1; role := user; text := chatInput st;
                      isThinking := None |} in
    let history := chatHistory st ++ [userMsg] in
    let history :=
      match outcome with
      | CallFails => history ++ [error_message t3]
      | Streams chunks completes =>
          let botMsgId := (t2 + 1)%Z in
          let history :=
            history ++ [{| id := botMsgId; role := model; text := EmptyString;
                           isThinking := Some true |}] in
          let history := (stream_chunks botMsgId chunks history).2 in
          if completes then history else history ++ [error_message t3]
      end in
    {| chatHistory := history; chatInput := EmptyString;
       isChatLoading := false |}.

(** The whole reply: the texts of the chunks in order. *)
Definition full_response (chunks : list (option string)) : string :=
  foldl (λ acc chunk, (acc +:+ chunk_text chunk)%string) EmptyString chunks.

End App.
(** * Properties

    ** Base64 round trip *)

(** Induction on lists three elements at a time, the step of base64. *)
Lemma list_ind3 {A} (P : list A → Prop) :
  P [] → (∀ a, P [a]) → (∀ a b, P [a; b]) →
  (∀ a b c l, P l → P (a :: b :: c :: l)) →
  ∀ l, P l.
Proof.
  intros H0 H1 H2 H3 l.
  assert (P l ∧ (∀ a, P (a :: l)) ∧ (∀ a b, P (a :: b :: l))) as [? _].
  { induction l as [|x l (IH0 & IH1 & IH2)]; [by auto|].
    repeat split; [apply IH1 | intros a; apply IH2 | intros a b; by apply H3]. }
  done.
Qed.


Ltac divlia := zify; Z.to_euclidean_division_equations; lia.

Module Base64Facts.
Import Base64.

Lemma sextets_of_octets_bound bs :
  Forall octet bs → Forall sextet (sextets_of_octets bs).
Proof.
  induction bs as [|a|a b|a b c l IH] using list_ind3; intros H; simpl.
  - constructor.
  - inversion_clear H. repeat constructor; unfold octet, sextet in *; divlia.
  - inversion_clear H as [|?? Ha H']. inversion_clear H'.
    repeat constructor; unfold octet, sextet in *; divlia.
  - inversion_clear H as [|?? Ha H']. inversion_clear H' as [|?? Hb H''].
    inversion_clear H'' as [|?? Hc Hl].
    repeat (constructor; [unfold octet, sextet in *; divlia|]). by apply IH.
Qed.

Lemma octets_of_sextets_of_octets bs :
  Forall octet bs → octets_of_sextets (sextets_of_octets bs) = bs.
Proof.
  induction bs as [|a|a b|a b c l IH] using list_ind3; intros H; simpl.
  - done.
  - inversion_clear H. unfold octet in *. f_equal. divlia.
  - inversion_clear H as [|?? Ha H']. inversion_clear H'. unfold octet in *.
    f_equal; [divlia|]. f_equal. divlia.
  - inversion_clear H as [|?? Ha H']. inversion_clear H' as [|?? Hb H''].
    inversion_clear H'' as [|?? Hc Hl]. unfold octet in *.
    rewrite IH by done.
    f_equal; [divlia|]. f_equal; [divlia|]. f_equal. divlia.
Qed.

(** The sextet count of an encoding is 0, 2 or 3 modulo 4. *)
Lemma sextets_of_octets_length bs :
  let n := length (sextets_of_octets bs) in
  n mod 4 = 0 ∨ n mod 4 = 2 ∨ n mod 4 = 3.
Proof.
  induction bs as [|a|a b|a b c l IH] using list_ind3;
    cbn [sextets_of_octets length] in *; auto.
  replace (S (S (S (S (length (sextets_of_octets l))))))
    with (length (sextets_of_octets l) + 1 * 4) by lia.
  by rewrite Nat.Div0.mod_add.
Qed.

Lemma sextet_enum (P : N → Prop) :
  (∀ k : nat, k < 64 → P (N.of_nat k)) → ∀ n, sextet n → P n.
Proof.
  intros H n Hn. rewrite <- (N2Nat.id n). apply H. unfold sextet in Hn. lia.
Qed.

Lemma char_sextet_sextet_char n :
  sextet n → char_sextet (sextet_char n) = Some n.
Proof.
  revert n. apply sextet_enum. intros k Hk.
  do 64 (destruct k as [|k]; [reflexivity|]). lia.
Qed.

Lemma sextet_char_not_whitespace n :
  sextet n → is_ascii_whitespace (sextet_char n) = false.
Proof.
  revert n. apply sextet_enum. intros k Hk.
  do 64 (destruct k as [|k]; [reflexivity|]). lia.
Qed.

Lemma sextet_char_not_pad n : sextet n → is_pad (sextet_char n) = false.
Proof.
  revert n. apply sextet_enum. intros k Hk.
  do 64 (destruct k as [|k]; [reflexivity|]). lia.
Qed.

Lemma sextets_of_chars_encoded xs :
  Forall sextet xs → sextets_of_chars (map sextet_char xs) = Some xs.
Proof.
  induction 1 as [|x xs Hx _ IH]; simpl; [done|].
  by rewrite char_sextet_sextet_char, IH.
Qed.

Lemma padding_cases n :
  (n mod 4 = 0 ∧ padding n = []) ∨
  (n mod 4 = 2 ∧ padding n = ["="; "="]%char) ∨
  (n mod 4 = 3 ∧ padding n = ["="]%char) ∨
  n mod 4 = 1.
Proof.
  unfold padding. pose proof (Nat.mod_upper_bound n 4 ltac:(lia)).
  destruct (n mod 4) as [|[|[|[|?]]]]; auto; lia.
Qed.

Lemma filter_whitespace_free (l : list ascii) :
  Forall (λ c, is_ascii_whitespace c = false) l →
  List.filter (λ c, negb (is_ascii_whitespace c)) l = l.
Proof.
  induction 1 as [|c l Hc _ IH]; simpl; [done|]. by rewrite Hc, IH.
Qed.

Lemma strip_padding_encoded xs :
  Forall sextet xs →
  length xs mod 4 ≠ 1 →
  strip_padding (map sextet_char xs ++ padding (length xs))
  = map sextet_char xs.
Proof.
  intros Hxs Hlen. set (body := map sextet_char xs).
  assert (Hbody : Forall (λ c, is_pad c = false) body).
  { subst body. apply List.Forall_map.
    eapply Forall_impl; [exact Hxs|]. apply sextet_char_not_pad. }
  assert (Hblen : length body = length xs) by apply length_map.
  unfold strip_padding. rewrite length_app, rev_app_distr.
  assert (Hlast : ∀ p r, rev body = p :: r → is_pad p = false).
  { intros p r Hrev. apply (proj1 (Forall_forall _ _) Hbody), list_elem_of_In.
    apply in_rev. rewrite Hrev. by left. }
  destruct (padding_cases (length xs))
    as [[Hm ->]|[[Hm ->]|[[Hm ->]|Hm]]]; [| | |done];
    cbn [length rev app].
  - rewrite Nat.add_0_r, Hblen, Hm, app_nil_r. cbn [Nat.eqb].
    destruct (rev body) as [|p [|q r]] eqn:Hrev; [done| |];
      by rewrite (Hlast _ _ eq_refl).
  - replace ((length body + 2) mod 4) with 0 by (rewrite Hblen; divlia).
    cbn. by rewrite rev_involutive.
  - replace ((length body + 1) mod 4) with 0 by (rewrite Hblen; divlia).
    cbn. destruct (rev body) as [|q r] eqn:Hrev.
    + apply (f_equal (@length _)) in Hrev. rewrite length_rev, Hblen in Hrev.
      rewrite Hrev in Hm. done.
    + rewrite (Hlast _ _ eq_refl). change (rev (q :: r) = body).
      by rewrite <- Hrev, rev_involutive.
Qed.

Lemma map_ascii_of_N_of_ascii (l : list ascii) :
  map ascii_of_N (map N_of_ascii l) = l.
Proof.
  induction l as [|c l IH]; simpl; [done|]. by rewrite ascii_N_embedding, IH.
Qed.

(** [atob] undoes [btoa] on every binary string. *)
Lemma atob_btoa s : atob (btoa s) = Some s.
Proof.
  unfold atob, btoa.
  set (bs := map N_of_ascii (list_ascii_of_string s)).
  assert (Hbs : Forall octet bs).
  { subst bs. apply Forall_forall. intros n Hn%list_elem_of_In.
    apply in_map_iff in Hn as (c & <- & _). apply N_ascii_bounded. }
  pose proof (sextets_of_octets_bound bs Hbs) as Hsx.
  assert (Hlen : length (sextets_of_octets bs) mod 4 ≠ 1).
  { pose proof (sextets_of_octets_length bs) as H. cbv zeta in H. lia. }
  rewrite list_ascii_of_string_of_list_ascii.
  rewrite filter_whitespace_free.
  2:{ apply Forall_app. split.
      - apply Forall_forall. intros c Hc%list_elem_of_In.
        apply in_map_iff in Hc as (n & <- & Hn).
        apply sextet_char_not_whitespace.
        by apply (proj1 (Forall_forall _ _) Hsx), list_elem_of_In.
      - destruct (padding_cases (length (sextets_of_octets bs)))
          as [[_ ->]|[[_ ->]|[[_ ->]|?]]]; [| | |done];
          repeat constructor. }
  rewrite strip_padding_encoded by done.
  rewrite length_map.
  destruct (Nat.eqb_spec (length (sextets_of_octets bs) mod 4) 1); [done|].
  rewrite sextets_of_chars_encoded by done.
  rewrite octets_of_sextets_of_octets by done.
  subst bs. by rewrite map_ascii_of_N_of_ascii, string_of_list_ascii_of_string.
Qed.

End Base64Facts.

(** The two loops of [encodeAudio] and [decodeAudio] are the element-wise
    maps between bytes and code units. *)
Lemma append_snoc_list (l : list ascii) (c : ascii) :
  (string_of_list_ascii l ++ String c "")%string
  = string_of_list_ascii (l ++ [c]).
Proof. induction l as [|x l IH]; [done|]. cbn. rewrite <- IH. reflexivity. Qed.

Lemma encodeAudio_binary (bytes : list Byte.byte) :
  foldl (λ binary b, (binary ++ String (ascii_of_byte b) "")%string)
        EmptyString bytes
  = string_of_list_ascii (map ascii_of_byte bytes).
Proof.
  induction bytes as [|b bytes IH] using rev_ind; [done|].
  rewrite foldl_snoc, IH. cbv beta. by rewrite append_snoc_list, map_app.
Qed.

Lemma string_get_lookup (s : string) (i : nat) :
  String.get i s = list_ascii_of_string s !! i.
Proof.
  revert i. induction s as [|c s IH]; intros [|i]; simpl; auto.
Qed.

Lemma string_length_list (s : string) :
  String.length s = length (list_ascii_of_string s).
Proof. induction s as [|c s IH]; simpl; auto. Qed.

Lemma decodeAudio_loop (s : string) (k : nat) :
  k ≤ String.length s →
  foldl (λ bytes i, <[i := charCodeAt_u8 s i]> bytes)
        (replicate (String.length s) Byte.x00) (seq 0 k)
  = map byte_of_ascii (take k (list_ascii_of_string s))
      ++ replicate (String.length s - k) Byte.x00.
Proof.
  induction k as [|k IH]; intros Hk.
  - simpl. by rewrite Nat.sub_0_r.
  - rewrite seq_S, foldl_snoc, IH by lia. cbn [Nat.add].
    assert (Hc : is_Some (list_ascii_of_string s !! k)).
    { apply lookup_lt_is_Some. rewrite <- string_length_list. lia. }
    destruct Hc as [c Hc].
    unfold charCodeAt_u8. rewrite string_get_lookup, Hc.
    rewrite (take_S_r _ _ _ Hc), map_app, <- app_assoc. simpl.
    assert (Hlen : length (map byte_of_ascii (take k (list_ascii_of_string s)))
                   = k).
    { rewrite length_map, length_take, <- string_length_list. lia. }
    rewrite insert_app_r_alt by lia. rewrite Hlen, Nat.sub_diag.
    replace (String.length s - k) with (S (String.length s - S k)) by lia.
    done.
Qed.

Lemma decodeAudio_bytes (s : string) :
  foldl (λ bytes i, <[i := charCodeAt_u8 s i]> bytes)
        (replicate (String.length s) Byte.x00) (seq 0 (String.length s))
  = map byte_of_ascii (list_ascii_of_string s).
Proof.
  rewrite decodeAudio_loop by done.
  rewrite Nat.sub_diag, app_nil_r, string_length_list. by rewrite firstn_all.
Qed.

Lemma decodeAudio_encodeAudio (b : list Byte.byte) :
  decodeAudio (encodeAudio b) = Return b.
Proof.
  unfold decodeAudio, encodeAudio.
  rewrite Base64Facts.atob_btoa, decodeAudio_bytes, encodeAudio_binary.
  rewrite list_ascii_of_string_of_list_ascii, map_map. f_equal.
  induction b as [|x b IH]; simpl; [done|].
  by rewrite byte_of_ascii_of_byte, IH.
Qed.

(** C7. The byte-to-text codec round-trips: for every byte sequence [b],
    the empty one included, [decodeAudio (encodeAudio b)] returns exactly
    [b]; [encodeAudio] is a total, deterministic function. *)
Theorem C7_decode_encode_roundtrip :
  ∀ b : list Byte.byte, decodeAudio (encodeAudio b) = Return b.
Proof. exact decodeAudio_encodeAudio. Qed.

Example encodeAudio_Man :
  encodeAudio [Byte.x4d; Byte.x61; Byte.x6e] = "TWFu"%string
  ∧ encodeAudio [Byte.x4d; Byte.x61] = "TWE="%string
  ∧ encodeAudio [Byte.x4d] = "TQ=="%string
  ∧ encodeAudio [] = ""%string
  ∧ decodeAudio "TWE" = Return [Byte.x4d; Byte.x61]
  ∧ decodeAudio "T" = Throw InvalidCharacterError
  ∧ decodeAudio "TQ=" = Throw InvalidCharacterError.
Proof. repeat split; reflexivity. Qed.

(** ** Typed-array loops *)

Section loops.
Context {A : Type}.

Lemma foldl_insert_seq_length (f : nat → A) (l : list A) (n : nat) :
  length (foldl (λ a i, <[i := f i]> a) l (seq 0 n)) = length l.
Proof.
  induction n as [|n IH]; [done|].
  by rewrite seq_S, foldl_snoc, length_insert.
Qed.

Lemma foldl_insert_seq_lookup (f : nat → A) (l : list A) (n j : nat) :
  foldl (λ a i, <[i := f i]> a) l (seq 0 n) !! j
  = if decide (j < n ∧ j < length l) then Some (f j) else l !! j.
Proof.
  induction n as [|n IH].
  - cbn [seq foldl]. case_decide; [lia|done].
  - rewrite seq_S, foldl_snoc. cbn [Nat.add]. cbv beta.
    rewrite list_lookup_insert, foldl_insert_seq_length, IH.
    repeat case_decide; try done; try lia. destruct_and?. by subst.
Qed.

Lemma foldl_alter_seq_lookup (g : nat → A → A) (l : list A) (n j : nat) :
  foldl (λ a k, alter (g k) k a) l (seq 0 n) !! j
  = if decide (j < n) then g j <$> l !! j else l !! j.
Proof.
  revert j. induction n as [|n IH]; intros j.
  - cbn [seq foldl]. case_decide; [lia|done].
  - rewrite seq_S, foldl_snoc. cbn [Nat.add]. cbv beta.
    rewrite list_lookup_alter, !IH.
    repeat case_decide; try done; try lia; by subst.
Qed.
End loops.

Module PCMFacts.
Import PCM.

Lemma int16_of_input_map (inputData : list Q) :
  int16_of_input inputData = map (λ x, toInt16 (x * 32768)) inputData.
Proof.
  unfold int16_of_input. apply list_eq. intros j.
  rewrite foldl_insert_seq_lookup, length_replicate.
  change (map ?f ?l) with (f <$> l). rewrite list_lookup_fmap.
  unfold scaled_sample. case_decide as Hj.
  - destruct (lookup_lt_is_Some_2 inputData j) as [x ->]; [lia|done].
  - rewrite (proj2 (lookup_ge_None inputData j)) by lia.
    simpl. apply lookup_ge_None. rewrite length_replicate. lia.
Qed.

Lemma toInt16_range x : int16 (toInt16 x).
Proof.
  unfold toInt16, int16. destruct (Z.geb_spec (truncate x mod 65536) 32768);
    Z.to_euclidean_division_equations; lia.
Qed.

Lemma toInt16_id x : int16 (truncate x) → toInt16 x = truncate x.
Proof.
  unfold toInt16, int16. intros H.
  destruct (Z.geb_spec (truncate x mod 65536) 32768);
    Z.to_euclidean_division_equations; lia.
Qed.

Lemma Z_of_byte_u8 z : Z_of_byte (u8 z) = (z mod 256)%Z.
Proof.
  unfold Z_of_byte, u8.
  assert (Hb : (0 ≤ z mod 256 < 256)%Z) by (apply Z.mod_pos_bound; lia).
  destruct (Byte.of_N (Z.to_N (z mod 256))) as [b|] eqn:Hof.
  - apply Byte.to_of_N in Hof. rewrite Hof. lia.
  - apply Byte.of_N_None_iff in Hof. lia.
Qed.

Lemma int16_of_bytes_int16_bytes v :
  int16 v →
  int16_of_bytes (u8 (v mod 65536)) (u8 (v mod 65536 / 256)) = v.
Proof.
  unfold int16, int16_of_bytes. intros Hv. rewrite !Z_of_byte_u8.
  destruct (Z.geb_spec ((v mod 65536) mod 256
                        + 256 * ((v mod 65536 / 256) mod 256)) 32768);
    Z.to_euclidean_division_equations; lia.
Qed.

Lemma int16_pairs_bytes (vs : list Z) :
  Forall int16 vs → int16_pairs (Uint8Array_of_Int16Array vs) = vs.
Proof.
  unfold Uint8Array_of_Int16Array.
  induction 1 as [|v vs Hv _ IH]; [done|].
  cbn [map concat int16_bytes app int16_pairs].
  by rewrite int16_of_bytes_int16_bytes, IH.
Qed.

Lemma Uint8Array_of_Int16Array_length (vs : list Z) :
  length (Uint8Array_of_Int16Array vs) = 2 * length vs.
Proof.
  unfold Uint8Array_of_Int16Array.
  induction vs as [|v vs IH]; [done|].
  cbn [map concat int16_bytes app length]. rewrite IH. lia.
Qed.

Lemma Int16Array_of_buffer_view (vs : list Z) :
  Forall int16 vs →
  Int16Array_of_buffer (Uint8Array_of_Int16Array vs) = Return vs.
Proof.
  intros H. unfold Int16Array_of_buffer.
  rewrite Uint8Array_of_Int16Array_length, int16_pairs_bytes by done.
  assert (Nat.even (2 * length vs) = true) as ->; [|done].
  apply Nat.even_spec. by exists (length vs).
Qed.

Lemma int16_pairs_length (data : list Byte.byte) :
  length (int16_pairs data) = length data / 2.
Proof.
  assert (length (int16_pairs data) = length data / 2
          ∧ ∀ a, length (int16_pairs (a :: data)) = S (length data) / 2)
    as [? _]; [|done].
  induction data as [|b data [IH1 IH2]]; split; try done.
  intros a. cbn [int16_pairs length]. rewrite IH1. divlia.
Qed.

Lemma truncate_quotient (n c : nat) :
  1 ≤ c →
  truncate (inject_Z (Z.of_nat n) / inject_Z (Z.of_nat c)) = Z.of_nat (n / c).
Proof.
  intros Hc. destruct c as [|c]; [lia|].
  unfold truncate, Qdiv, Qmult, Qinv, inject_Z.
  change (Z.of_nat (S c)) with (Z.pos (Pos.of_succ_nat c)). cbn [Qnum Qden].
  rewrite Z.mul_1_r, Pos.mul_1_l, Z.quot_div_nonneg by lia.
  by rewrite Nat2Z.inj_div.
Qed.

Lemma truncate_le_ceiling (q : Q) : (truncate q ≤ Qceiling q)%Z.
Proof.
  unfold truncate, Qceiling, Qfloor, Qopp. destruct q as [n d]. cbn.
  pose proof (Pos2Z.is_pos d). Z.to_euclidean_division_equations. nia.
Qed.

(** What [decodeAudioData] builds from a buffer of whole 16-bit samples
    holding at least one frame. *)
Lemma decodeAudioData_ok (data : list Byte.byte) (rate : Q) (c : nat) :
  (0 < rate)%Q →
  Nat.even (length data) = true →
  1 ≤ c ≤ maxChannels →
  c ≤ length (int16_pairs data) →
  ∃ buf, decodeAudioData data rate c = Return buf
    ∧ buffer_length buf = length (int16_pairs data) / c
    ∧ sampleRate buf = rate
    ∧ ∀ ch i, ch < c → i < length (int16_pairs data) / c →
        channels buf !! ch ≫= (λ cd, cd !! i)
        = Some (sample_of_int16 (int16_pairs data !! (i * c + ch))).
Proof.
  intros Hrate Heven [Hc1 Hc2] Hlen.
  set (d := int16_pairs data) in *.
  assert (Hr : Qle_bool rate 0 = false).
  { destruct (Qle_bool rate 0) eqn:E; [|done]. apply Qle_bool_iff in E. lra. }
  assert (Hq : 1 ≤ length d / c).
  { apply Nat.div_le_lower_bound; lia. }
  unfold decodeAudioData, Int16Array_of_buffer. rewrite Heven. fold d.
  unfold createBuffer. rewrite truncate_quotient, Nat2Z.id by done.
  destruct (Nat.eqb_spec c 0) as [|_]; [lia|].
  destruct (Nat.ltb_spec maxChannels c) as [|_]; [lia|].
  destruct (Nat.eqb_spec (length d / c) 0) as [|_]; [lia|]. rewrite Hr.
  cbn [orb numberOfChannels buffer_length sampleRate channels].
  eexists. split; [reflexivity|]. cbn [buffer_length sampleRate channels].
  split; [done|]. split; [done|]. intros ch i Hch Hi.
  rewrite foldl_alter_seq_lookup. case_decide; [|lia].
  rewrite lookup_replicate_2 by done. cbn [fmap option_fmap option_map mbind option_bind].
  unfold fill_channel. rewrite foldl_insert_seq_lookup, length_replicate.
  case_decide as Hd; [done|]. exfalso. apply Hd. split; [|done].
  unfold loop_turns.
  pose proof (truncate_le_ceiling
                (inject_Z (Z.of_nat (length d)) / inject_Z (Z.of_nat c))) as Ht.
  rewrite truncate_quotient in Ht by done. lia.
Qed.

(** *** Quantization *)

Lemma truncate_near (q : Q) :
  (inject_Z (truncate q) - 1 < q ∧ q < inject_Z (truncate q) + 1)%Q.
Proof.
  destruct q as [n d]. unfold truncate, Qlt, Qminus, Qplus, Qopp, inject_Z.
  cbn. pose proof (Pos2Z.is_pos d).
  split; Z.to_euclidean_division_equations; nia.
Qed.

Lemma truncate_between (q : Q) (lo hi : Z) :
  (inject_Z lo <= q)%Q → (q < inject_Z hi)%Q → (lo ≤ 0)%Z → (0 < hi)%Z →
  (lo ≤ truncate q < hi)%Z.
Proof.
  destruct q as [n d]. unfold truncate, Qlt, Qle, inject_Z. cbn.
  pose proof (Pos2Z.is_pos d). intros.
  split; Z.to_euclidean_division_equations; nia.
Qed.

(** Below full scale the scaled sample fits the 16-bit slot unchanged. *)
Lemma scaled_in_range (x : Q) :
  (-1 <= x)%Q → (x < 1)%Q → int16 (truncate (x * 32768)).
Proof.
  intros Hlo Hhi.
  destruct (truncate_between (x * 32768) (-32768) 32768) as [? ?]; try lia.
  - change (inject_Z (-32768)) with (-32768)%Q. lra.
  - change (inject_Z 32768) with 32768%Q. lra.
  - unfold int16. lia.
Qed.

Lemma quantization (x : Q) :
  (-1 <= x)%Q → (x < 1)%Q →
  (Qabs (inject_Z (toInt16 (x * 32768)) / 32768 - x) <= 1 # 32768)%Q.
Proof.
  intros Hlo Hhi. rewrite toInt16_id by by apply scaled_in_range.
  destruct (truncate_near (x * 32768)) as [H1 H2].
  apply Qabs_Qle_condition.
  set (t := inject_Z (truncate (x * 32768))) in *.
  unfold Qdiv. change (/ 32768)%Q with (1 # 32768)%Q.
  split; lra.
Qed.

(** Decoding what the capture conversion produced. *)
Lemma frameToSamples_samplesToFrame (s : list Q) (c : nat) :
  1 ≤ c ≤ maxChannels → c ≤ length s →
  ∃ chs, frameToSamples (samplesToFrame s) c = Return chs
    ∧ ∀ ch i, ch < c → i < length s / c →
        chs !! ch ≫= (λ cd, cd !! i)
        = Some (sample_of_int16
                  ((λ x, toInt16 (x * 32768)) <$> s !! (i * c + ch))).
Proof.
  intros Hc Hlen. unfold frameToSamples, samplesToFrame.
  assert (Hd : int16_pairs (Uint8Array_of_Int16Array (int16_of_input s))
               = (λ x, toInt16 (x * 32768)) <$> s).
  { rewrite int16_pairs_bytes; [apply int16_of_input_map|].
    rewrite int16_of_input_map. apply List.Forall_map, Forall_forall.
    intros x _. apply toInt16_range. }
  destruct (decodeAudioData_ok
              (Uint8Array_of_Int16Array (int16_of_input s)) 24000 c)
    as (buf & -> & _ & _ & Hsamples); [reflexivity | | done | |].
  - rewrite Uint8Array_of_Int16Array_length.
    apply Nat.even_spec. by eexists.
  - by rewrite Hd, length_fmap.
  - exists (channels buf). split; [done|]. intros ch i Hch Hi.
    rewrite Hsamples by (by rewrite ?Hd, ?length_fmap).
    by rewrite Hd, list_lookup_fmap.
Qed.

Lemma divide_index (c n i ch : nat) :
  (c | n) → ch < c → i * c + ch < n → c ≤ n ∧ i < n / c.
Proof.
  intros [k ->] Hch Hi. assert (i < k) by nia. split; [nia|].
  rewrite Nat.div_mul by lia. done.
Qed.

(** C6, as amended.  The 16-bit PCM codec round-trips below full scale:
    for every sample sequence [s] with all values in [-1, 1) and every
    channel count [c] from 1 to 32 that divides the sample count, decoding
    the frame made from [s] succeeds when [s] is not empty, and sample [i] of
    channel [ch] is within 1/32768 of [s] at index [i * c + ch]. *)
Theorem C6_frame_roundtrip (s : list Q) (c : nat) :
  Forall (λ x, (-1 <= x)%Q ∧ (x < 1)%Q) s →
  1 ≤ c ≤ maxChannels →
  (c | length s) →
  (s ≠ [] → is_return (frameToSamples (samplesToFrame s) c) = true)
  ∧ roundtrip_within (1 # 32768) s c.
Proof.
  intros Hs Hc Hdiv. split.
  - intros Hne. destruct (frameToSamples_samplesToFrame s c) as (chs & -> & _);
      [done| |done].
    destruct Hdiv as [k Hk]. rewrite Hk.
    destruct k as [|k]; [by destruct s|]. cbn [Nat.mul]. lia.
  - intros ch i x Hch Hx.
    destruct (divide_index c (length s) i ch) as [Hle Hi]; [done|done| |].
    { by eapply lookup_lt_Some. }
    destruct (frameToSamples_samplesToFrame s c) as (chs & -> & Hsamples);
      [done|done|].
    unfold sample_at. rewrite Hsamples, Hx by done. cbn.
    destruct (proj1 (Forall_forall _ _) Hs x) as [Hlo Hhi].
    { by eapply list_elem_of_lookup_2. }
    by apply quantization.
Qed.

Lemma C6_frame_roundtrip_witness :
  is_return (frameToSamples (samplesToFrame [1 # 2; - (1 # 3); 0; -1]%Q) 2)
  = true
  ∧ roundtrip_within (1 # 32768) [1 # 2; - (1 # 3); 0; -1]%Q 2.
Proof.
  destruct (C6_frame_roundtrip [1 # 2; - (1 # 3); 0; -1]%Q 2) as [Hret Hrt].
  - repeat constructor; vm_compute; congruence.
  - unfold maxChannels. lia.
  - exists 2. reflexivity.
  - split; [apply Hret; discriminate | exact Hrt].
Defined.

(** The claim as the specification states it, on the closed interval, fails
    at full scale: the one-sample sequence [1] comes back as [-1]. *)
Lemma C6_full_scale_counterexample :
  Forall (λ x, (-1 <= x)%Q ∧ (x <= 1)%Q) [1%Q]
  ∧ (1 | length [1%Q])
  ∧ frameToSamples (samplesToFrame [1%Q]) 1
    = Return [[Finite (-32768 # 32768)]]
  ∧ ¬ roundtrip_within (1 # 32768) [1%Q] 1.
Proof.
  split; [repeat constructor; vm_compute; congruence|].
  split; [by exists 1|]. split; [reflexivity|].
  intros H. specialize (H 0 0 1%Q ltac:(lia) eq_refl).
  change (Qabs ((-32768 # 32768) - 1) <= 1 # 32768)%Q in H.
  vm_compute in H. by apply H.
Qed.

(** C8, as amended.  [frameToSamples] rejects exactly the buffers of odd
    byte length, with the [RangeError] of the 16-bit view; with one channel,
    the only count the program passes, those are the lengths that are not a
    multiple of [2 * channelCount].  A buffer of even length holding at
    least one frame is decoded whatever its length modulo
    [2 * channelCount], into [floor (samples / channelCount)] frames. *)
Theorem C8_odd_length_rejected (data : list Byte.byte) (c : nat) :
  (Nat.odd (length data) = true → frameToSamples data c = Throw RangeError)
  ∧ (length data mod (2 * 1) ≠ 0 → frameToSamples data 1 = Throw RangeError)
  ∧ (Nat.even (length data) = true → 1 ≤ c ≤ maxChannels →
     c ≤ length data / 2 →
     ∃ buf, decodeAudioData data 24000 c = Return buf
          ∧ buffer_length buf = length data / 2 / c).
Proof.
  assert (Hodd : ∀ k, Nat.odd (length data) = true →
                      frameToSamples data k = Throw RangeError).
  { intros k H. unfold frameToSamples, decodeAudioData, Int16Array_of_buffer.
    rewrite <- Nat.negb_odd, H. done. }
  split; [apply Hodd|]. split.
  - intros H. apply Hodd. apply Nat.odd_spec.
    exists (length data / 2). divlia.
  - intros Heven Hc Hlen.
    destruct (decodeAudioData_ok data 24000 c ltac:(reflexivity))
      as (buf & Hbuf & Hl & _);
      [done|done|by rewrite int16_pairs_length|].
    exists buf. by rewrite <- int16_pairs_length.
Qed.

Lemma C8_odd_length_rejected_witness :
  frameToSamples [Byte.x01; Byte.x02; Byte.x03] 1 = Throw RangeError
  ∧ frameToSamples [Byte.x01; Byte.x02; Byte.x03] 2 = Throw RangeError
  ∧ ∃ buf, decodeAudioData
             [Byte.x01; Byte.x00; Byte.x02; Byte.x00; Byte.x03; Byte.x00]
             24000 2 = Return buf
         ∧ buffer_length buf = 1.
Proof.
  destruct (C8_odd_length_rejected [Byte.x01; Byte.x02; Byte.x03] 1)
    as (_ & Hone & _).
  destruct (C8_odd_length_rejected [Byte.x01; Byte.x02; Byte.x03] 2)
    as (Hodd & _ & _).
  destruct (C8_odd_length_rejected
              [Byte.x01; Byte.x00; Byte.x02; Byte.x00; Byte.x03; Byte.x00] 2)
    as (_ & _ & Heven).
  split; [apply Hone; by vm_compute|].
  split; [apply Hodd; reflexivity|].
  apply Heven; [reflexivity | unfold maxChannels; lia | vm_compute; lia].
Defined.

(** Six bytes are not a multiple of [2 * 2], yet decoding them into two
    channels raises nothing: it yields one frame and drops the third
    sample. *)
Lemma C8_even_length_counterexample :
  length [Byte.x01; Byte.x00; Byte.x02; Byte.x00; Byte.x03; Byte.x00]
    mod (2 * 2) ≠ 0
  ∧ frameToSamples
      [Byte.x01; Byte.x00; Byte.x02; Byte.x00; Byte.x03; Byte.x00] 2
    = Return [[Finite (1 # 32768)]; [Finite (2 # 32768)]].
Proof. split; [by vm_compute|reflexivity]. Qed.

(** C9.  In the capture conversion a sample of exactly 1, inside the
    documented domain [-1, 1], is scaled to 32768, which the 16-bit slot
    stores as -32768: the frame bytes are [00 80], the most negative value,
    whereas the largest sample below full scale is stored as 32767. *)
Theorem C9_full_scale_wraps :
  ((-1 <= 1)%Q ∧ (1 <= 1)%Q)
  ∧ truncate (1 * 32768) = 32768%Z
  ∧ toInt16 (1 * 32768) = (-32768)%Z
  ∧ int16_of_input [1%Q] = [(-32768)%Z]
  ∧ samplesToFrame [1%Q] = [Byte.x00; Byte.x80]
  ∧ toInt16 (-1 * 32768) = (-32768)%Z
  ∧ toInt16 ((32767 # 32768) * 32768) = 32767%Z.
Proof. repeat split; try reflexivity; by vm_compute. Qed.

End PCMFacts.

(** ** Rounding to doubles *)

Module DoubleFacts.
Import Double.
Local Open Scope Q_scope.

Lemma rne_comp (x y : Q) : x == y → rne x = rne y.
Proof.
  intros H. unfold rne. rewrite (Qfloor_comp _ _ H).
  assert (E : x - inject_Z (Qfloor y) == y - inject_Z (Qfloor y)) by lra.
  by rewrite (Qcompare_comp _ _ E (1 # 2) (1 # 2) (Qeq_refl _)).
Qed.

Lemma rne_Z (z : Z) : rne (inject_Z z) = z.
Proof.
  unfold rne. rewrite Qfloor_Z.
  destruct (inject_Z z - inject_Z z ?= 1 # 2) eqn:E; [|done|].
  - apply Qeq_alt in E. lra.
  - apply Qgt_alt in E. lra.
Qed.

Lemma rne_cases (q : Q) :
  (rne q = Qfloor q ∧ (q - inject_Z (Qfloor q) < 1 # 2
                       ∨ (q - inject_Z (Qfloor q) == 1 # 2
                          ∧ Z.even (Qfloor q) = true)))
  ∨ (rne q = (Qfloor q + 1)%Z
     ∧ (1 # 2 < q - inject_Z (Qfloor q)
        ∨ (q - inject_Z (Qfloor q) == 1 # 2
           ∧ Z.even (Qfloor q) = false))).
Proof.
  unfold rne. destruct (q - inject_Z (Qfloor q) ?= 1 # 2) eqn:E.
  - apply Qeq_alt in E. destruct (Z.even (Qfloor q)); [left|right]; tauto.
  - apply Qlt_alt in E. left; tauto.
  - apply Qgt_alt in E. right; tauto.
Qed.

Lemma rne_le (x y : Q) : x <= y → (rne x <= rne y)%Z.
Proof.
  intros Hxy. pose proof (Qfloor_resp_le x y Hxy) as Hf.
  destruct (rne_cases x) as [[-> _]|[-> Hx]];
    destruct (rne_cases y) as [[-> Hy]|[-> _]]; try lia.
  destruct (decide (Qfloor x = Qfloor y)) as [E|]; [|lia].
  exfalso. rewrite E in Hx.
  destruct Hx as [Hx|[Hx Hox]], Hy as [Hy|[Hy Hey]]; try lra.
  congruence.
Qed.

Lemma pow2_pos (k : Z) : 0 < pow2 k.
Proof. apply Qpower_0_lt. reflexivity. Qed.

Lemma pow2_add (a b : Z) : pow2 (a + b) == pow2 a * pow2 b.
Proof. apply Qpower_plus. discriminate. Qed.

Lemma pow2_le (a b : Z) : (a <= b)%Z → pow2 a <= pow2 b.
Proof. intros H. apply Qpower_le_compat_l; [exact H|]. discriminate. Qed.

Lemma pow2_lt (a b : Z) : (a < b)%Z → pow2 a < pow2 b.
Proof. intros H. apply Qpower_lt_compat_l; [exact H|]. reflexivity. Qed.

Lemma pow2_Z (k : Z) : (0 <= k)%Z → pow2 k == inject_Z (2 ^ k).
Proof. intros H. unfold pow2. by rewrite Zpower_Qpower. Qed.

Lemma pow2_le_inv (a b : Z) : pow2 a < pow2 (b + 1) → (a <= b)%Z.
Proof.
  intros H. destruct (decide (a <= b)%Z) as [|Hn]; [done|].
  exfalso. assert (pow2 (b + 1) <= pow2 a) by (apply pow2_le; lia). lra.
Qed.


Lemma Qmake_mult (q : Q) : q * inject_Z (Z.pos (Qden q)) == inject_Z (Qnum q).
Proof.
  destruct q as [n d]. unfold Qeq, Qmult, inject_Z. cbn [Qnum Qden]. lia.
Qed.

Lemma Qnum_pos (q : Q) : 0 < q ↔ (0 < Qnum q)%Z.
Proof. destruct q as [n d]. unfold Qlt. cbn [Qnum Qden]. lia. Qed.

Lemma ilog2_spec (q : Q) :
  0 < q → pow2 (ilog2 q) <= q ∧ q < pow2 (ilog2 q + 1).
Proof.
  intros Hq. pose proof (proj1 (Qnum_pos q) Hq) as Hn.
  pose proof (Qmake_mult q) as Hm.
  set (n := Qnum q) in *. set (d := Z.pos (Qden q)) in *.
  assert (Hd : (0 < d)%Z) by done.
  destruct (Z.log2_spec n Hn) as [Hn1 Hn2].
  destruct (Z.log2_spec d Hd) as [Hd1 Hd2].
  pose proof (Z.log2_nonneg n) as Han. pose proof (Z.log2_nonneg d) as Hbn.
  set (a := Z.log2 n) in *. set (b := Z.log2 d) in *.
  assert (HN1 : pow2 a <= inject_Z n)
    by (rewrite pow2_Z by done; by rewrite <- Zle_Qle).
  assert (HN2 : inject_Z n < pow2 (a + 1))
    by (rewrite pow2_Z by lia; rewrite <- Zlt_Qlt; lia).
  assert (HD1 : pow2 b <= inject_Z d)
    by (rewrite pow2_Z by done; by rewrite <- Zle_Qle).
  assert (HD2 : inject_Z d < pow2 (b + 1))
    by (rewrite pow2_Z by lia; rewrite <- Zlt_Qlt; lia).
  assert (Hup : q < pow2 (a - b + 1)).
  { destruct (Qlt_le_dec q (pow2 (a - b + 1))) as [|Hge]; [done|exfalso].
    assert (E : pow2 (a + 1) == pow2 (a - b + 1) * pow2 b)
      by (rewrite <- pow2_add; f_equiv; lia).
    pose proof (pow2_pos (a - b + 1)). pose proof (pow2_pos b). nra. }
  assert (Hlo : pow2 (a - b - 1) <= q).
  { destruct (Qlt_le_dec q (pow2 (a - b - 1))) as [Hlt|]; [exfalso|done].
    assert (E : pow2 a == pow2 (a - b - 1) * pow2 (b + 1))
      by (rewrite <- pow2_add; f_equiv; lia).
    pose proof (pow2_pos (a - b - 1)). pose proof (pow2_pos (b + 1)). nra. }
  unfold ilog2. fold n d a b.
  destruct (Qle_bool (pow2 (a - b)) q) eqn:E.
  - apply Qle_bool_iff in E. split; [done|exact Hup].
  - split; [exact Hlo|]. replace (a - b - 1 + 1)%Z with (a - b)%Z by lia.
    apply Qnot_le_lt. intros H. apply Qle_bool_iff in H. congruence.
Qed.

Lemma ilog2_le (x y : Q) : 0 < x → x <= y → (ilog2 x <= ilog2 y)%Z.
Proof.
  intros Hx Hxy. assert (Hy : 0 < y) by lra.
  destruct (ilog2_spec x Hx) as [Hx1 _], (ilog2_spec y Hy) as [_ Hy2].
  apply pow2_le_inv. lra.
Qed.

Lemma ulp_exponent_le (x y : Q) :
  0 < x → x <= y → (ulp_exponent x <= ulp_exponent y)%Z.
Proof.
  intros Hx Hxy. pose proof (ilog2_le x y Hx Hxy). unfold ulp_exponent. lia.
Qed.

(** What the exponent of the last place says about the number. *)
Lemma ulp_exponent_upper (x : Q) :
  0 < x → x < pow2 (ulp_exponent x + precision).
Proof.
  intros Hx. destruct (ilog2_spec x Hx) as [_ H].
  eapply Qlt_le_trans; [exact H|]. apply pow2_le.
  unfold ulp_exponent, precision. lia.
Qed.

Lemma ulp_exponent_lower (x : Q) :
  0 < x → (emin < ulp_exponent x)%Z →
  pow2 (ulp_exponent x + (precision - 1)) <= x.
Proof.
  intros Hx He. destruct (ilog2_spec x Hx) as [H _].
  eapply Qle_trans; [|exact H]. apply pow2_le.
  unfold ulp_exponent, precision in *. lia.
Qed.

Lemma ulp_exponent_emin (x : Q) : (emin <= ulp_exponent x)%Z.
Proof. unfold ulp_exponent. lia. Qed.

Lemma to_grid_le (e : Z) (x y : Q) : x <= y → to_grid e x <= to_grid e y.
Proof.
  intros Hxy. unfold to_grid. pose proof (pow2_pos e) as Hp.
  apply Qmult_le_compat_r; [|lra]. rewrite <- Zle_Qle. apply rne_le.
  apply Qmult_le_compat_r; [done|]. apply Qlt_le_weak, Qinv_lt_0_compat, Hp.
Qed.

Lemma to_grid_fix (e e' : Z) (m : Z) (x : Q) :
  (e <= e')%Z → x == inject_Z m * pow2 e' → to_grid e x == x.
Proof.
  intros He Hx. unfold to_grid. pose proof (pow2_pos e) as Hp.
  assert (E : pow2 e' == inject_Z (2 ^ (e' - e)) * pow2 e).
  { rewrite <- pow2_Z by lia. rewrite <- pow2_add. f_equiv. lia. }
  assert (Hq : x / pow2 e == inject_Z (m * 2 ^ (e' - e))).
  { rewrite inject_Z_mult, Hx, E. field. lra. }
  rewrite (rne_comp _ _ Hq), rne_Z, inject_Z_mult, Hx, E. ring.
Qed.

Lemma round_pos_grid (x : Q) :
  round_pos x = to_grid (ulp_exponent x) x.
Proof. reflexivity. Qed.

Lemma round_pos_le (x y : Q) : 0 < x → x <= y → round_pos x <= round_pos y.
Proof.
  intros Hx Hxy. assert (Hy : 0 < y) by lra. rewrite !round_pos_grid.
  pose proof (ulp_exponent_le x y Hx Hxy) as He.
  destruct (decide (ulp_exponent x = ulp_exponent y)) as [->|Hne];
    [by apply to_grid_le|].
  set (B := pow2 (ulp_exponent y + (precision - 1))).
  assert (HB : B == inject_Z 1 * pow2 (ulp_exponent y + (precision - 1)))
    by (unfold B; ring).
  assert (HxB : x <= B).
  { apply Qlt_le_weak. eapply Qlt_le_trans; [by apply ulp_exponent_upper|].
    apply pow2_le. unfold precision. lia. }
  assert (HBy : B <= y).
  { apply ulp_exponent_lower; [done|]. pose proof (ulp_exponent_emin x). lia. }
  apply Qle_trans with B.
  - eapply Qle_trans; [apply (to_grid_le _ x B HxB)|].
    rewrite (to_grid_fix (ulp_exponent x)
               (ulp_exponent y + (precision - 1)) 1 B);
      [apply Qle_refl | unfold precision; lia | exact HB].
  - eapply Qle_trans; [|apply (to_grid_le _ B y HBy)].
    rewrite (to_grid_fix (ulp_exponent y)
               (ulp_exponent y + (precision - 1)) 1 B);
      [apply Qle_refl | unfold precision; lia | exact HB].
Qed.

Lemma round_pos_nonneg (x : Q) : 0 < x → 0 <= round_pos x.
Proof.
  intros Hx. rewrite round_pos_grid. unfold to_grid.
  pose proof (pow2_pos (ulp_exponent x)) as Hp.
  apply Qmult_le_0_compat; [|lra]. change 0 with (inject_Z 0).
  assert (H : inject_Z 0 <= x / pow2 (ulp_exponent x)).
  { apply Qle_shift_div_l; [done|]. change (inject_Z 0) with 0. lra. }
  rewrite <- Zle_Qle. rewrite <- (rne_Z 0) at 1. by apply rne_le.
Qed.


Lemma rne_upper (e : Z) (x : Q) :
  0 < x → x < pow2 (e + precision) →
  (0 <= rne (x / pow2 e) <= 2 ^ precision)%Z.
Proof.
  intros Hx Hup. pose proof (pow2_pos e) as Hp. split.
  - rewrite <- (rne_Z 0) at 1. apply rne_le.
    apply Qle_shift_div_l; [done|]. change (inject_Z 0) with 0. lra.
  - rewrite <- (rne_Z (2 ^ precision)). apply rne_le.
    apply Qle_shift_div_r; [done|]. rewrite <- pow2_Z by done.
    rewrite <- pow2_add. rewrite Z.add_comm. lra.
Qed.

(** A rounded number is a fixed point of the rounding. *)
Lemma round_pos_fixed (x y : Q) :
  0 < x → 0 < y → y == round_pos x → round_pos y == y.
Proof.
  intros Hx Hy E. rewrite round_pos_grid in E. unfold to_grid in E.
  set (e := ulp_exponent x) in *. set (m := rne (x / pow2 e)) in *.
  pose proof (rne_upper e x Hx (ulp_exponent_upper x Hx)) as [Hm0 Hm].
  fold m in Hm0, Hm. pose proof (pow2_pos e) as Hp.
  destruct (ilog2_spec y Hy) as [Hlo _].
  pose proof (ulp_exponent_emin x) as Hemin. fold e in Hemin.
  rewrite round_pos_grid.
  destruct (decide (m = 2 ^ precision)%Z) as [Hmax|Hlt].
  - apply (to_grid_fix _ (e + precision) 1).
    + assert (ilog2 y <= e + precision)%Z.
      { apply pow2_le_inv. eapply Qle_lt_trans; [exact Hlo|].
        rewrite E, Hmax, <- pow2_Z, <- pow2_add by done.
        rewrite Z.add_comm. apply pow2_lt. lia. }
      unfold ulp_exponent, precision in *. lia.
    + rewrite E, Hmax, <- pow2_Z, <- pow2_add by done.
      rewrite Z.add_comm. change (inject_Z 1) with 1. ring.
  - apply (to_grid_fix _ e m); [|exact E].
    assert (ilog2 y <= e + (precision - 1))%Z.
    { apply pow2_le_inv. eapply Qle_lt_trans; [exact Hlo|].
      rewrite E. replace (e + (precision - 1) + 1)%Z with (precision + e)%Z
        by lia.
      rewrite pow2_add, (pow2_Z precision) by done.
      apply Qmult_lt_compat_r; [done|]. rewrite <- Zlt_Qlt. lia. }
    unfold ulp_exponent, precision in *. lia.
Qed.

Lemma Qnum_sign (q : Q) :
  match Qnum q with
  | Z0 => q == 0
  | Zpos _ => 0 < q
  | Zneg _ => q < 0
  end.
Proof. destruct q as [[|n|n] d]; unfold Qeq, Qlt; cbn; lia. Qed.

(** [double] respects the equality of rationals, and returns the same
    fraction for equal arguments. *)
Lemma double_comp (x y : Q) : x == y → double x = double y.
Proof. intros H. unfold double. by rewrite (Qred_complete x y H). Qed.

Lemma double_0 : double 0 = 0.
Proof. reflexivity. Qed.

Lemma double_cases (x : Q) :
  (x == 0 ∧ double x = 0)
  ∨ (0 < x ∧ 0 < Qred x ∧ double x = round_pos (Qred x))
  ∨ (x < 0 ∧ 0 < - Qred x ∧ double x = - round_pos (- Qred x)).
Proof.
  pose proof (Qred_correct x) as Hr. pose proof (Qnum_sign (Qred x)) as Hs.
  unfold double. cbv zeta. destruct (Qnum (Qred x)).
  - left. split; [lra|done].
  - right; left. split; [lra|]. split; [lra|done].
  - right; right. split; [lra|]. split; [lra|done].
Qed.

(** Rounding is monotone. *)
Lemma double_le (x y : Q) : x <= y → double x <= double y.
Proof.
  intros Hxy. pose proof (Qred_correct x) as Hrx.
  pose proof (Qred_correct y) as Hry.
  destruct (double_cases x) as [[Hx ->]|[(Hx & Hx' & ->)|(Hx & Hx' & ->)]];
    destruct (double_cases y) as [[Hy ->]|[(Hy & Hy' & ->)|(Hy & Hy' & ->)]];
    try lra.
  - by apply round_pos_nonneg.
  - apply round_pos_le; [done|lra].
  - pose proof (round_pos_nonneg _ Hx'). lra.
  - pose proof (round_pos_nonneg _ Hx'). pose proof (round_pos_nonneg _ Hy').
    lra.
  - assert (round_pos (- Qred y) <= round_pos (- Qred x))
      by (apply round_pos_le; [done|lra]).
    lra.
Qed.

(** Rounding is idempotent: a double is rounded to itself. *)
Lemma double_idem (x : Q) : double (double x) == double x.
Proof.
  destruct (double_cases x) as [[Hx ->]|[(Hx & Hx' & E)|(Hx & Hx' & E)]];
    [by rewrite double_0 | |].
  - pose proof (round_pos_nonneg _ Hx') as H0.
    destruct (Qlt_le_dec 0 (double x)) as [Hpos|Hz].
    + destruct (double_cases (double x))
        as [[? _]|[(_ & Hr & ->)|(? & _ & _)]]; try lra.
      pose proof (Qred_correct (double x)) as Hc.
      rewrite (round_pos_fixed (Qred x) (Qred (double x))); try done.
      by rewrite Hc, E.
    + assert (Hd : double x == 0) by (rewrite E in *; lra).
      by rewrite (double_comp _ _ Hd), double_0.
  - pose proof (round_pos_nonneg _ Hx') as H0.
    destruct (Qlt_le_dec (double x) 0) as [Hneg|Hz].
    + destruct (double_cases (double x))
        as [[? _]|[(? & _ & _)|(_ & Hr & ->)]]; try lra.
      pose proof (Qred_correct (double x)) as Hc.
      rewrite (round_pos_fixed (- Qred x) (- Qred (double x))); try done.
      * lra.
      * rewrite Hc, E. ring.
    + assert (Hd : double x == 0) by (rewrite E in *; lra).
      by rewrite (double_comp _ _ Hd), double_0.
Qed.

Lemma is_double_spec (x : Q) : is_double x = true ↔ double x == x.
Proof. apply Qeq_bool_iff. Qed.

Lemma is_double_double (x : Q) : is_double (double x) = true.
Proof. apply is_double_spec, double_idem. Qed.

Lemma is_double_comp (x y : Q) : x == y → is_double x = is_double y.
Proof.
  intros H. unfold is_double. rewrite (double_comp x y H).
  apply eq_true_iff_eq. rewrite !Qeq_bool_iff. by rewrite H.
Qed.

Lemma is_double_max (a b : Q) :
  is_double a = true → is_double b = true → is_double (Qmax a b) = true.
Proof.
  intros Ha Hb.
  destruct (Q.max_spec a b) as [[_ E]|[_ E]]; by rewrite (is_double_comp _ _ E).
Qed.

Lemma double_nonneg (x : Q) : 0 <= x → 0 <= double x.
Proof. intros H. rewrite <- double_0. by apply double_le. Qed.

(** Adding a number that is not negative to a double does not yield less. *)
Lemma add_le (a d : Q) : is_double a = true → 0 <= d → a <= add a d.
Proof.
  intros Ha Hd. apply is_double_spec in Ha. rewrite <- Ha at 1.
  apply double_le. lra.
Qed.


(** The rounding agrees with the kernel's binary64 arithmetic on the sums
    and the quotient of a playback cursor that starts at 5 and takes two
    buffers of 2400 frames at 24 kHz: 0.1 is the quotient, 5.1 and
    5.199999999999999 the sums, and the latter is not the double nearest
    to 5.2. *)
Example double_agrees_with_binary64 :
  let tenth := PrimFloat.div (PrimFloat.of_uint63 (Uint63.of_Z 2400))
                             (PrimFloat.of_uint63 (Uint63.of_Z 24000)) in
  let five := PrimFloat.of_uint63 (Uint63.of_Z 5) in
  agrees tenth (div 2400 24000) = true
  ∧ agrees (PrimFloat.add five tenth) (add 5 (div 2400 24000)) = true
  ∧ agrees (PrimFloat.add (PrimFloat.add five tenth) tenth)
           (add (add 5 (div 2400 24000)) (div 2400 24000)) = true
  ∧ agrees (PrimFloat.add five
              (PrimFloat.div (PrimFloat.of_uint63 (Uint63.of_Z 2)) (PrimFloat.of_uint63 (Uint63.of_Z 10))))
           (add 5 (div 2 10)) = true
  ∧ agrees (PrimFloat.add (PrimFloat.add five tenth) tenth)
           (add 5 (div 2 10)) = false.
Proof. cbv zeta. split_and!; vm_compute; reflexivity. Qed.

End DoubleFacts.

(** ** The voice agent *)

Module VoiceFacts.
Import Voice.
Local Open Scope js_scope.

(** *** Laws of the handler monad *)

Lemma bind_gets {A B} (f : World → A) (k : A → M B) (w : World) :
  bind (gets f) k w = k (f w) w.
Proof. reflexivity. Qed.

Lemma bind_modify {B} (f : World → World) (k : unit → M B) (w : World) :
  bind (modify f) k w = k tt (f w).
Proof. reflexivity. Qed.

Lemma bind_lift_return {A B} (a : A) (k : A → M B) (w : World) :
  bind (lift (Return a)) k w = k a w.
Proof. reflexivity. Qed.

Lemma bind_lift_throw {A B} (e : JsError) (k : A → M B) (w : World) :
  bind (lift (Throw e)) k w = (Throw e, w).
Proof. reflexivity. Qed.

Lemma bind_ret_tt (m : M unit) (w : World) : bind m (λ _, ret tt) w = m w.
Proof. unfold bind, ret. by destruct (m w) as [[[]|e] w']. Qed.

(** Projections of updated states. *)
Ltac simpl_world :=
  cbn [
    inputAudioContextRef outputAudioContextRef streamRef processorRef
    sourceRef nextStartTimeRef sessionRef sourcesRef isConnected isMuted
    status closure_isMuted mic_live session_open output_open input_open
    sessionPromise reactions sent nodes trace set_inputAudioContextRef
    set_outputAudioContextRef set_streamRef set_processorRef set_sourceRef
    set_nextStartTimeRef set_sessionRef set_sourcesRef set_isConnected
    set_isMuted set_status set_closure_isMuted set_mic_live
    set_session_open set_output_open set_input_open set_sessionPromise
    set_reactions set_sent set_nodes set_trace
    fst snd ] in *.

(** *** Teardown *)

(** With every ref [null], [cleanup] only clears the connected flag. *)
Lemma cleanup_nothing_acquired (w : World) :
  processorRef w = false → sourceRef w = false → streamRef w = false →
  sessionRef w = None → outputAudioContextRef w = false →
  inputAudioContextRef w = false →
  cleanup w = (Return tt, set_isConnected false w).
Proof.
  intros Hp Hs Hst Hse Ho Hi. destruct w as [i o st p s ? se].
  cbn in Hp, Hs, Hst, Hse, Ho, Hi. by subst.
Qed.

(** Activation that stopped at a refused permission acquired nothing, and
    [cleanup] then returns normally, any number of times. *)
Lemma cleanup_after_refusal :
  let w := exec (initSession_resume false) (exec (effect true) initial) in
  (cleanup w).1 = Return tt
  ∧ (cleanup (exec cleanup w)).1 = Return tt
  ∧ mic_live (exec cleanup (exec cleanup w)) = false.
Proof. cbv zeta. split_and!; by vm_compute. Qed.

(** Whenever [sessionRef] holds the promise, [cleanup] throws at
    [sessionRef.current.close()], after the capture steps and before the
    session and the two audio contexts are touched. *)
Lemma cleanup_session_promise (w : World) :
  sessionRef w = Some SessionPromise →
  (cleanup w).1 = Throw TypeError
  ∧ sessionRef (exec cleanup w) = Some SessionPromise
  ∧ session_open (exec cleanup w) = session_open w
  ∧ output_open (exec cleanup w) = output_open w
  ∧ input_open (exec cleanup w) = input_open w
  ∧ outputAudioContextRef (exec cleanup w) = outputAudioContextRef w
  ∧ inputAudioContextRef (exec cleanup w) = inputAudioContextRef w
  ∧ nodes (exec cleanup w) = nodes w
  ∧ sourcesRef (exec cleanup w) = sourcesRef w
  ∧ (streamRef w = true → mic_live (exec cleanup w) = false).
Proof.
  intros Hse. destruct w as [? ? st p s ? se]. cbn in Hse. subst se.
  destruct p, s, st; vm_compute; repeat split; done.
Qed.

(** Had [sessionRef] held the session itself, [cleanup] would have run every
    step, in the order the specification lists. *)
Lemma cleanup_session_object (w : World) :
  processorRef w = true → sourceRef w = true → streamRef w = true →
  sessionRef w = Some SessionObject →
  outputAudioContextRef w = true → inputAudioContextRef w = true →
  (cleanup w).1 = Return tt
  ∧ trace (exec cleanup w)
    = trace w ++ [ProcessorDisconnect; SourceDisconnect; TrackStop;
                  SessionClose; OutputContextClose; InputContextClose]
  ∧ mic_live (exec cleanup w) = false
  ∧ session_open (exec cleanup w) = false
  ∧ output_open (exec cleanup w) = false
  ∧ input_open (exec cleanup w) = false
  ∧ (cleanup (exec cleanup w)).1 = Return tt
  ∧ trace (exec cleanup (exec cleanup w)) = trace (exec cleanup w).
Proof.
  intros Hp Hs Hst Hse Ho Hi. destruct w as [i o st p s ? se].
  cbn in Hp, Hs, Hst, Hse, Ho, Hi. subst. unfold exec. cbn.
  rewrite <- !app_assoc. repeat split; reflexivity.
Qed.

(** C3.  [cleanup] on an activated session: the capture pipeline is
    disconnected and the microphone stopped, then
    [sessionRef.current.close()] is called on the promise stored at line 190
    and throws a [TypeError]; the session is not closed, neither audio
    context is released, and a second call throws again. *)
Theorem C3_cleanup_throws_on_active_session :
  let w1 := exec cleanup active in
  sessionRef active = Some SessionPromise
  ∧ (cleanup active).1 = Throw TypeError
  ∧ trace w1 = [ProcessorDisconnect; SourceDisconnect; TrackStop]
  ∧ mic_live w1 = false
  ∧ session_open w1 = true
  ∧ output_open w1 = true
  ∧ input_open w1 = true
  ∧ (cleanup w1).1 = Throw TypeError
  ∧ exec cleanup w1 = w1.
Proof. cbv zeta. split_and!; by vm_compute. Qed.

(** *** Capture *)

(** The callback skips a block exactly when the [isMuted] it closed over is
    true. *)
Lemma onaudioprocess_muted (inputData : list Q) (w : World) :
  closure_isMuted w = true → onaudioprocess inputData w = (Return tt, w).
Proof. intros H. unfold onaudioprocess, bind, gets. cbn. by rewrite H. Qed.

Lemma onaudioprocess_sends (inputData : list Q) (w : World) :
  closure_isMuted w = false → sessionPromise w = Fulfilled →
  session_open w = true →
  onaudioprocess inputData w
  = (Return tt, set_sent (sent w ++ [pcm_frame inputData]) w).
Proof.
  intros Hm Hp Ho.
  unfold onaudioprocess, then_send, sendRealtimeInput, bind, gets, when. cbn.
  rewrite Hm, Hp. cbn. by rewrite Ho.
Qed.

(** Three blocks captured on an unmuted, open session: exactly three sends,
    in capture order, each tagged [audio/pcm;rate=16000]. *)
Lemma three_blocks_three_sends (b1 b2 b3 : list Q) (w : World) :
  closure_isMuted w = false → sessionPromise w = Fulfilled →
  session_open w = true →
  let w' := exec (onaudioprocess b3)
              (exec (onaudioprocess b2) (exec (onaudioprocess b1) w)) in
  sent w' = sent w ++ [pcm_frame b1; pcm_frame b2; pcm_frame b3]
  ∧ Forall (λ f, mimeType f = "audio/pcm;rate=16000"%string)
           [pcm_frame b1; pcm_frame b2; pcm_frame b3].
Proof.
  intros Hm Hp Ho. split; [|by repeat constructor].
  unfold exec. rewrite (onaudioprocess_sends b1) by done. cbn [snd].
  rewrite (onaudioprocess_sends b2) by done. cbn [snd].
  rewrite (onaudioprocess_sends b3) by done. cbn.
  by rewrite <- !app_assoc.
Qed.

(** Toggling mute touches nothing but the [isMuted] state. *)
Lemma toggleMute_only_flips (w : World) :
  toggleMute w = (Return tt, set_isMuted (negb (isMuted w)) w).
Proof. reflexivity. Qed.

(** C5.  On an active session the user mutes; the next block the capture
    callback receives is sent all the same: the callback tests the [isMuted]
    of the render in which the effect ran, and the effect does not run again
    when [isMuted] changes. *)
Theorem C5_mute_after_activation_does_not_gate (inputData : list Q) :
  let w := exec toggleMute active in
  isMuted w = true
  ∧ closure_isMuted w = false
  ∧ session_open w = true
  ∧ sent w = []
  ∧ sent (exec (onaudioprocess inputData) w) = [pcm_frame inputData].
Proof.
  cbv zeta.
  assert (Hsent : sent (exec toggleMute active) = []) by by vm_compute.
  split_and!; [by vm_compute | by vm_compute | by vm_compute | done |].
  unfold exec at 1.
  rewrite onaudioprocess_sends; [| by vm_compute | by vm_compute | by vm_compute].
  cbn [snd sent set_sent]. by rewrite Hsent.
Qed.

(** *** Playback scheduling *)

Lemma bind_assoc {A B C} (m : M A) (f : A → M B) (g : B → M C) (w : World) :
  bind (bind m f) g w = bind m (λ a, bind (f a) g) w.
Proof. unfold bind. by destruct (m w) as [[a|e] w']. Qed.

Lemma bind_ret {A B} (a : A) (k : A → M B) (w : World) :
  bind (ret a) k w = k a w.
Proof. reflexivity. Qed.

(** The first half of the handler: the clamp, and the decoding of the
    text. *)
Lemma enqueue_begin_returns (now : Q) (b64 : string) (w : World) bytes :
  decodeAudio b64 = Return bytes →
  enqueue_begin now b64 w
  = (Return (PCM.decodeAudioData bytes 24000 1),
     set_nextStartTimeRef (Qmax (nextStartTimeRef w) now) w).
Proof.
  intros Hb. unfold enqueue_begin.
  by rewrite bind_modify, Hb, bind_lift_return.
Qed.

Lemma enqueue_begin_throws (now : Q) (b64 : string) (w : World) e :
  decodeAudio b64 = Throw e →
  enqueue_begin now b64 w
  = (Throw e, set_nextStartTimeRef (Qmax (nextStartTimeRef w) now) w).
Proof.
  intros Hb. unfold enqueue_begin.
  by rewrite bind_modify, Hb, bind_lift_throw.
Qed.

(** The second half: the source starts at the cursor as the resumed
    handler finds it. *)
Lemma enqueue_resume_returned (buf : PCM.AudioBuffer) (w : World) :
  enqueue_resume (Return buf) w
  = (Return tt,
     set_sourcesRef (sourcesRef w ∪ {[length (nodes w)]})
       (set_nextStartTimeRef
          (Double.add (nextStartTimeRef w) (buffer_duration buf))
          (set_nodes (nodes w ++ [{| startAt := nextStartTimeRef w;
                                     node_duration := PCM.duration buf;
                                     node_stopped := false |}]) w))).
Proof.
  unfold enqueue_resume.
  rewrite bind_lift_return, !bind_gets, !bind_modify. unfold modify.
  simpl_world. reflexivity.
Qed.

Lemma enqueue_resume_rejected (e : JsError) (w : World) :
  enqueue_resume (Throw e) w = (Throw e, w).
Proof. reflexivity. Qed.

Lemma enqueue_returns (now : Q) (b64 : string) (w : World) bytes buf :
  decodeAudio b64 = Return bytes →
  PCM.decodeAudioData bytes 24000 1 = Return buf →
  enqueue now b64 w
  = (Return tt,
     set_sourcesRef (sourcesRef w ∪ {[length (nodes w)]})
       (set_nextStartTimeRef
          (Double.add (Qmax (nextStartTimeRef w) now) (buffer_duration buf))
          (set_nodes (nodes w ++ [segment (nextStartTimeRef w) now buf])
             (set_nextStartTimeRef (Qmax (nextStartTimeRef w) now) w)))).
Proof.
  intros Hb Hd. unfold enqueue, bind at 1.
  rewrite (enqueue_begin_returns _ _ _ _ Hb), Hd, enqueue_resume_returned.
  by simpl_world.
Qed.

(** A frame that fails to decode is dropped; only the clamp of the cursor
    has happened. *)
Lemma enqueue_cases (now : Q) (b64 : string) (w : World) :
  (∃ bytes buf, decodeAudio b64 = Return bytes
     ∧ PCM.decodeAudioData bytes 24000 1 = Return buf)
  ∨ (∃ e, enqueue now b64 w
          = (Throw e, set_nextStartTimeRef (Qmax (nextStartTimeRef w) now) w)).
Proof.
  unfold enqueue, bind at 1.
  destruct (decodeAudio b64) as [bytes|e] eqn:Hb.
  - rewrite (enqueue_begin_returns _ _ _ _ Hb).
    destruct (PCM.decodeAudioData bytes 24000 1) as [buf|e] eqn:Hd;
      [left; by exists bytes, buf | right; by exists e].
  - right. exists e. by rewrite (enqueue_begin_throws _ _ _ _ Hb).
Qed.

Lemma onmessage_audio (now : Q) (b64 : string) (w : World) :
  b64 ≠ ""%string → outputAudioContextRef w = true →
  onmessage now (audio_message b64) w = enqueue now b64 w.
Proof.
  intros Hne Hctx. unfold onmessage, audio_message.
  cbn [inlineData interrupted]. destruct b64 as [|c b64]; [done|].
  cbn [truthy]. rewrite bind_gets, Hctx. cbn [negb when].
  apply bind_ret_tt.
Qed.

(** *** The event loop *)

(** A message with audio, on a live output context: the cursor is clamped
    and the call is suspended behind those already suspended. *)
Lemma step_message_audio (now : Q) (b64 : string) (flag : bool) (l : Loop)
    bytes :
  outputAudioContextRef (world l) = true → b64 ≠ ""%string →
  decodeAudio b64 = Return bytes →
  step l (Message now {| inlineData := Some b64; interrupted := flag |})
  = {| world := set_nextStartTimeRef
                  (Qmax (nextStartTimeRef (world l)) now) (world l);
       suspended :=
         suspended l ++ [{| awaited := PCM.decodeAudioData bytes 24000 1;
                            then_interrupted := flag |}] |}.
Proof.
  intros Hctx Hne Hb. cbn [step]. unfold onmessage_begin.
  cbn [inlineData interrupted]. destruct b64 as [|c b64]; [done|].
  cbn [truthy]. rewrite Hctx. cbn [negb].
  by rewrite (enqueue_begin_returns _ _ _ _ Hb).
Qed.

(** The interruption signal is handled at once; the suspended calls stay
    suspended. *)
Lemma step_interruption (now : Q) (l : Loop) :
  step l (Message now interruption)
  = {| world := exec interrupt (world l); suspended := suspended l |}.
Proof. reflexivity. Qed.

(** The oldest suspended call resumes with a decoded buffer. *)
Lemma step_resume_frame (l : Loop) (buf : PCM.AudioBuffer)
    (rest : list Suspended) :
  suspended l = {| awaited := Return buf; then_interrupted := false |} :: rest →
  step l Resume
  = {| world := exec (enqueue_resume (Return buf)) (world l);
       suspended := rest |}.
Proof.
  intros Hs. cbn [step]. rewrite Hs. unfold exec, onmessage_resume.
  cbn [awaited then_interrupted when]. by rewrite bind_ret_tt.
Qed.

(** A call that nothing interleaves: the message arrives while no call is
    suspended and the call resumes next.  This is [onmessage]. *)
Lemma handled_at_once (now : Q) (m : LiveServerMessage) (w : World) :
  run_events [Message now m; Resume] (idle w)
  = idle (exec (onmessage now m) w).
Proof.
  unfold run_events, idle. cbn [foldl step]. unfold onmessage_begin, onmessage.
  cbn [world suspended]. destruct (truthy (inlineData m)) as [b64|]; [|done].
  unfold exec. rewrite bind_gets.
  destruct (outputAudioContextRef w); cbn [negb]; [|done].
  unfold enqueue. rewrite bind_assoc. unfold bind at 1.
  destruct (enqueue_begin now b64 w) as [[settled|e] w1]; [|done].
  cbn [app suspended world]. unfold onmessage_resume.
  by cbn [awaited then_interrupted].
Qed.

Lemma run_events_app (es1 es2 : list Event) (l : Loop) :
  run_events (es1 ++ es2) l = run_events es2 (run_events es1 l).
Proof. apply foldl_app. Qed.

(** [run_messages] is the run in which every call resumes before the next
    message arrives. *)
Lemma run_messages_events (ms : list (Q * LiveServerMessage)) (w : World) :
  run_events (ms ≫= λ m, [Message m.1 m.2; Resume]) (idle w)
  = idle (run_messages ms w).
Proof.
  revert w. induction ms as [|m ms IH]; intros w; [done|].
  cbn [mbind list_bind]. rewrite run_events_app, handled_at_once.
  unfold run_messages. cbn [foldl]. apply IH.
Qed.

(** *** Segments in sequence *)

Lemma in_sequence_snoc (segs : list SourceNode) (b : SourceNode) :
  in_sequence segs →
  (∀ a, last segs = Some a → (endAt a <= startAt b)%Q) →
  in_sequence (segs ++ [b]).
Proof.
  intros Hseq Hlast k x y Hx Hy.
  destruct (decide (S k < length segs)) as [Hk|Hk].
  - rewrite lookup_app_l in Hx, Hy by lia. by eapply Hseq.
  - assert (S k = length segs) as Hk'.
    { apply lookup_lt_Some in Hy. rewrite length_app in Hy. simpl in Hy. lia. }
    rewrite lookup_app_l in Hx by lia.
    rewrite lookup_app_r, Hk', Nat.sub_diag in Hy by lia.
    injection Hy as <-. apply Hlast.
    rewrite last_lookup. by rewrite <- Hk'.
Qed.

Lemma queue_inv_start (w : World) : queue_inv (length (nodes w)) w.
Proof.
  unfold queue_inv. rewrite drop_all. split; [done|]. split; [|done].
  intros k a b H. by rewrite lookup_nil in H.
Qed.

Lemma queue_inv_clamp (n : nat) (now : Q) (w : World) :
  queue_inv n w →
  queue_inv n (set_nextStartTimeRef (Qmax (nextStartTimeRef w) now) w).
Proof.
  intros (Hn & Hseq & Hlast). unfold queue_inv. simpl_world.
  split; [done|]. split; [done|].
  intros a Ha. eapply Qle_trans; [by apply Hlast|]. apply Q.le_max_l.
Qed.

(** A resumed call starts its source at the cursor, which is no earlier
    than the end of the segment before, and leaves the cursor at the end of
    its own. *)
Lemma queue_inv_resume (n : nat) (settled : Completion PCM.AudioBuffer)
    (w : World) :
  queue_inv n w → queue_inv n (exec (enqueue_resume settled) w).
Proof.
  intros Hinv. unfold exec. destruct settled as [buf|e]; [|done].
  rewrite enqueue_resume_returned.
  destruct Hinv as (Hn & Hseq & Hlast). unfold queue_inv. simpl_world.
  rewrite length_app, drop_app_le by done. split; [lia|]. split.
  - apply in_sequence_snoc; [done|]. intros a Ha. cbn [startAt].
    by apply Hlast.
  - intros a. rewrite last_snoc. intros [= <-]. apply Qle_refl.
Qed.

Lemma queue_inv_begin (n : nat) (now : Q) (b64 : string) (w : World) :
  queue_inv n w → queue_inv n (exec (enqueue_begin now b64) w).
Proof.
  intros Hinv. unfold exec.
  destruct (decodeAudio b64) as [bytes|e] eqn:Hb.
  - rewrite (enqueue_begin_returns _ _ _ _ Hb). by apply queue_inv_clamp.
  - rewrite (enqueue_begin_throws _ _ _ _ Hb). by apply queue_inv_clamp.
Qed.

Lemma queue_inv_step (n : nat) (e : Event) (l : Loop) :
  uninterrupted [e] l → queue_inv n (world l) →
  queue_inv n (world (step l e)) ∧ uninterrupted [] (step l e).
Proof.
  intros [He Hs] Hinv. rewrite Forall_singleton in He.
  unfold uninterrupted. rewrite Forall_nil.
  destruct e as [now m| |id]; cbn [step].
  - simpl in He. unfold onmessage_begin. rewrite He. cbn [when].
    destruct (truthy (inlineData m)) as [b64|]; [|done].
    destruct (outputAudioContextRef (world l)); cbn [negb]; [|done].
    pose proof (queue_inv_begin n now b64 (world l) Hinv) as Hb.
    unfold exec in Hb.
    destruct (enqueue_begin now b64 (world l)) as [[settled|err] w1];
      cbn [world suspended snd] in *; [|done].
    split; [done|]. split; [done|]. apply Forall_app. split; [done|].
    by apply Forall_singleton.
  - destruct (suspended l) as [|s rest] eqn:Hq; [by rewrite Hq|].
    cbn [world suspended]. apply Forall_cons in Hs as [Hflag Hrest].
    split; [|done]. unfold exec, onmessage_resume. rewrite Hflag.
    cbn [when]. rewrite bind_ret_tt. by apply queue_inv_resume.
  - cbn [world suspended]. split; [|done].
    destruct Hinv as (? & ? & ?). done.
Qed.

Lemma queue_inv_run (n : nat) (es : list Event) (l : Loop) :
  uninterrupted es l → queue_inv n (world l) →
  queue_inv n (world (run_events es l)).
Proof.
  revert l. induction es as [|e es IH]; intros l [Hes Hs] Hinv; [done|].
  apply Forall_cons in Hes as [He Hes].
  destruct (queue_inv_step n e l) as [Hinv' [_ Hs']];
    [split; [by apply Forall_singleton|done] | done |].
  cbn [run_events foldl]. by apply IH.
Qed.

(** One frame on a live output context, nothing interleaved: where it is
    scheduled and what the handler leaves behind. *)
Lemma exec_onmessage_audio (now : Q) (b64 : string) (w : World) bytes buf :
  outputAudioContextRef w = true → b64 ≠ ""%string →
  decodeAudio b64 = Return bytes →
  PCM.decodeAudioData bytes 24000 1 = Return buf →
  let w' := exec (onmessage now (audio_message b64)) w in
  nodes w' = nodes w ++ [segment (nextStartTimeRef w) now buf]
  ∧ nextStartTimeRef w'
    = Double.add (Qmax (nextStartTimeRef w) now) (buffer_duration buf)
  ∧ sourcesRef w' = sourcesRef w ∪ {[length (nodes w)]}
  ∧ outputAudioContextRef w' = true.
Proof.
  intros Hctx Hne Hb Hd. unfold exec.
  rewrite onmessage_audio, (enqueue_returns _ _ _ _ _ Hb Hd) by done.
  by simpl_world.
Qed.

Ltac split_max :=
  repeat match goal with
         | |- context [Qmax ?a ?b] =>
             let H := fresh in
             pose proof (Q.max_spec a b) as H;
             generalize dependent (Qmax a b); intros
         | H : context [Qmax ?a ?b] |- _ =>
             let H' := fresh in
             pose proof (Q.max_spec a b) as H';
             generalize dependent (Qmax a b); intros
         end.

Lemma add_comp (a a' b b' : Q) :
  (a == a')%Q → (b == b')%Q → Double.add a b = Double.add a' b'.
Proof.
  intros Ha Hb. unfold Double.add. apply DoubleFacts.double_comp.
  by rewrite Ha, Hb.
Qed.

Lemma buffer_duration_comp (buf : PCM.AudioBuffer) (d : Q) :
  (PCM.duration buf == d)%Q → buffer_duration buf = Double.double d.
Proof. apply DoubleFacts.double_comp. Qed.

Lemma Qmax_l_eq (a b : Q) : (b <= a)%Q → (Qmax a b == a)%Q.
Proof. intros H. by apply Q.max_l. Qed.

Lemma Qmax_r_eq (a b : Q) : (a <= b)%Q → (Qmax a b == b)%Q.
Proof. intros H. by apply Q.max_r. Qed.

(** [Math.max] returns its first argument when the second is no greater. *)
Lemma Qmax_l_same (a b : Q) : (b <= a)%Q → Qmax a b = a.
Proof.
  intros H. unfold Qmax, GenericMinMax.gmax.
  destruct (a ?= b)%Q eqn:E; [done| |done]. apply Qlt_alt in E. lra.
Qed.

(** Two frames of 2400 sample frames at 24 kHz, each handled before
    anything else arrives. *)
Lemma two_frames (T now2 : Q) (w : World) b1 b2 bytes1 bytes2 buf1 buf2 :
  outputAudioContextRef w = true → (nextStartTimeRef w == T)%Q →
  b1 ≠ ""%string → b2 ≠ ""%string →
  decodeAudio b1 = Return bytes1 →
  PCM.decodeAudioData bytes1 24000 1 = Return buf1 →
  decodeAudio b2 = Return bytes2 →
  PCM.decodeAudioData bytes2 24000 1 = Return buf2 →
  (PCM.duration buf1 == 1 # 10)%Q → (PCM.duration buf2 == 1 # 10)%Q →
  (now2 <= Double.add T (Double.double (1 # 10)))%Q →
  let l' :=
    run_events [Message T (audio_message b1); Resume;
                Message now2 (audio_message b2); Resume] (idle w) in
  suspended l' = []
  ∧ ∃ s1 s2, nodes (world l') = nodes w ++ [s1; s2]
    ∧ (startAt s1 == T)%Q
    ∧ startAt s2 = Double.add T (Double.double (1 # 10))
    ∧ nextStartTimeRef (world l')
      = Double.add (Double.add T (Double.double (1 # 10)))
                   (Double.double (1 # 10))
    ∧ (node_duration s1 == 1 # 10)%Q ∧ (node_duration s2 == 1 # 10)%Q.
Proof.
  intros Hctx HT Hn1 Hn2 Hb1 Hd1 Hb2 Hd2 Hdur1 Hdur2 Hnow2. cbv zeta.
  change [Message T (audio_message b1); Resume;
          Message now2 (audio_message b2); Resume]
    with ([Message T (audio_message b1); Resume]
            ++ [Message now2 (audio_message b2); Resume]).
  rewrite run_events_app, !handled_at_once. cbn [suspended world idle].
  split; [done|].
  destruct (exec_onmessage_audio T b1 w bytes1 buf1) as (N1 & C1 & _ & O1);
    try done.
  set (w1 := exec (onmessage T (audio_message b1)) w) in *.
  destruct (exec_onmessage_audio now2 b2 w1 bytes2 buf2) as (N2 & C2 & _ & _);
    try done.
  set (w2 := exec (onmessage now2 (audio_message b2)) w1) in *.
  assert (E1 : nextStartTimeRef w1 = Double.add T (Double.double (1 # 10))).
  { rewrite C1, (buffer_duration_comp _ _ Hdur1).
    apply add_comp; [|done]. rewrite HT. apply Qmax_l_eq. apply Qle_refl. }
  assert (E2 : (Qmax (nextStartTimeRef w1) now2 == nextStartTimeRef w1)%Q)
    by (apply Qmax_l_eq; by rewrite E1).
  exists (segment (nextStartTimeRef w) T buf1),
         (segment (nextStartTimeRef w1) now2 buf2).
  split; [by rewrite N2, N1, <- app_assoc|].
  cbn [startAt segment]. split; [rewrite HT; apply Qmax_l_eq, Qle_refl|].
  split; [|split; [|done]].
  - rewrite <- E1. apply Qmax_l_same. by rewrite E1.
  - rewrite C2, (buffer_duration_comp _ _ Hdur2), <- E1.
    by apply add_comp.
Qed.

(** C1, as amended.  (1) A frame that arrives while the output context is
    live and no call is suspended, that decodes, and whose call resumes
    before anything else runs, is scheduled at the maximum of the cursor and
    the device clock, joins the set of active sources, and leaves the cursor
    at its start plus its duration, added as doubles.  In general, (2) the
    call of the handler clamps the cursor to that maximum and is suspended
    behind the calls already suspended, and (3) when it resumes after its
    [await] it starts the frame at the cursor it then finds.  (4) Over any
    run of the event loop without an interruption, however the calls
    interleave, the segments scheduled during the run are in sequence: each
    starts no earlier than the end computed for the one before it.  (5) Two
    frames of 0.1 s handled one after the other with the cursor at device
    time [T], the second arriving no later than the end of the first, are
    scheduled at [T] and at [T + d], and leave the cursor at [(T + d) + d],
    with [d] the double nearest to 0.1 and the sums rounded to doubles. *)
Theorem C1_playback_scheduling :
  (∀ (now : Q) (b64 : string) (w : World) bytes buf,
     outputAudioContextRef w = true → b64 ≠ ""%string →
     decodeAudio b64 = Return bytes →
     PCM.decodeAudioData bytes 24000 1 = Return buf →
     let l' := run_events [Message now (audio_message b64); Resume] (idle w) in
     nodes (world l')
     = nodes w ++ [{| startAt := Qmax (nextStartTimeRef w) now;
                      node_duration := PCM.duration buf;
                      node_stopped := false |}]
     ∧ nextStartTimeRef (world l')
       = Double.add (Qmax (nextStartTimeRef w) now) (buffer_duration buf)
     ∧ sourcesRef (world l') = sourcesRef w ∪ {[length (nodes w)]}
     ∧ suspended l' = [])
  ∧ (∀ (now : Q) (b64 : string) (l : Loop) bytes,
       outputAudioContextRef (world l) = true → b64 ≠ ""%string →
       decodeAudio b64 = Return bytes →
       let l' := step l (Message now (audio_message b64)) in
       nextStartTimeRef (world l') = Qmax (nextStartTimeRef (world l)) now
       ∧ nodes (world l') = nodes (world l)
       ∧ sourcesRef (world l') = sourcesRef (world l)
       ∧ suspended l'
         = suspended l ++ [{| awaited := PCM.decodeAudioData bytes 24000 1;
                              then_interrupted := false |}])
  ∧ (∀ (l : Loop) (buf : PCM.AudioBuffer) (rest : list Suspended),
       suspended l
       = {| awaited := Return buf; then_interrupted := false |} :: rest →
       let l' := step l Resume in
       nodes (world l')
       = nodes (world l) ++ [{| startAt := nextStartTimeRef (world l);
                                node_duration := PCM.duration buf;
                                node_stopped := false |}]
       ∧ nextStartTimeRef (world l')
         = Double.add (nextStartTimeRef (world l)) (buffer_duration buf)
       ∧ sourcesRef (world l')
         = sourcesRef (world l) ∪ {[length (nodes (world l))]}
       ∧ suspended l' = rest)
  ∧ (∀ (es : list Event) (l : Loop),
       uninterrupted es l →
       in_sequence (drop (length (nodes (world l)))
                         (nodes (world (run_events es l)))))
  ∧ (∀ (T now2 : Q) (w : World) b1 b2 bytes1 bytes2 buf1 buf2,
       outputAudioContextRef w = true → (nextStartTimeRef w == T)%Q →
       b1 ≠ ""%string → b2 ≠ ""%string →
       decodeAudio b1 = Return bytes1 →
       PCM.decodeAudioData bytes1 24000 1 = Return buf1 →
       decodeAudio b2 = Return bytes2 →
       PCM.decodeAudioData bytes2 24000 1 = Return buf2 →
       (PCM.duration buf1 == 1 # 10)%Q → (PCM.duration buf2 == 1 # 10)%Q →
       (now2 <= Double.add T (Double.double (1 # 10)))%Q →
       let l' :=
         run_events [Message T (audio_message b1); Resume;
                     Message now2 (audio_message b2); Resume] (idle w) in
       suspended l' = []
       ∧ ∃ s1 s2, nodes (world l') = nodes w ++ [s1; s2]
         ∧ (startAt s1 == T)%Q
         ∧ startAt s2 = Double.add T (Double.double (1 # 10))
         ∧ nextStartTimeRef (world l')
           = Double.add (Double.add T (Double.double (1 # 10)))
                        (Double.double (1 # 10))
         ∧ (node_duration s1 == 1 # 10)%Q ∧ (node_duration s2 == 1 # 10)%Q).
Proof.
  split; [|split; [|split; [|split]]].
  - intros now b64 w bytes buf Hctx Hne Hb Hd. cbv zeta.
    rewrite handled_at_once. cbn [world suspended idle].
    destruct (exec_onmessage_audio now b64 w bytes buf) as (? & ? & ? & _);
      done.
  - intros now b64 l bytes Hctx Hne Hb. cbv zeta. unfold audio_message.
    rewrite (step_message_audio now b64 false l bytes) by done.
    cbn [world suspended]. by simpl_world.
  - intros l buf rest Hs. cbv zeta.
    rewrite (step_resume_frame l buf rest Hs). unfold exec.
    rewrite enqueue_resume_returned. by simpl_world.
  - intros es l Hes.
    by destruct (queue_inv_run (length (nodes (world l))) es l Hes
                   (queue_inv_start (world l))) as (_ & ? & _).
  - apply two_frames.
Qed.

Lemma tenth_of_a_second_decodes :
  tenth_of_a_second ≠ ""%string
  ∧ decodeAudio tenth_of_a_second = Return (replicate 4800 Byte.x00)
  ∧ ∃ buf, PCM.decodeAudioData (replicate 4800 Byte.x00) 24000 1 = Return buf
         ∧ (PCM.duration buf == 1 # 10)%Q.
Proof.
  split; [|split].
  - assert (Hhd : match tenth_of_a_second with
                  | String _ _ => true
                  | EmptyString => false
                  end = true) by (vm_compute; reflexivity).
    intros E. rewrite E in Hhd. discriminate Hhd.
  - apply decodeAudio_encodeAudio.
  - destruct (PCMFacts.decodeAudioData_ok (replicate 4800 Byte.x00) 24000 1)
      as (buf & Hbuf & Hlen & Hrate & _).
    + reflexivity.
    + by vm_compute.
    + unfold PCM.maxChannels. lia.
    + rewrite PCMFacts.int16_pairs_length, length_replicate.
      change (4800 / 2) with 2400. lia.
    + exists buf. split; [done|]. unfold PCM.duration.
      rewrite Hlen, Hrate, PCMFacts.int16_pairs_length, length_replicate.
      by vm_compute.
Qed.

(** The state [playing] without running the decoder: the one frame is
    scheduled at the clock reading 0 of its arrival. *)
Lemma playing_unfold :
  ∃ buf,
    playing
    = set_sourcesRef (sourcesRef active ∪ {[length (nodes active)]})
        (set_nextStartTimeRef
           (Double.add (Qmax (nextStartTimeRef active) 0)
                       (Double.double (1 # 10)))
           (set_nodes (nodes active ++ [segment (nextStartTimeRef active) 0 buf])
              (set_nextStartTimeRef (Qmax (nextStartTimeRef active) 0)
                                    active))).
Proof.
  destruct tenth_of_a_second_decodes as (Hne & Hb & buf & Hd & Hdur).
  exists buf. unfold playing, exec.
  rewrite onmessage_audio; [|exact Hne|by vm_compute].
  rewrite (enqueue_returns 0 tenth_of_a_second active _ buf Hb Hd).
  by rewrite (buffer_duration_comp _ _ Hdur).
Qed.

(** C4.  Teardown of a session with a playback segment scheduled: [cleanup]
    throws before it reaches the session and the audio contexts, and it
    never visits [sourcesRef]; the segment is not stopped and stays in the
    set, the output context that plays it stays open, and the session stays
    open to frames. *)
Theorem C4_teardown_leaves_playback_running :
  let w1 := exec cleanup playing in
  sourcesRef playing = {[0]}
  ∧ (cleanup playing).1 = Throw TypeError
  ∧ (node_stopped <$> nodes w1) = [false]
  ∧ sourcesRef w1 = {[0]}
  ∧ output_open w1 = true
  ∧ session_open w1 = true
  ∧ mic_live w1 = false.
Proof.
  cbv zeta. destruct playing_unfold as [buf ->].
  split_and!; by vm_compute.
Qed.

Lemma C1_playback_scheduling_witness :
  let w := set_nextStartTimeRef 5 active in
  let a := audio_message tenth_of_a_second in
  let l' := run_events [Message 5 a; Resume; Message (5 + (1 # 20)) a; Resume]
                       (idle w) in
  (∃ s1 s2, nodes (world l') = nodes w ++ [s1; s2]
     ∧ (startAt s1 == 5)%Q
     ∧ startAt s2 = Double.add 5 (Double.double (1 # 10))
     ∧ nextStartTimeRef (world l')
       = Double.add (Double.add 5 (Double.double (1 # 10)))
                    (Double.double (1 # 10)))
  ∧ in_sequence (drop (length (nodes w)) (nodes (world l')))
  ∧ sourcesRef (world (run_events [Message 7 a; Resume] (idle w)))
    = sourcesRef w ∪ {[length (nodes w)]}.
Proof.
  destruct C1_playback_scheduling as (Hone & _ & _ & Hseq & Htwo).
  destruct tenth_of_a_second_decodes as (Hne & Hb & buf & Hd & Hdur).
  split; [|split];
    [| | by destruct (Hone 7%Q tenth_of_a_second
                        (set_nextStartTimeRef 5 active)
                        (replicate 4800 Byte.x00) buf
                        ltac:(by vm_compute) Hne Hb Hd) as (_ & _ & ? & _)].
  - destruct (Htwo 5%Q (5 + (1 # 20))%Q (set_nextStartTimeRef 5 active)
                tenth_of_a_second tenth_of_a_second
                (replicate 4800 Byte.x00) (replicate 4800 Byte.x00) buf buf)
      as (_ & s1 & s2 & HN & H1 & H2 & HC & _);
      [ by vm_compute | by vm_compute | exact Hne | exact Hne | exact Hb
      | exact Hd | exact Hb | exact Hd | exact Hdur | exact Hdur
      | by vm_compute | ].
    exists s1, s2. split; [exact HN|]. split; [exact H1|].
    split; [exact H2 | exact HC].
  - apply (Hseq _ (idle (set_nextStartTimeRef 5 active))).
    split; by repeat constructor.
Defined.

(** *** Interruption *)

(** Two states with the same fields are the same state. *)
Lemma world_eq (w1 w2 : World) :
  inputAudioContextRef w1 = inputAudioContextRef w2 →
  outputAudioContextRef w1 = outputAudioContextRef w2 →
  streamRef w1 = streamRef w2 → processorRef w1 = processorRef w2 →
  sourceRef w1 = sourceRef w2 → nextStartTimeRef w1 = nextStartTimeRef w2 →
  sessionRef w1 = sessionRef w2 → sourcesRef w1 = sourcesRef w2 →
  isConnected w1 = isConnected w2 → isMuted w1 = isMuted w2 →
  status w1 = status w2 → closure_isMuted w1 = closure_isMuted w2 →
  mic_live w1 = mic_live w2 → session_open w1 = session_open w2 →
  output_open w1 = output_open w2 → input_open w1 = input_open w2 →
  sessionPromise w1 = sessionPromise w2 → reactions w1 = reactions w2 →
  sent w1 = sent w2 → nodes w1 = nodes w2 → trace w1 = trace w2 →
  w1 = w2.
Proof. destruct w1, w2. cbn. intros. by subst. Qed.

Lemma foldr_stop_lookup (ids : list nat) (ns : list SourceNode) (j : nat) :
  foldr (alter stop_node) ns ids !! j
  = if decide (j ∈ ids) then stop_node <$> ns !! j else ns !! j.
Proof.
  induction ids as [|x ids IH]; cbn [foldr].
  - case_decide as H; [by apply not_elem_of_nil in H|done].
  - destruct (decide (x = j)) as [->|Hne].
    + rewrite list_lookup_alter_eq, IH, (decide_True (P := j ∈ j :: ids))
        by apply list_elem_of_here.
      case_decide; [|done]. by destruct (ns !! j).
    + rewrite list_lookup_alter_ne, IH by done.
      destruct (decide (j ∈ ids)) as [Hj|Hj].
      * rewrite decide_True; [done|]. by apply list_elem_of_further.
      * rewrite decide_False; [done|].
        intros [?|?]%elem_of_cons; [by subst|done].
Qed.

Lemma stop_all_lookup (ids : gset nat) (ns : list SourceNode) (j : nat) :
  set_fold (alter stop_node) ns ids !! j
  = if decide (j ∈ ids) then stop_node <$> ns !! j else ns !! j.
Proof.
  unfold set_fold. cbn [compose]. rewrite foldr_stop_lookup.
  destruct (decide (j ∈ ids)) as [Hj|Hj].
  - rewrite decide_True; [done|]. by apply elem_of_elements.
  - rewrite decide_False; [done|]. by rewrite elem_of_elements.
Qed.

Lemma stop_all_length (ids : gset nat) (ns : list SourceNode) :
  length (set_fold (alter stop_node) ns ids) = length ns.
Proof.
  unfold set_fold. cbn [compose].
  induction (elements ids) as [|x l IH]; [done|].
  cbn [foldr]. by rewrite length_alter.
Qed.

Lemma interrupt_spec (w : World) :
  interrupt w
  = (Return tt,
     set_nextStartTimeRef 0
       (set_sourcesRef ∅
          (set_nodes (set_fold (alter stop_node) (nodes w) (sourcesRef w)) w))).
Proof. reflexivity. Qed.

Lemma onmessage_interruption (now : Q) (w : World) :
  onmessage now interruption w = interrupt w.
Proof. unfold onmessage, interruption. cbn. reflexivity. Qed.


Lemma exec_interrupt (w : World) :
  exec interrupt w
  = set_nextStartTimeRef 0
      (set_sourcesRef ∅
         (set_nodes (set_fold (alter stop_node) (nodes w) (sourcesRef w)) w)).
Proof. reflexivity. Qed.

(** A frame whose call is suspended when the interruption is handled is
    started, when the call resumes, at the cursor the interruption left,
    whatever the clock was when the frame arrived. *)
Lemma frame_in_flight (now now' : Q) (b64 : string) (w : World) bytes buf :
  outputAudioContextRef w = true → b64 ≠ ""%string →
  decodeAudio b64 = Return bytes →
  PCM.decodeAudioData bytes 24000 1 = Return buf →
  run_events [Message now (audio_message b64); Message now' interruption;
              Resume] (idle w)
  = idle (exec (enqueue_resume (Return buf))
            (exec interrupt
               (set_nextStartTimeRef (Qmax (nextStartTimeRef w) now) w))).
Proof.
  intros Hctx Hne Hb Hd. unfold run_events. cbn [foldl].
  unfold audio_message.
  rewrite (step_message_audio now b64 false (idle w) bytes) by done.
  rewrite Hd, step_interruption. cbn [world suspended idle app].
  by rewrite (step_resume_frame _ buf []).
Qed.

(** The same with a second frame arriving after the interruption and
    before the suspended call resumes: both calls resume, in the order of
    their arrival. *)
Lemma frame_behind_frame_in_flight (now1 now2 now3 : Q) (b64 : string)
    (w : World) bytes buf :
  outputAudioContextRef w = true → b64 ≠ ""%string →
  decodeAudio b64 = Return bytes →
  PCM.decodeAudioData bytes 24000 1 = Return buf →
  run_events [Message now1 (audio_message b64); Message now2 interruption;
              Message now3 (audio_message b64); Resume; Resume] (idle w)
  = idle (exec (enqueue_resume (Return buf))
            (exec (enqueue_resume (Return buf))
               (set_nextStartTimeRef (Qmax 0 now3)
                  (exec interrupt
                     (set_nextStartTimeRef (Qmax (nextStartTimeRef w) now1)
                                           w))))).
Proof.
  intros Hctx Hne Hb Hd. unfold run_events. cbn [foldl].
  unfold audio_message.
  rewrite (step_message_audio now1 b64 false (idle w) bytes) by done.
  rewrite Hd, step_interruption. cbn [world suspended idle app].
  rewrite (step_message_audio now3 b64 false _ bytes) by done.
  rewrite Hd. cbn [world suspended app].
  rewrite (step_resume_frame {| world := _; suspended := [_; _] |} buf [_])
    by reflexivity.
  cbn [world suspended]. by rewrite (step_resume_frame _ buf []).
Qed.

(** The specification's claim fails on three counts.  A frame whose
    handler is suspended at its [await] while an interruption is handled
    starts at the cursor the interruption left, 0, and not at the maximum
    of cursor and clock, 2; it is not stopped.  Two frames of 0.1 s handled
    one after the other from device time 5 leave the cursor at
    5.199999999999999 (the double below 5.2), not at 5.2.  And the second
    of them starts at the double 5.1, which is below 5 + 0.1, where the
    buffer of the first ends. *)
Lemma C1_start_time_counterexample :
  (let l := run_events [Message 2 (audio_message tenth_of_a_second);
                        Message 2 interruption; Resume] (idle active) in
   (startAt <$> nodes (world l)) = [0%Q]
   ∧ (node_stopped <$> nodes (world l)) = [false]
   ∧ sourcesRef (world l) = {[0]}
   ∧ Qmax (nextStartTimeRef active) 2 = 2%Q)
  ∧ (let a := audio_message tenth_of_a_second in
     let l := run_events [Message 5 a; Resume; Message 5 a; Resume]
                         (idle (set_nextStartTimeRef 5 active)) in
     (nextStartTimeRef (world l) == 5854679515581644 # 1125899906842624)%Q
     ∧ ¬ (nextStartTimeRef (world l) == 5 + (2 # 10))%Q
     ∧ ¬ (nextStartTimeRef (world l) == Double.double (5 + (2 # 10)))%Q
     ∧ ∃ s1 s2, nodes (world l) = [s1; s2]
         ∧ (startAt s2 < startAt s1 + node_duration s1)%Q).
Proof.
  destruct tenth_of_a_second_decodes as (Hne & Hb & buf & Hd & Hdur).
  split.
  - cbv zeta.
    rewrite (frame_in_flight 2 2 tenth_of_a_second active _ buf)
      by (exact Hne || exact Hb || exact Hd || by vm_compute).
    unfold exec. rewrite enqueue_resume_returned, interrupt_spec.
    cbn [world idle snd]. split_and!; by vm_compute.
  - cbv zeta.
    destruct (two_frames 5 5 (set_nextStartTimeRef 5 active)
                tenth_of_a_second tenth_of_a_second
                (replicate 4800 Byte.x00) (replicate 4800 Byte.x00) buf buf)
      as (_ & s1 & s2 & HN & H1 & H2 & -> & HD1 & _);
      [ by vm_compute | by vm_compute | exact Hne | exact Hne | exact Hb
      | exact Hd | exact Hb | exact Hd | exact Hdur | exact Hdur
      | by vm_compute | ].
    split; [by vm_compute|]. split; [by vm_compute|].
    split; [by vm_compute|].
    exists s1, s2. split; [rewrite HN; vm_compute; reflexivity|].
    rewrite H1, H2, HD1. by vm_compute.
Qed.




End VoiceFacts.

(** ** The paper fetch *)

Module PapersFacts.
Import Papers.

Example extract_json_fenced :
  extract_json "```json
[1, 2]
```" = "[1, 2]"%string
  ∧ extract_json "Here you go: [3] - enjoy" = "[3]"%string
  ∧ extract_json "null" = "null"%string
  ∧ extract_json "] stray [" = " stray "%string.
Proof. split_and!; by vm_compute. Qed.

Lemma is_string_array_strings (l : list string) :
  is_string_array (Some (JArray (JString <$> l))) = true.
Proof. cbn [is_string_array]. induction l; [done|by cbn]. Qed.

Lemma is_paper_json (p : Paper) : is_paper (paper_json p) = true.
Proof.
  unfold is_paper, paper_json.
  change (member "title" _) with (Some (JString (title p))).
  change (member "authors" _) with (Some (JArray (JString <$> authors p))).
  change (member "year" _) with (Some (JString (year p))).
  change (member "summary" _) with (Some (JString (summary p))).
  change (member "highlights" _)
    with (Some (JArray (JString <$> highlights p))).
  change (member "link" _) with (Some (JString (link p))).
  by rewrite !is_string_array_strings.
Qed.




End PapersFacts.

(** * Further properties

    ** The byte-to-text codec *)

Module CodecMore.
Import Base64 Base64Facts CodecText.

Lemma string_of_list_length (l : list ascii) :
  String.length (string_of_list_ascii l) = length l.
Proof.
  by rewrite string_length_list, list_ascii_of_string_of_list_ascii.
Qed.

Lemma padding_shift (n : nat) : padding (S (S (S (S n)))) = padding n.
Proof.
  unfold padding. replace (S (S (S (S n)))) with (n + 1 * 4) by lia.
  by rewrite Nat.Div0.mod_add.
Qed.

Lemma padded_length (bs : list N) :
  length (sextets_of_octets bs) + length (padding (length (sextets_of_octets bs)))
  = 4 * ((length bs + 2) / 3).
Proof.
  induction bs as [|a|a b|a b c l IH] using list_ind3; try reflexivity.
  cbn [sextets_of_octets length]. rewrite padding_shift.
  replace (S (S (S (length l))) + 2) with (length l + 2 + 1 * 3) by lia.
  rewrite Nat.div_add by lia. lia.
Qed.

Lemma encodeAudio_btoa (b : list Byte.byte) :
  encodeAudio b = btoa (string_of_list_ascii (map ascii_of_byte b)).
Proof. unfold encodeAudio. by rewrite encodeAudio_binary. Qed.

(** The text is four characters for every three bytes, the last group
    rounded up. *)
Lemma encodeAudio_length_eq (b : list Byte.byte) :
  String.length (encodeAudio b) = 4 * ((length b + 2) / 3).
Proof.
  rewrite encodeAudio_btoa. unfold btoa.
  rewrite string_of_list_length, length_app, length_map.
  rewrite padded_length, length_map, list_ascii_of_string_of_list_ascii.
  by rewrite length_map.
Qed.

(** Every character [encodeAudio] produces is a base64 digit or [=]. *)
Lemma encodeAudio_chars (b : list Byte.byte) :
  Forall text_safe (list_ascii_of_string (encodeAudio b)).
Proof.
  rewrite encodeAudio_btoa. unfold btoa.
  rewrite list_ascii_of_string_of_list_ascii.
  set (bs := map N_of_ascii _).
  assert (Hsx : Forall sextet (sextets_of_octets bs)).
  { apply sextets_of_octets_bound. subst bs. apply List.Forall_map.
    apply Forall_forall. intros c _. apply N_ascii_bounded. }
  apply Forall_app. split.
  - apply List.Forall_map. eapply Forall_impl; [exact Hsx|].
    intros n Hn. left. rewrite char_sextet_sextet_char by done. by eexists.
  - destruct (padding_cases (length (sextets_of_octets bs)))
      as [[_ ->]|[[_ ->]|[[_ ->]|Hm]]].
    + constructor.
    + repeat constructor; by right.
    + repeat constructor; by right.
    + pose proof (sextets_of_octets_length bs) as H. cbv zeta in H. lia.
Qed.

(** X1.  The text [encodeAudio] produces has four characters for every
    three bytes, the last group rounded up: [4 * ceil (n / 3)] for [n]
    bytes. *)
Theorem X1_encodeAudio_length (b : list Byte.byte) :
  String.length (encodeAudio b) = 4 * ((length b + 2) / 3).
Proof. apply encodeAudio_length_eq. Qed.

(** X2.  Every character [encodeAudio] produces is a base64 digit or the
    padding sign [=]. *)
Theorem X2_encodeAudio_text_safe (b : list Byte.byte) :
  Forall text_safe (list_ascii_of_string (encodeAudio b)).
Proof. apply encodeAudio_chars. Qed.

(** X3.  Distinct byte sequences have distinct encodings. *)
Theorem X3_encodeAudio_injective (a b : list Byte.byte) :
  encodeAudio a = encodeAudio b → a = b.
Proof.
  intros H. pose proof (decodeAudio_encodeAudio a) as Ha.
  rewrite H, decodeAudio_encodeAudio in Ha. congruence.
Qed.

Lemma X3_encodeAudio_injective_witness :
  [Byte.x01; Byte.x02] = [Byte.x01; Byte.x02].
Proof. apply X3_encodeAudio_injective. reflexivity. Defined.

Lemma elem_of_strip_padding (c : ascii) (l : list ascii) :
  c ∈ l → is_pad c = false → c ∈ strip_padding l.
Proof.
  intros Hc Hp. unfold strip_padding.
  destruct (length l mod 4 =? 0); [|done].
  destruct (rev l) as [|p [|q r]] eqn:Hrev; [done| |].
  - destruct (is_pad p) eqn:Hpp; [|done].
    assert (l = [p]) as -> by (by rewrite <- (rev_involutive l), Hrev).
    apply list_elem_of_singleton in Hc. congruence.
  - assert (Hl : l = rev r ++ [q] ++ [p]).
    { rewrite <- (rev_involutive l), Hrev. cbn [rev]. by rewrite <- app_assoc. }
    destruct (is_pad p) eqn:Hpp; [|done].
    rewrite Hl in Hc. apply elem_of_app in Hc as [Hc|Hc].
    + destruct (is_pad q); [done|]. cbn [rev]. apply elem_of_app. by left.
    + apply elem_of_app in Hc as [Hc|Hc]; apply list_elem_of_singleton in Hc;
        subst c; [|congruence].
      rewrite Hp. cbn [rev]. apply elem_of_app. right.
      by apply list_elem_of_singleton.
Qed.

Lemma sextets_of_chars_reject (c : ascii) (l : list ascii) :
  c ∈ l → char_sextet c = None → sextets_of_chars l = None.
Proof.
  induction l as [|x l IH]; intros Hc Hn; [by apply not_elem_of_nil in Hc|].
  apply elem_of_cons in Hc as [<-|Hc]; cbn [sextets_of_chars].
  - by rewrite Hn.
  - rewrite (IH Hc Hn). by destruct (char_sextet x).
Qed.

(** X4.  [decodeAudio] rejects, with the [InvalidCharacterError] of [atob],
    any text holding a character that is neither a base64 digit, nor [=],
    nor white space. *)
Theorem X4_decodeAudio_rejects_foreign_character (s : string) (c : ascii) :
  c ∈ list_ascii_of_string s →
  char_sextet c = None → c ≠ "="%char → is_ascii_whitespace c = false →
  decodeAudio s = Throw InvalidCharacterError.
Proof.
  intros Hc Hn Hp Hw. unfold decodeAudio, atob.
  set (data := List.filter _ _).
  assert (Hd : c ∈ strip_padding data).
  { apply elem_of_strip_padding.
    - apply list_elem_of_In, filter_In. split; [by apply list_elem_of_In|].
      by rewrite Hw.
    - unfold is_pad. by apply Ascii.eqb_neq. }
  rewrite (sextets_of_chars_reject c _ Hd Hn).
  by destruct (_ =? 1).
Qed.

Lemma X4_decodeAudio_rejects_foreign_character_witness :
  decodeAudio "AA*A" = Throw InvalidCharacterError.
Proof.
  apply (X4_decodeAudio_rejects_foreign_character "AA*A" "*"%char).
  - apply list_elem_of_In. vm_compute. tauto.
  - reflexivity.
  - discriminate.
  - reflexivity.
Defined.

Lemma until_comma_app (a b : string) :
  has_no ","%char a → until_comma (a +:+ b) = a +:+ until_comma b.
Proof.
  unfold has_no. induction a as [|x a IH]; cbn [list_ascii_of_string];
    intros H; [done|].
  inversion_clear H as [|?? Hx Ha]. change (String x a +:+ b) with (String x (a +:+ b)).
  cbn [until_comma]. apply Ascii.eqb_neq in Hx. rewrite Hx.
  rewrite IH by done. reflexivity.
Qed.

Lemma until_comma_id (a : string) : has_no ","%char a → until_comma a = a.
Proof.
  unfold has_no. induction a as [|x a IH]; cbn [list_ascii_of_string];
    intros H; [done|].
  inversion_clear H as [|?? Hx Ha]. cbn [until_comma].
  apply Ascii.eqb_neq in Hx. rewrite Hx. by rewrite IH.
Qed.

Lemma split_comma_1_app (a b : string) :
  has_no ","%char a →
  split_comma_1 (a +:+ String ","%char b) = Some (until_comma b).
Proof.
  unfold has_no. induction a as [|x a IH]; cbn [list_ascii_of_string];
    intros H; [done|].
  inversion_clear H as [|?? Hx Ha].
  change (String x a +:+ ?t) with (String x (a +:+ t)).
  cbn [split_comma_1]. apply Ascii.eqb_neq in Hx. rewrite Hx. by apply IH.
Qed.

Lemma encodeAudio_no_comma (b : list Byte.byte) :
  has_no ","%char (encodeAudio b).
Proof.
  unfold has_no. eapply Forall_impl; [apply encodeAudio_chars|].
  intros c [[n Hn]| ->]; [|discriminate]. intros ->. discriminate Hn.
Qed.

(** X5.  For a media type without a comma, [blobToBase64] yields exactly
    the base64 text of the blob's bytes, which [decodeAudio] turns back into
    those bytes. *)
Theorem X5_blobToBase64_payload (mediaType : string) (content : list Byte.byte) :
  has_no ","%char mediaType →
  blobToBase64 mediaType content = Some (encodeAudio content)
  ∧ decodeAudio (encodeAudio content) = Return content.
Proof.
  intros Hm. split; [|apply decodeAudio_encodeAudio].
  unfold blobToBase64, data_url.
  change ("data:" +:+ ?t)%string with (String "d" (String "a" (String "t" (String "a" (String ":" t))))).
  cbn [split_comma_1 Ascii.eqb Bool.eqb].
  change (";base64," +:+ ?t)%string with (";base64" +:+ String ","%char t)%string.
  assert (Hassoc : ∀ a b c : string, (a +:+ (b +:+ c) = (a +:+ b) +:+ c)%string).
  { intros a b c. induction a as [|x a IH]; [done|].
    change (String x a +:+ ?t) with (String x (a +:+ t)). by rewrite IH. }
  rewrite Hassoc, split_comma_1_app.
  - by rewrite until_comma_id by apply encodeAudio_no_comma.
  - unfold has_no in *.
    assert (Hl : ∀ a b, list_ascii_of_string (a +:+ b)
                        = list_ascii_of_string a ++ list_ascii_of_string b).
    { intros a b. induction a as [|x a IH]; [done|].
      change (String x a +:+ b) with (String x (a +:+ b)).
      cbn [list_ascii_of_string]. by rewrite IH. }
    rewrite Hl. apply Forall_app. split; [done|].
    repeat constructor; discriminate.
Qed.

Lemma X5_blobToBase64_payload_witness :
  blobToBase64 "audio/webm" [Byte.x4d; Byte.x61; Byte.x6e] = Some "TWFu"%string.
Proof.
  destruct (X5_blobToBase64_payload "audio/webm" [Byte.x4d; Byte.x61; Byte.x6e])
    as [H _]; [|exact H].
  repeat constructor; discriminate.
Defined.

End CodecMore.

(** ** The decoder of inbound frames *)

Module PCMMore.
Import PCM PCMFacts.

Section folds.
Context {A : Type}.

Lemma foldl_alter_seq_length (g : nat → A → A) (l : list A) (n : nat) :
  length (foldl (λ a k, alter (g k) k a) l (seq 0 n)) = length l.
Proof.
  induction n as [|n IH]; [done|].
  by rewrite seq_S, foldl_snoc, length_alter.
Qed.
End folds.

Lemma Z_of_byte_range (b : Byte.byte) : (0 ≤ Z_of_byte b ≤ 255)%Z.
Proof. unfold Z_of_byte. pose proof (Byte.to_N_bounded b). lia. Qed.

Lemma int16_of_bytes_range (lo hi : Byte.byte) : int16 (int16_of_bytes lo hi).
Proof.
  unfold int16, int16_of_bytes.
  pose proof (Z_of_byte_range lo). pose proof (Z_of_byte_range hi).
  destruct (Z.geb_spec (Z_of_byte lo + 256 * Z_of_byte hi) 32768); lia.
Qed.

Lemma int16_pairs_range (data : list Byte.byte) :
  Forall int16 (int16_pairs data).
Proof.
  assert (Forall int16 (int16_pairs data)
          ∧ ∀ a, Forall int16 (int16_pairs (a :: data))) as [? _]; [|done].
  induction data as [|b data [IH1 IH2]]; split; try done;
    try by constructor.
  intros a. cbn [int16_pairs]. constructor; [apply int16_of_bytes_range|done].
Qed.

(** The samples a decoded buffer may hold. *)
Lemma sample_in_range (z : Z) :
  int16 z → (-1 <= inject_Z z / 32768)%Q ∧ (inject_Z z / 32768 < 1)%Q.
Proof.
  unfold int16. intros [Hlo Hhi].
  rewrite Zle_Qle in Hlo. assert (Hhi' : (z < 32768)%Z) by lia.
  rewrite Zlt_Qlt in Hhi'.
  change (inject_Z (-32768)) with (-32768)%Q in Hlo.
  change (inject_Z 32768) with 32768%Q in Hhi'.
  unfold Qdiv. change (/ 32768)%Q with (1 # 32768)%Q. split; lra.
Qed.

(** The anatomy of a successful decode. *)
Lemma decodeAudioData_inv (data : list Byte.byte) (rate : Q) (c : nat)
    (buf : AudioBuffer) :
  decodeAudioData data rate c = Return buf →
  let d := int16_pairs data in
  let frameCount :=
    (inject_Z (Z.of_nat (length d)) / inject_Z (Z.of_nat c))%Q in
  Nat.even (length data) = true ∧ 1 ≤ c ≤ maxChannels ∧ 1 ≤ length d / c
  ∧ buf = {| numberOfChannels := c;
             buffer_length := length d / c;
             sampleRate := rate;
             channels :=
               foldl (λ chs channel,
                        alter (fill_channel d c channel frameCount) channel chs)
                     (replicate c (replicate (length d / c) (Finite 0)))
                     (seq 0 c) |}.
Proof.
  cbv zeta. unfold decodeAudioData, Int16Array_of_buffer.
  destruct (Nat.even (length data)); [|done].
  unfold createBuffer.
  destruct (Nat.eqb_spec c 0) as [|Hc0]; [done|].
  destruct (Nat.ltb_spec maxChannels c) as [|Hc32]; [done|].
  rewrite truncate_quotient, Nat2Z.id by lia.
  destruct (Nat.eqb_spec (length (int16_pairs data) / c) 0) as [|Hlen];
    [done|].
  destruct (Qle_bool rate 0); [done|].
  cbn [orb numberOfChannels buffer_length sampleRate channels].
  intros [= <-]. split; [done|]. split; [lia|]. split; [lia|done].
Qed.

(** X6.  At a sample rate that every implementation supports, 8000 to
    96000 Hz, [decodeAudioData] returns a buffer exactly when the byte
    length is even, the channel count lies between 1 and 32 and there is at
    least one sample per channel.  At any rate, an even-length input that
    misses one of the other conditions, the empty one included, or a rate
    that is not positive, raises [NotSupportedError]. *)
Theorem X6_decodeAudioData_succeeds_iff (data : list Byte.byte) (rate : Q)
    (c : nat) :
  ((8000 <= rate)%Q ∧ (rate <= 96000)%Q →
   (is_return (decodeAudioData data rate c) = true
    ↔ Nat.even (length data) = true ∧ 1 ≤ c ≤ maxChannels
      ∧ c ≤ length data / 2))
  ∧ (Nat.even (length data) = true →
     c = 0 ∨ maxChannels < c ∨ length data / 2 < c ∨ (rate <= 0)%Q →
     decodeAudioData data rate c = Throw NotSupportedError).
Proof.
  split; [intros [Hlo Hhi]; split|].
  - destruct (decodeAudioData data rate c) as [buf|e] eqn:Hd; [|done].
    intros _. destruct (decodeAudioData_inv _ _ _ _ Hd) as (He & Hc & Hn & _).
    split; [done|]. split; [done|]. rewrite <- int16_pairs_length.
    destruct (decide (c ≤ length (int16_pairs data))) as [|Hlt]; [done|].
    rewrite Nat.div_small in Hn by lia. lia.
  - intros (He & Hc & Hn).
    destruct (decodeAudioData_ok data rate c) as (buf & -> & _); try done.
    + lra.
    + by rewrite int16_pairs_length.
  - intros He Hbad. unfold decodeAudioData, Int16Array_of_buffer. rewrite He.
    unfold createBuffer.
    destruct (Nat.eqb_spec c 0) as [|Hc0]; [done|].
    destruct (Nat.ltb_spec maxChannels c) as [|Hc32]; [done|].
    rewrite truncate_quotient, Nat2Z.id by lia.
    destruct (Nat.eqb_spec (length (int16_pairs data) / c) 0) as [|Hlen];
      [done|].
    destruct (Qle_bool rate 0) eqn:Hr; [done|]. exfalso.
    destruct Hbad as [?|[?|[Hfew|Hrate]]]; [lia | lia | |].
    + rewrite int16_pairs_length, Nat.div_small in Hlen by lia. done.
    + apply Qle_bool_iff in Hrate. congruence.
Qed.

Lemma X6_decodeAudioData_succeeds_iff_witness :
  is_return (decodeAudioData [Byte.x00; Byte.x40] 24000 1) = true
  ∧ decodeAudioData [] 24000 1 = Throw NotSupportedError
  ∧ decodeAudioData [Byte.x00; Byte.x40] 24000 2 = Throw NotSupportedError
  ∧ decodeAudioData [Byte.x00; Byte.x40] 0 1 = Throw NotSupportedError.
Proof.
  destruct (X6_decodeAudioData_succeeds_iff [Byte.x00; Byte.x40] 24000 1)
    as [Hok _].
  destruct (X6_decodeAudioData_succeeds_iff [] 24000 1) as [_ Hempty].
  destruct (X6_decodeAudioData_succeeds_iff [Byte.x00; Byte.x40] 24000 2)
    as [_ Hfew].
  destruct (X6_decodeAudioData_succeeds_iff [Byte.x00; Byte.x40] 0 1)
    as [_ Hrate].
  split; [|split; [|split]].
  - apply Hok; [split; discriminate|]. split; [reflexivity|].
    unfold maxChannels. split; [lia|]. vm_compute. lia.
  - apply Hempty; [reflexivity|]. right. right. left. vm_compute. lia.
  - apply Hfew; [reflexivity|]. right. right. left. vm_compute. lia.
  - apply Hrate; [reflexivity|]. right. right. right. discriminate.
Defined.

(** X7.  A decoded buffer has one channel per requested channel, each holding
    [floor (samples / channels)] samples, and every sample is a finite
    number in [-1, 1). *)
Theorem X7_decodeAudioData_shape_and_range (data : list Byte.byte) (rate : Q)
    (c : nat) (buf : AudioBuffer) :
  decodeAudioData data rate c = Return buf →
  length (channels buf) = c
  ∧ buffer_length buf = length data / 2 / c
  ∧ ∀ ch cd, channels buf !! ch = Some cd →
      length cd = buffer_length buf
      ∧ ∀ i x, cd !! i = Some x →
          ∃ v, x = Finite v ∧ (-1 <= v)%Q ∧ (v < 1)%Q.
Proof.
  intros Hd. destruct (decodeAudioData_inv _ _ _ _ Hd) as (He & Hc & Hn & ->).
  cbn [channels buffer_length].
  set (d := int16_pairs data) in *. set (fc := (_ / _)%Q).
  split; [by rewrite foldl_alter_seq_length, length_replicate|].
  split; [by subst d; rewrite int16_pairs_length|].
  intros ch cd Hch.
  rewrite foldl_alter_seq_lookup in Hch.
  assert (Hlt : ch < c).
  { case_decide; [done|].
    apply lookup_lt_Some in Hch. by rewrite length_replicate in Hch. }
  rewrite decide_True, lookup_replicate_2 in Hch by done.
  injection Hch as <-. unfold fill_channel.
  split; [by rewrite foldl_insert_seq_length, length_replicate|].
  intros i x Hx. rewrite foldl_insert_seq_lookup, length_replicate in Hx.
  case_decide as Hi.
  - injection Hx as <-. destruct Hi as [_ Hi].
    assert (Hidx : i * c + ch < length d).
    { pose proof (Nat.Div0.mul_div_le (length d) c). nia. }
    destruct (lookup_lt_is_Some_2 d _ Hidx) as [z Hz]. rewrite Hz.
    cbn [sample_of_int16]. eexists. split; [done|].
    apply sample_in_range.
    eapply (proj1 (Forall_forall _ _) (int16_pairs_range data)).
    by eapply list_elem_of_lookup_2.
  - apply lookup_replicate in Hx as [-> _]. exists 0%Q.
    split; [done|]. split; by vm_compute.
Qed.

Lemma X7_decodeAudioData_shape_and_range_witness :
  ∃ buf, decodeAudioData [Byte.x00; Byte.x40; Byte.x00; Byte.x80] 24000 2
         = Return buf
       ∧ length (channels buf) = 2 ∧ buffer_length buf = 1.
Proof.
  eexists. split; [by vm_compute|].
  match goal with
  | |- length (channels ?b) = _ ∧ _ =>
      destruct (X7_decodeAudioData_shape_and_range
                  [Byte.x00; Byte.x40; Byte.x00; Byte.x80] 24000 2 b)
        as (H1 & H2 & _); [by vm_compute|]
  end.
  split; [exact H1|exact H2].
Defined.

Lemma mono_frame_duration (data : list Byte.byte) (buf : AudioBuffer) :
  decodeAudioData data 24000 1 = Return buf →
  (duration buf == Z.of_nat (length data) # 48000)%Q.
Proof.
  intros Hd. destruct (decodeAudioData_inv _ _ _ _ Hd) as (He & _ & _ & ->).
  unfold duration. cbn [buffer_length sampleRate].
  rewrite Nat.div_1_r, int16_pairs_length.
  apply Nat.even_spec in He as [k Hk]. rewrite Hk.
  replace (2 * k / 2) with k by divlia.
  unfold Qeq, Qdiv, Qmult, Qinv, inject_Z. cbn. lia.
Qed.

Lemma mono_frame_duration_nonneg (data : list Byte.byte) (buf : AudioBuffer) :
  decodeAudioData data 24000 1 = Return buf → (0 <= duration buf)%Q.
Proof.
  intros Hd. rewrite (mono_frame_duration _ _ Hd).
  unfold Qle. cbn. lia.
Qed.

(** X8.  A mono frame of [n] bytes at 24 kHz, the only kind the agent
    decodes, lasts [n / 48000] seconds. *)
Theorem X8_decoded_frame_duration (data : list Byte.byte) (buf : AudioBuffer) :
  decodeAudioData data 24000 1 = Return buf →
  (duration buf == Z.of_nat (length data) # 48000)%Q.
Proof. apply mono_frame_duration. Qed.

Lemma X8_decoded_frame_duration_witness :
  ∃ buf, decodeAudioData [Byte.x00; Byte.x40] 24000 1 = Return buf
       ∧ (duration buf == 2 # 48000)%Q.
Proof.
  eexists. split; [by vm_compute|].
  match goal with
  | |- (duration ?b == _)%Q =>
      exact (X8_decoded_frame_duration [Byte.x00; Byte.x40] b
                                       ltac:(by vm_compute))
  end.
Defined.

End PCMMore.

(** ** The voice agent: teardown, scheduling and capture in general *)

Module VoiceMore.
Import Voice VoiceFacts VoiceSetup.

(** X9.  Whenever a stream is held, [cleanup] stops the microphone and
    clears the stream, processor and source refs, in every state and
    whether or not it goes on to throw at the session step. *)
Theorem X9_cleanup_releases_microphone (w : World) :
  streamRef w = true →
  mic_live (exec cleanup w) = false
  ∧ streamRef (exec cleanup w) = false
  ∧ processorRef (exec cleanup w) = false
  ∧ sourceRef (exec cleanup w) = false.
Proof.
  intros Hst. destruct w as [i o st p s c se]. cbn in Hst. subst st.
  destruct p, s, se as [[]|], o, i; split_and!; by vm_compute.
Qed.

Lemma X9_cleanup_releases_microphone_witness :
  mic_live (exec cleanup active) = false.
Proof.
  by destruct (X9_cleanup_releases_microphone active ltac:(by vm_compute))
    as (? & _).
Defined.

(** X10.  When no session was stored, [cleanup] returns normally, leaves
    every ref [null] and the microphone stopped if a stream was held, and a
    second call changes nothing. *)
Theorem X10_cleanup_without_session (w : World) :
  sessionRef w = None →
  (cleanup w).1 = Return tt
  ∧ processorRef (exec cleanup w) = false
  ∧ sourceRef (exec cleanup w) = false
  ∧ streamRef (exec cleanup w) = false
  ∧ outputAudioContextRef (exec cleanup w) = false
  ∧ inputAudioContextRef (exec cleanup w) = false
  ∧ isConnected (exec cleanup w) = false
  ∧ (streamRef w = true → mic_live (exec cleanup w) = false)
  ∧ cleanup (exec cleanup w) = (Return tt, exec cleanup w).
Proof.
  intros Hse. destruct w as [i o st p s c se]. cbn in Hse. subst se.
  destruct p, s, st, o, i; split_and!; try (by vm_compute);
    by (intros; vm_compute).
Qed.

Lemma X10_cleanup_without_session_witness :
  let w := exec (initSession_resume false) (exec (effect true) initial) in
  (cleanup w).1 = Return tt ∧ cleanup (exec cleanup w) = (Return tt, exec cleanup w).
Proof.
  cbv zeta.
  destruct (X10_cleanup_without_session
              (exec (initSession_resume false) (exec (effect true) initial))
              ltac:(by vm_compute))
    as (H1 & _ & _ & _ & _ & _ & _ & _ & H2).
  split; [exact H1 | exact H2].
Defined.

(** *** Messages *)

Lemma onmessage_audio_and_interruption (now : Q) (b64 : string) (w : World) :
  b64 ≠ ""%string → outputAudioContextRef w = true →
  onmessage now (audio_and_interruption b64) w
  = bind (enqueue now b64) (λ _, interrupt) w.
Proof.
  intros Hne Hctx. unfold onmessage, audio_and_interruption.
  cbn [inlineData interrupted]. destruct b64 as [|c b64]; [done|].
  cbn [truthy]. rewrite bind_gets, Hctx. reflexivity.
Qed.

(** X11.  A message whose audio fails to decode schedules nothing and
    throws before the [interrupted] flag is read: no source is stopped and
    the active set keeps its members even when the same message signals an
    interruption; only the clamp of the cursor to the clock has happened. *)
Theorem X11_failed_decode_skips_interruption (now : Q) (b64 : string)
    (w : World) :
  outputAudioContextRef w = true → b64 ≠ ""%string →
  (∀ bytes buf, decodeAudio b64 = Return bytes →
                PCM.decodeAudioData bytes 24000 1 ≠ Return buf) →
  let w' := exec (onmessage now (audio_and_interruption b64)) w in
  is_return (onmessage now (audio_and_interruption b64) w).1 = false
  ∧ nodes w' = nodes w
  ∧ sourcesRef w' = sourcesRef w
  ∧ nextStartTimeRef w' = Qmax (nextStartTimeRef w) now.
Proof.
  intros Hctx Hne Hbad. cbv zeta. unfold exec.
  rewrite onmessage_audio_and_interruption by done.
  destruct (enqueue_cases now b64 w) as [(bytes & buf & Hb & Hd)|[e He]].
  - by destruct (Hbad bytes buf Hb).
  - unfold bind. rewrite He. by simpl_world.
Qed.

Lemma X11_failed_decode_skips_interruption_witness :
  sourcesRef (exec (onmessage 4 (audio_and_interruption "A")) active)
  = sourcesRef active.
Proof.
  destruct (X11_failed_decode_skips_interruption 4 "A" active)
    as (_ & _ & H & _); [by vm_compute | discriminate | | exact H].
  intros bytes buf Hb. vm_compute in Hb. discriminate Hb.
Defined.

(** X12.  A message that carries decodable audio together with the
    interruption signal schedules its segment and stops it at once: the
    handler enqueues first and interrupts second, so the segment ends up
    stopped, the active set empty and the cursor 0. *)
Theorem X12_audio_then_interruption (now : Q) (b64 : string) (w : World)
    bytes buf :
  outputAudioContextRef w = true → b64 ≠ ""%string →
  decodeAudio b64 = Return bytes →
  PCM.decodeAudioData bytes 24000 1 = Return buf →
  let w' := exec (onmessage now (audio_and_interruption b64)) w in
  nodes w' !! length (nodes w)
  = Some (stop_node (segment (nextStartTimeRef w) now buf))
  ∧ sourcesRef w' = ∅
  ∧ nextStartTimeRef w' = 0%Q.
Proof.
  intros Hctx Hne Hb Hd. cbv zeta. unfold exec.
  rewrite onmessage_audio_and_interruption by done.
  unfold bind. rewrite (enqueue_returns _ _ _ _ _ Hb Hd), interrupt_spec.
  simpl_world. split; [|done].
  rewrite stop_all_lookup, decide_True
    by (apply elem_of_union; right; by apply elem_of_singleton).
  by rewrite lookup_app_r, Nat.sub_diag by done.
Qed.

Lemma X12_audio_then_interruption_witness :
  sourcesRef (exec (onmessage 4 (audio_and_interruption tenth_of_a_second))
                   active) = ∅.
Proof.
  destruct tenth_of_a_second_decodes as (Hne & Hb & buf & Hd & _).
  by destruct (X12_audio_then_interruption 4 tenth_of_a_second active
                 (replicate 4800 Byte.x00) buf ltac:(by vm_compute) Hne Hb Hd)
    as (_ & ? & _).
Defined.

(** X13.  Without an output context the handler returns before doing
    anything: a message with audio changes no state, and an interruption it
    carries is not acted on. *)
Theorem X13_no_output_context (now : Q) (b64 : string) (flag : bool)
    (w : World) :
  outputAudioContextRef w = false → b64 ≠ ""%string →
  onmessage now {| inlineData := Some b64; interrupted := flag |} w
  = (Return tt, w).
Proof.
  intros Hctx Hne. unfold onmessage. cbn [inlineData interrupted].
  destruct b64 as [|c b64]; [done|]. cbn [truthy].
  by rewrite bind_gets, Hctx.
Qed.

Lemma X13_no_output_context_witness :
  onmessage 1 {| inlineData := Some "AAAA"%string; interrupted := true |}
            initial
  = (Return tt, initial).
Proof.
  apply X13_no_output_context; [reflexivity | discriminate].
Defined.

(** A handler that is not interleaved moves the cursor forwards, and
    leaves a double there when it found one and the clock reading is one. *)
Lemma cursor_le_enqueue (now : Q) (b64 : string) (w : World) :
  Double.is_double (nextStartTimeRef w) = true →
  Double.is_double now = true →
  (nextStartTimeRef w <= nextStartTimeRef (exec (enqueue now b64) w))%Q
  ∧ Double.is_double (nextStartTimeRef (exec (enqueue now b64) w)) = true.
Proof.
  intros Hc Hnow. unfold exec.
  pose proof (DoubleFacts.is_double_max _ _ Hc Hnow) as Hmax.
  destruct (enqueue_cases now b64 w) as [(bytes & buf & Hb & Hd)|[e ->]].
  - rewrite (enqueue_returns _ _ _ _ _ Hb Hd). simpl_world.
    split; [|apply DoubleFacts.is_double_double].
    eapply Qle_trans; [apply Q.le_max_l|].
    apply DoubleFacts.add_le; [exact Hmax|].
    apply DoubleFacts.double_nonneg.
    apply (PCMMore.mono_frame_duration_nonneg _ _ Hd).
  - simpl_world. split; [apply Q.le_max_l|exact Hmax].
Qed.

Lemma cursor_le_onmessage (now : Q) (m : LiveServerMessage) (w : World) :
  interrupted m = false →
  Double.is_double (nextStartTimeRef w) = true →
  Double.is_double now = true →
  (nextStartTimeRef w <= nextStartTimeRef (exec (onmessage now m) w))%Q
  ∧ Double.is_double (nextStartTimeRef (exec (onmessage now m) w)) = true.
Proof.
  intros Hint Hc Hnow. unfold exec, onmessage. rewrite Hint. cbn [when].
  destruct (truthy (inlineData m)) as [b64|]; [|split; [apply Qle_refl|done]].
  rewrite bind_gets.
  destruct (outputAudioContextRef w); cbn [negb];
    [|split; [apply Qle_refl|done]].
  rewrite bind_ret_tt. by apply cursor_le_enqueue.
Qed.

(** X14.  Over a run of messages without an interruption, each handled
    before the next arrives, the cursor never moves backwards.  The cursor
    and the clock readings are doubles, as they are in the browser. *)
Theorem X14_cursor_never_decreases (ms : list (Q * LiveServerMessage))
    (w : World) :
  Double.is_double (nextStartTimeRef w) = true →
  Forall (λ m, Double.is_double m.1 = true) ms →
  Forall (λ m, interrupted m.2 = false) ms →
  (nextStartTimeRef w <= nextStartTimeRef (run_messages ms w))%Q.
Proof.
  intros Hc Hclocks Hms. revert w Hc Hclocks.
  induction Hms as [|m ms Hm _ IH]; intros w Hc Hclocks.
  - apply Qle_refl.
  - apply Forall_cons in Hclocks as [Hnow Hclocks].
    destruct (cursor_le_onmessage m.1 m.2 w Hm Hc Hnow) as [Hle Hd].
    eapply Qle_trans; [exact Hle|]. by apply IH.
Qed.

Lemma X14_cursor_never_decreases_witness :
  (nextStartTimeRef active
   <= nextStartTimeRef
        (run_messages [(3%Q, audio_message tenth_of_a_second);
                       (1%Q, audio_message "A")] active))%Q.
Proof.
  apply X14_cursor_never_decreases;
    [by vm_compute | | by repeat constructor].
  repeat constructor; by vm_compute.
Defined.

(** One step of the event loop without an interruption moves the cursor
    forwards.  The buffers awaited by the suspended calls have a duration
    that is not negative, as every buffer [decodeAudioData] returns has. *)
Lemma cursor_le_step (e : Event) (l : Loop) :
  Double.is_double (nextStartTimeRef (world l)) = true →
  match e with Message now _ => Double.is_double now = true | _ => True end →
  uninterrupted [e] l →
  Forall (λ s, ∀ buf, awaited s = Return buf → (0 <= PCM.duration buf)%Q)
         (suspended l) →
  (nextStartTimeRef (world l) <= nextStartTimeRef (world (step l e)))%Q
  ∧ Double.is_double (nextStartTimeRef (world (step l e))) = true
  ∧ uninterrupted [] (step l e)
  ∧ Forall (λ s, ∀ buf, awaited s = Return buf → (0 <= PCM.duration buf)%Q)
           (suspended (step l e)).
Proof.
  intros Hc Hnow [He Hs] Hbufs. rewrite Forall_singleton in He.
  unfold uninterrupted. rewrite Forall_nil.
  destruct e as [now m| |id]; cbn [step].
  - simpl in He. unfold onmessage_begin. rewrite He. cbn [when].
    destruct (truthy (inlineData m)) as [b64|];
      [|split; [apply Qle_refl|done]].
    destruct (outputAudioContextRef (world l)); cbn [negb];
      [|split; [apply Qle_refl|done]].
    pose proof (DoubleFacts.is_double_max _ _ Hc Hnow) as Hmax.
    destruct (decodeAudio b64) as [bytes|err] eqn:Hb.
    + rewrite (enqueue_begin_returns _ _ _ _ Hb). cbn [world suspended].
      simpl_world. split; [apply Q.le_max_l|]. split; [done|].
      split; [split; [done|]|].
      * apply Forall_app. split; [done|]. by apply Forall_singleton.
      * apply Forall_app. split; [done|]. apply Forall_singleton.
        cbn [awaited]. intros buf Hd.
        apply (PCMMore.mono_frame_duration_nonneg _ _ Hd).
    + rewrite (enqueue_begin_throws _ _ _ _ Hb). cbn [world suspended].
      simpl_world. split; [apply Q.le_max_l|done].
  - destruct (suspended l) as [|s rest] eqn:Hq;
      [rewrite Hq; split; [apply Qle_refl|done]|].
    cbn [world suspended]. apply Forall_cons in Hs as [Hflag Hrest].
    apply Forall_cons in Hbufs as [Hbuf Hbufs].
    unfold exec, onmessage_resume. rewrite Hflag. cbn [when].
    rewrite bind_ret_tt.
    destruct (awaited s) as [buf|err];
      [|split; [apply Qle_refl|done]].
    rewrite enqueue_resume_returned. simpl_world.
    split; [|split; [apply DoubleFacts.is_double_double|done]].
    apply DoubleFacts.add_le; [done|].
    apply DoubleFacts.double_nonneg. by apply Hbuf.
  - cbn [world suspended]. unfold exec, onended, modify. simpl_world.
    split; [apply Qle_refl|done].
Qed.

Lemma cursor_le_run (es : list Event) (l : Loop) :
  Double.is_double (nextStartTimeRef (world l)) = true →
  Forall (λ e, match e with
               | Message now _ => Double.is_double now = true
               | _ => True
               end) es →
  uninterrupted es l →
  Forall (λ s, ∀ buf, awaited s = Return buf → (0 <= PCM.duration buf)%Q)
         (suspended l) →
  (nextStartTimeRef (world l)
   <= nextStartTimeRef (world (run_events es l)))%Q.
Proof.
  revert l. induction es as [|e es IH]; intros l Hc Hclocks [Hes Hs] Hbufs;
    [apply Qle_refl|].
  apply Forall_cons in Hclocks as [Hnow Hclocks].
  apply Forall_cons in Hes as [He Hes].
  destruct (cursor_le_step e l Hc Hnow) as (Hle & Hd & [_ Hs'] & Hbufs');
    [split; [by apply Forall_singleton|done] | done |].
  cbn [run_events foldl]. eapply Qle_trans; [exact Hle|].
  by apply IH.
Qed.

(** X30.  The same however the calls of the handler interleave: over any
    run of the event loop without an interruption, started with no call
    suspended, the cursor never moves backwards. *)
Theorem X30_cursor_never_decreases_interleaved (es : list Event)
    (w : World) :
  Double.is_double (nextStartTimeRef w) = true →
  Forall (λ e, match e with
               | Message now _ => Double.is_double now = true
               | _ => True
               end) es →
  Forall (λ e, match e with
               | Message _ message => interrupted message = false
               | _ => True
               end) es →
  (nextStartTimeRef w <= nextStartTimeRef (world (run_events es (idle w))))%Q.
Proof.
  intros Hc Hclocks Hes.
  apply (cursor_le_run es (idle w)); [done | done | | by cbn].
  split; [done|by cbn].
Qed.

Lemma X30_cursor_never_decreases_interleaved_witness :
  (nextStartTimeRef active
   <= nextStartTimeRef
        (world (run_events [Message 3 (audio_message tenth_of_a_second);
                            Message 4 (audio_message "AAA=");
                            Resume; Ended 0; Resume] (idle active))))%Q.
Proof.
  apply X30_cursor_never_decreases_interleaved;
    [by vm_compute | |]; repeat constructor; by vm_compute.
Defined.

(** X15.  A source that has ended leaves the active set, and an
    interruption that follows does not touch it. *)
Theorem X15_ended_source_not_interrupted (id : nat) (now : Q) (w : World) :
  (id ∉ sourcesRef (exec (onended id) w))
  ∧ nodes (exec (onended id) w) = nodes w
  ∧ nodes (exec (onmessage now interruption) (exec (onended id) w)) !! id
    = nodes w !! id.
Proof.
  assert (Hout : id ∉ sourcesRef w ∖ {[id]}).
  { intros [_ Hn]%elem_of_difference. apply Hn. by apply elem_of_singleton. }
  unfold exec. rewrite onmessage_interruption, interrupt_spec.
  unfold onended, modify. simpl_world.
  split; [done|]. split; [done|].
  by rewrite stop_all_lookup, decide_False.
Qed.

(** X16.  A second interruption changes nothing: the first has emptied the
    active set and zeroed the cursor. *)
Theorem X16_interruption_idempotent (now1 now2 : Q) (w : World) :
  exec (onmessage now2 interruption) (exec (onmessage now1 interruption) w)
  = exec (onmessage now1 interruption) w.
Proof.
  unfold exec. rewrite !onmessage_interruption, !interrupt_spec.
  apply world_eq; simpl_world; rewrite ?set_fold_empty; reflexivity.
Qed.

(** *** Capture *)

Lemma run_blocks_sent (blocks : list (list Q)) (w : World) :
  closure_isMuted w = false → sessionPromise w = Fulfilled →
  session_open w = true →
  run_blocks blocks w = set_sent (sent w ++ map pcm_frame blocks) w.
Proof.
  unfold run_blocks. revert w.
  induction blocks as [|b blocks IH]; intros w Hm Hp Ho; cbn [foldl map].
  - rewrite app_nil_r. apply world_eq; by simpl_world.
  - unfold exec at 2. rewrite onaudioprocess_sends by done. cbn [snd].
    rewrite IH by done.
    apply world_eq; simpl_world; try reflexivity.
    by rewrite <- app_assoc.
Qed.

(** X17.  On an open session whose callback is not muted, any run of
    captured blocks is sent one frame per block, in capture order, and
    nothing else is sent. *)
Theorem X17_frames_sent_in_capture_order (blocks : list (list Q))
    (w : World) :
  closure_isMuted w = false → sessionPromise w = Fulfilled →
  session_open w = true →
  sent (run_blocks blocks w) = sent w ++ map pcm_frame blocks.
Proof. intros Hm Hp Ho. by rewrite run_blocks_sent. Qed.

Lemma X17_frames_sent_in_capture_order_witness :
  sent (run_blocks [[0%Q]; [1 # 2]%Q] active)
  = sent active ++ map pcm_frame [[0%Q]; [1 # 2]%Q].
Proof.
  apply X17_frames_sent_in_capture_order; by vm_compute.
Defined.

Lemma run_blocks_muted (blocks : list (list Q)) (w : World) :
  closure_isMuted w = true → run_blocks blocks w = w.
Proof.
  intros Hm. unfold run_blocks.
  induction blocks as [|b blocks IH]; cbn [foldl]; [done|].
  unfold exec at 2. by rewrite onaudioprocess_muted.
Qed.

(** X18.  A callback created while muted discards every block: no run of
    captured blocks changes any state. *)
Theorem X18_muted_callback_sends_nothing (blocks : list (list Q))
    (w : World) :
  closure_isMuted w = true → run_blocks blocks w = w.
Proof. apply run_blocks_muted. Qed.

Lemma X18_muted_callback_sends_nothing_witness :
  run_blocks [[0%Q]; [1 # 2]%Q] (set_closure_isMuted true active)
  = set_closure_isMuted true active.
Proof. apply X18_muted_callback_sends_nothing. reflexivity. Defined.

(** X19.  The frame built from a block of [n] samples carries the tag
    [audio/pcm;rate=16000] and [4 * ceil (2 n / 3)] characters of text,
    which decode to [2 n] bytes: exactly the block's 16-bit samples. *)
Theorem X19_frame_payload (inputData : list Q) :
  mimeType (pcm_frame inputData) = "audio/pcm;rate=16000"%string
  ∧ decodeAudio (data (pcm_frame inputData))
    = Return (PCM.samplesToFrame inputData)
  ∧ length (PCM.samplesToFrame inputData) = 2 * length inputData
  ∧ String.length (data (pcm_frame inputData))
    = 4 * ((2 * length inputData + 2) / 3).
Proof.
  assert (Hlen : length (PCM.samplesToFrame inputData) = 2 * length inputData).
  { unfold PCM.samplesToFrame.
    rewrite PCMFacts.Uint8Array_of_Int16Array_length.
    by rewrite PCMFacts.int16_of_input_map, length_map. }
  split; [done|]. split; [apply decodeAudio_encodeAudio|]. split; [done|].
  unfold pcm_frame. cbn [data].
  by rewrite CodecMore.encodeAudio_length_eq, Hlen.
Qed.

Lemma sendRealtimeInput_open (f : Frame) (w : World) :
  session_open w = true →
  sendRealtimeInput f w = (Return tt, set_sent (sent w ++ [f]) w).
Proof.
  intros Ho. unfold sendRealtimeInput. rewrite bind_gets, Ho. reflexivity.
Qed.

Lemma flush_reactions (fs : list Frame) (w : World) :
  session_open w = true →
  foldr (λ f k, bind (sendRealtimeInput f) (λ _, k)) (ret tt) fs w
  = (Return tt, set_sent (sent w ++ fs) w).
Proof.
  revert w. induction fs as [|f fs IH]; intros w Ho; cbn [foldr].
  - unfold ret. f_equal. rewrite app_nil_r. apply world_eq; by simpl_world.
  - unfold bind at 1. rewrite sendRealtimeInput_open by done.
    rewrite IH by done. f_equal.
    apply world_eq; simpl_world; try reflexivity. by rewrite <- app_assoc.
Qed.

Lemma run_blocks_pending (blocks : list (list Q)) (w : World) :
  closure_isMuted w = false → sessionPromise w = Pending →
  run_blocks blocks w
  = set_reactions (reactions w ++ map pcm_frame blocks) w.
Proof.
  unfold run_blocks. revert w.
  induction blocks as [|b blocks IH]; intros w Hm Hp; cbn [foldl map].
  - rewrite app_nil_r. apply world_eq; by simpl_world.
  - unfold exec at 2, onaudioprocess, then_send.
    rewrite bind_gets, Hm, bind_gets, Hp. unfold modify. cbn [snd].
    rewrite IH by done.
    apply world_eq; simpl_world; try reflexivity. by rewrite <- app_assoc.
Qed.

(** X20.  Blocks captured while the promise returned by [connect] is still
    pending are not sent and not lost: their sends are queued, and when the
    promise is fulfilled on an open session they go out in capture order,
    after any send already queued. *)
Theorem X20_pending_sends_flushed_in_order (blocks : list (list Q))
    (w : World) :
  closure_isMuted w = false → sessionPromise w = Pending →
  session_open w = true →
  sent (run_blocks blocks w) = sent w
  ∧ sent (exec session_fulfilled (run_blocks blocks w))
    = sent w ++ reactions w ++ map pcm_frame blocks
  ∧ reactions (exec session_fulfilled (run_blocks blocks w)) = [].
Proof.
  intros Hm Hp Ho. rewrite run_blocks_pending by done.
  split; [by simpl_world|].
  unfold exec, session_fulfilled.
  rewrite bind_modify, bind_gets, bind_modify. simpl_world.
  rewrite flush_reactions by (by simpl_world). by simpl_world.
Qed.

Lemma X20_pending_sends_flushed_in_order_witness :
  let w := exec onopen (exec (initSession_resume true)
                             (exec (effect true) initial)) in
  sent (exec session_fulfilled (run_blocks [[0%Q]; [1 # 2]%Q] w))
  = sent w ++ reactions w ++ map pcm_frame [[0%Q]; [1 # 2]%Q].
Proof.
  cbv zeta.
  by destruct (X20_pending_sends_flushed_in_order
                 [[0%Q]; [1 # 2]%Q]
                 (exec onopen (exec (initSession_resume true)
                                    (exec (effect true) initial)))
                 ltac:(by vm_compute) ltac:(by vm_compute)
                 ltac:(by vm_compute)) as (_ & ? & _).
Defined.

End VoiceMore.

(** ** The grounding context of the voice session *)

Module SetupMore.
Import VoiceSetup.

Lemma slice_to_length (n : nat) (s : string) :
  String.length (slice_to n s) = n `min` String.length s.
Proof.
  unfold slice_to. revert n.
  induction s as [|c s IH]; intros [|n]; cbn; auto.
Qed.

Lemma slice_to_prefix (n : nat) (s : string) :
  ∃ rest, s = slice_to n s +:+ rest.
Proof.
  unfold slice_to. revert n. induction s as [|c s IH]; intros [|n].
  - by exists EmptyString.
  - by exists EmptyString.
  - by exists (String c s).
  - destruct (IH n) as [rest Hrest]. exists rest.
    cbn [substring]. change (String c ?a +:+ rest) with (String c (a +:+ rest)).
    by rewrite <- Hrest.
Qed.

Lemma slice_to_short (n : nat) (s : string) :
  String.length s ≤ n → slice_to n s = s.
Proof.
  unfold slice_to. revert n.
  induction s as [|c s IH]; intros [|n] H; cbn in *; try done; try lia.
  rewrite IH by lia. done.
Qed.

(** X21.  The context placed in the system instruction is the first 25000
    characters of the summary: it has [min 25000 (length summary)]
    characters, it is a prefix of the summary, and it is the whole summary
    when that is no longer than the limit. *)
Theorem X21_safeContext_is_bounded_prefix (contextSummary : string) :
  String.length (safeContext contextSummary)
  = contextLimit `min` String.length contextSummary
  ∧ (∃ rest, contextSummary = safeContext contextSummary +:+ rest)
  ∧ (String.length contextSummary ≤ contextLimit →
     safeContext contextSummary = contextSummary).
Proof.
  unfold safeContext.
  split; [apply slice_to_length|]. split; [apply slice_to_prefix|].
  apply slice_to_short.
Qed.

Lemma X21_safeContext_is_bounded_prefix_witness :
  safeContext "Title: Attention Is All You Need."
  = "Title: Attention Is All You Need."%string.
Proof.
  destruct (X21_safeContext_is_bounded_prefix
              "Title: Attention Is All You Need.") as (_ & _ & H).
  apply H. apply Nat.leb_le. reflexivity.
Defined.

End SetupMore.

(** ** The application shell *)

Module AppFacts.
Import App.

(** *** The mock training curve *)

Section training.
Variable random : nat → Q.

Lemma training_state_0 :
  training_state random 0 = ([], (25 # 10)%Q, (1 # 10)%Q).
Proof. reflexivity. Qed.

Ltac no_points H :=
  rewrite training_state_0 in H; cbn [fst] in H; by rewrite lookup_nil in H.

Lemma training_state_S (k : nat) :
  training_state random (S k)
  = training_step random (training_state random k) k.
Proof. unfold training_state. by rewrite seq_S, foldl_snoc. Qed.

Lemma training_state_data (k : nat) :
  ∃ data l a, training_state random k = (data, l, a) ∧ length data = k.
Proof.
  induction k as [|k (data & l & a & Hst & Hlen)].
  - by exists [], (25 # 10)%Q, (1 # 10)%Q.
  - rewrite training_state_S, Hst. cbn [training_step].
    eexists _, _, _. split; [reflexivity|]. rewrite length_app. cbn. lia.
Qed.

Lemma training_epochs (k : nat) :
  ∀ j m, (training_state random k).1.1 !! j = Some m → epoch m = j + 1.
Proof.
  induction k as [|k IH]; intros j m Hm; [no_points Hm|].
  rewrite training_state_S in Hm.
  destruct (training_state_data k) as (data & l & a & Hst & Hlen).
  rewrite Hst in Hm, IH. cbn [training_step fst] in Hm, IH.
  destruct (decide (j < k)) as [Hj|Hj].
  - rewrite lookup_app_l in Hm by lia. by apply IH.
  - rewrite lookup_app_r in Hm by lia.
    destruct (j - length data) as [|?] eqn:Hd; [|done].
    injection Hm as <-. cbn [epoch]. lia.
Qed.

Hypothesis random_range : unit_interval random.

(** The bounds the loop keeps on its two variables. *)
Lemma training_bounds (k : nat) :
  let '(_, l, a) := training_state random k in
  ((1 # 10 <= l)%Q ∧ (l <= 25 # 10)%Q ∧ (loss_floor k <= l)%Q)
  ∧ ((1 # 10 <= a)%Q ∧ (a <= 99 # 100)%Q).
Proof.
  induction k as [|k IH].
  - cbn. repeat split; by vm_compute.
  - rewrite training_state_S.
    destruct (training_state random k) as [[data l] a].
    destruct IH as [(Hl1 & Hl2 & Hl3) (Ha1 & Ha2)].
    cbn [training_step loss_floor]. rewrite Qred_correct.
    destruct (random_range (2 * k)) as [Hr1 Hr2].
    destruct (random_range (2 * k + 1)) as [Hs1 Hs2].
    split.
    + destruct (Q.max_spec (1 # 10)
                  (l * (95 # 100) + (random (2 * k) * (1 # 10) - (5 # 100))))
        as [[? ->]|[? ->]]; repeat split; lra.
    + destruct (Q.min_spec (99 # 100)
                  (a * (105 # 100) + random (2 * k + 1) * (2 # 100)))
        as [[? ->]|[? ->]]; repeat split; lra.
Qed.

Lemma training_points_bounds (k : nat) :
  ∀ j m, (training_state random k).1.1 !! j = Some m →
    ((1 # 10 <= loss m)%Q ∧ (loss m <= 25 # 10)%Q
     ∧ (loss_floor (S j) <= loss m)%Q)
    ∧ ((1 # 10 <= accuracy m)%Q ∧ (accuracy m <= 99 # 100)%Q).
Proof.
  induction k as [|k IH]; intros j m Hm; [no_points Hm|].
  pose proof (training_bounds (S k)) as Hb.
  rewrite training_state_S in Hm, Hb.
  destruct (training_state_data k) as (data & l & a & Hst & Hlen).
  rewrite Hst in Hm, Hb, IH. cbn [training_step fst] in Hm, Hb, IH.
  destruct (decide (j < k)) as [Hj|Hj].
  - rewrite lookup_app_l in Hm by lia. by apply IH.
  - rewrite lookup_app_r in Hm by lia.
    destruct (j - length data) as [|?] eqn:Hd; [|done].
    assert (j = k) as -> by (apply lookup_lt_Some in Hm;
                             rewrite ?length_app in Hm; cbn in Hm; lia).
    injection Hm as <-. cbn [loss accuracy]. exact Hb.
Qed.

Lemma training_accuracy_last (k : nat) :
  ∀ j m, (training_state random k).1.1 !! j = Some m →
    (accuracy m <= (training_state random k).2)%Q.
Proof.
  induction k as [|k IH]; intros j m Hm; [no_points Hm|].
  pose proof (training_bounds k) as Hb.
  rewrite training_state_S in *.
  destruct (training_state_data k) as (data & l & a & Hst & Hlen).
  rewrite Hst in *. cbn [training_step fst snd] in *.
  destruct Hb as [_ [Ha1 Ha2]].
  destruct (random_range (2 * k + 1)) as [Hs1 Hs2].
  assert (Hup : (a <= Qmin (99 # 100)
                        (a * (105 # 100) + random (2 * k + 1) * (2 # 100)))%Q).
  { destruct (Q.min_spec (99 # 100)
                (a * (105 # 100) + random (2 * k + 1) * (2 # 100)))
      as [[? ->]|[? ->]]; lra. }
  destruct (decide (j < k)) as [Hj|Hj].
  - rewrite lookup_app_l in Hm by lia.
    eapply Qle_trans; [by eapply IH|done].
  - rewrite lookup_app_r in Hm by lia.
    destruct (j - length data) as [|?] eqn:Hd; [|done].
    injection Hm as <-. cbn [accuracy]. apply Qle_refl.
Qed.

Lemma training_accuracy_sorted (k : nat) :
  ∀ i j mi mj, i ≤ j →
    (training_state random k).1.1 !! i = Some mi →
    (training_state random k).1.1 !! j = Some mj →
    (accuracy mi <= accuracy mj)%Q.
Proof.
  induction k as [|k IH]; intros i j mi mj Hij Hi Hj;
    [no_points Hi|].
  pose proof (training_accuracy_last k) as Hlast.
  rewrite training_state_S in *.
  destruct (training_state_data k) as (data & l & a & Hst & Hlen).
  rewrite Hst in *. cbn [training_step fst snd] in *.
  destruct (decide (j < k)) as [Hjk|Hjk].
  - rewrite lookup_app_l in Hi, Hj by lia. exact (IH i j mi mj Hij Hi Hj).
  - rewrite (lookup_app_r _ _ j) in Hj by lia.
    destruct (j - length data) as [|?] eqn:Hd; [|done].
    injection Hj as <-. cbn [accuracy].
    destruct (decide (i < k)) as [Hik|Hik].
    + rewrite lookup_app_l in Hi by lia.
      eapply Qle_trans; [by eapply Hlast|].
      pose proof (training_bounds k) as Hb. rewrite Hst in Hb.
      destruct Hb as [_ [Ha1 Ha2]].
      destruct (random_range (2 * k + 1)) as [Hs1 Hs2].
      destruct (Q.min_spec (99 # 100)
                  (a * (105 # 100) + random (2 * k + 1) * (2 # 100)))
        as [[? ->]|[? ->]]; lra.
    + rewrite lookup_app_r in Hi by lia.
      destruct (i - length data) as [|?] eqn:Hd'; [|done].
      injection Hi as <-. apply Qle_refl.
Qed.

End training.

Lemma generateTrainingData_length (random : nat → Q) (points : nat) :
  length (generateTrainingData random points) = points.
Proof.
  unfold generateTrainingData.
  by destruct (training_state_data random points) as (? & ? & ? & -> & ?).
Qed.

(** X22.  [generateTrainingData points] yields exactly [points] records,
    numbered 1, 2, ..., [points] in order, whatever the random source. *)
Theorem X22_training_data_shape (random : nat → Q) (points : nat) :
  length (generateTrainingData random points) = points
  ∧ ∀ j m, generateTrainingData random points !! j = Some m →
      epoch m = j + 1.
Proof.
  split; [apply generateTrainingData_length|apply training_epochs].
Qed.

(** X23.  With a random source in [0, 1), every loss the generator reports
    lies in [0.1, 2.5] and every accuracy in [0.1, 0.99]. *)
Theorem X23_training_data_bounds (random : nat → Q) (points : nat) :
  unit_interval random →
  ∀ j m, generateTrainingData random points !! j = Some m →
    (1 # 10 <= loss m)%Q ∧ (loss m <= 25 # 10)%Q
    ∧ (1 # 10 <= accuracy m)%Q ∧ (accuracy m <= 99 # 100)%Q.
Proof.
  intros Hr j m Hm.
  destruct (training_points_bounds random Hr points j m Hm)
    as [(? & ? & _) (? & ?)].
  done.
Qed.

Lemma half_in_unit_interval : unit_interval (λ _, 1 # 2)%Q.
Proof. intros n. split; by vm_compute. Qed.

Lemma sample_points :
  ∃ m0 m2, generateTrainingData (λ _, 1 # 2)%Q 3 !! 0 = Some m0
         ∧ generateTrainingData (λ _, 1 # 2)%Q 3 !! 2 = Some m2.
Proof. eexists _, _. split; vm_compute; reflexivity. Qed.

Lemma X22_training_data_shape_witness :
  ∃ m, generateTrainingData (λ _, 1 # 2)%Q 3 !! 2 = Some m ∧ epoch m = 2 + 1.
Proof.
  destruct sample_points as (_ & m & _ & Hm). exists m. split; [exact Hm|].
  by apply (X22_training_data_shape (λ _, 1 # 2)%Q 3).
Defined.

Lemma X23_training_data_bounds_witness :
  ∃ m, generateTrainingData (λ _, 1 # 2)%Q 3 !! 0 = Some m
     ∧ (1 # 10 <= loss m)%Q ∧ (loss m <= 25 # 10)%Q
     ∧ (1 # 10 <= accuracy m)%Q ∧ (accuracy m <= 99 # 100)%Q.
Proof.
  destruct sample_points as (m & _ & Hm & _). exists m. split; [exact Hm|].
  exact (X23_training_data_bounds (λ _, 1 # 2)%Q 3 half_in_unit_interval
           0 m Hm).
Defined.

(** X24.  With a random source in [0, 1), the reported accuracy never
    decreases from one epoch to the next. *)
Theorem X24_training_accuracy_nondecreasing (random : nat → Q)
    (points : nat) :
  unit_interval random →
  ∀ i j mi mj, i ≤ j →
    generateTrainingData random points !! i = Some mi →
    generateTrainingData random points !! j = Some mj →
    (accuracy mi <= accuracy mj)%Q.
Proof. intros Hr. by apply training_accuracy_sorted. Qed.

Lemma X24_training_accuracy_nondecreasing_witness :
  ∃ m0 m2, generateTrainingData (λ _, 1 # 2)%Q 3 !! 0 = Some m0
         ∧ generateTrainingData (λ _, 1 # 2)%Q 3 !! 2 = Some m2
         ∧ (accuracy m0 <= accuracy m2)%Q.
Proof.
  destruct sample_points as (m0 & m2 & H0 & H2). exists m0, m2.
  split; [exact H0|]. split; [exact H2|].
  exact (X24_training_accuracy_nondecreasing (λ _, 1 # 2)%Q 3
           half_in_unit_interval 0 2 m0 m2 ltac:(lia) H0 H2).
Defined.

Lemma loss_floor_first_ten (j : nat) : j < 10 → (1 < loss_floor (S j))%Q.
Proof.
  intros Hj. do 10 (destruct j as [|j]; [by vm_compute|]). lia.
Qed.

(** X25.  With a random source in [0, 1), no loss among the first ten
    epochs is as low as 1: the curve the pipeline animates (at most ten
    points) stays above 1, far from the "Loss: 0.14" its last log line
    announces. *)
Theorem X25_training_loss_above_one (random : nat → Q) (points : nat) :
  unit_interval random → points ≤ 10 →
  ∀ j m, generateTrainingData random points !! j = Some m →
    (1 < loss m)%Q.
Proof.
  intros Hr Hp j m Hm.
  destruct (training_points_bounds random Hr points j m Hm)
    as [(_ & _ & Hfloor) _].
  assert (Hj : j < points).
  { apply lookup_lt_Some in Hm.
    by rewrite generateTrainingData_length in Hm. }
  apply (Qlt_le_trans _ (loss_floor (S j)));
    [apply loss_floor_first_ten; lia | exact Hfloor].
Qed.

Lemma X25_training_loss_above_one_witness :
  ∃ m, generateTrainingData (λ _, 1 # 2)%Q 3 !! 2 = Some m ∧ (1 < loss m)%Q.
Proof.
  destruct sample_points as (_ & m & _ & Hm). exists m. split; [exact Hm|].
  exact (X25_training_loss_above_one (λ _, 1 # 2)%Q 3 half_in_unit_interval
           ltac:(lia) 2 m Hm).
Defined.

(** *** The chat transcript *)

(** X26.  Input that is empty or all white space is ignored: nothing is
    appended, no request is made and the state is unchanged. *)
Theorem X26_blank_input_ignored (t1 t2 t3 : Z) (outcome : ChatOutcome)
    (st : ChatState) :
  is_blank (chatInput st) = true →
  handleSendMessage t1 t2 t3 outcome st = st.
Proof. intros H. unfold handleSendMessage. by rewrite H. Qed.

Lemma X26_blank_input_ignored_witness :
  handleSendMessage 1 2 3 CallFails
    {| chatHistory := []; chatInput := "   "; isChatLoading := false |}
  = {| chatHistory := []; chatInput := "   "; isChatLoading := false |}.
Proof. apply X26_blank_input_ignored. reflexivity. Defined.

Lemma show_response_other (botMsgId : Z) (t : string)
    (history : list ChatMessage) :
  Forall (λ m, id m ≠ botMsgId) history →
  show_response botMsgId t history = history.
Proof.
  induction 1 as [|m h Hm _ IH]; [done|]. unfold show_response in *.
  cbn [map]. rewrite IH. by rewrite (proj2 (Z.eqb_neq _ _) Hm).
Qed.

Lemma show_response_snoc (botMsgId : Z) (t : string)
    (history : list ChatMessage) (b : ChatMessage) :
  Forall (λ m, id m ≠ botMsgId) history → id b = botMsgId →
  show_response botMsgId t (history ++ [b])
  = history ++ [{| id := botMsgId; role := role b; text := t;
                   isThinking := Some false |}].
Proof.
  intros Hh Hb. unfold show_response. rewrite map_app.
  fold (show_response botMsgId t history). rewrite show_response_other by done.
  cbn [map]. rewrite Hb, Z.eqb_refl. done.
Qed.

Lemma stream_chunks_snoc (botMsgId : Z) (chunks : list (option string))
    (history : list ChatMessage) (b : ChatMessage) (acc : string) :
  Forall (λ m, id m ≠ botMsgId) history → id b = botMsgId →
  chunks ≠ [] →
  foldl (λ st chunk,
           let fullResponse := (st.1 +:+ chunk_text chunk)%string in
           (fullResponse, show_response botMsgId fullResponse st.2))
        (acc, history ++ [b]) chunks
  = (foldl (λ a chunk, (a +:+ chunk_text chunk)%string) acc chunks,
     history ++ [{| id := botMsgId; role := role b;
                    text := foldl (λ a chunk, (a +:+ chunk_text chunk)%string)
                                  acc chunks;
                    isThinking := Some false |}]).
Proof.
  intros Hh Hb. revert acc b Hb.
  induction chunks as [|c chunks IH]; intros acc b Hb Hne; [done|].
  cbn [foldl fst snd]. rewrite show_response_snoc by done.
  destruct chunks as [|c' chunks]; [done|].
  by rewrite IH.
Qed.

(** X27.  When the stream delivers at least one chunk and completes, and
    the id chosen for the reply is not already in the transcript, the
    transcript ends up as the old one followed by the user's message and
    one reply whose text is the concatenation of the chunk texts in order
    (a chunk without text counting as empty); the input is cleared and the
    loading flag is off. *)
Theorem X27_streamed_reply (t1 t2 t3 : Z) (chunks : list (option string))
    (st : ChatState) :
  is_blank (chatInput st) = false → chunks ≠ [] →
  Forall (λ m, id m ≠ (t2 + 1)%Z) (chatHistory st) → t1 ≠ (t2 + 1)%Z →
  handleSendMessage t1 t2 t3 (Streams chunks true) st
  = {| chatHistory :=
         chatHistory st
           ++ [{| id := t1; role := user; text := chatInput st;
                  isThinking := None |};
               {| id := (t2 + 1)%Z; role := model;
                  text := full_response chunks;
                  isThinking := Some false |}];
       chatInput := EmptyString;
       isChatLoading := false |}.
Proof.
  intros Hb Hne Hfresh Ht. unfold handleSendMessage, stream_chunks.
  rewrite Hb. f_equal.
  rewrite stream_chunks_snoc; try done.
  - cbn [snd role]. by rewrite <- app_assoc.
  - apply Forall_app. split; [done|]. by repeat constructor.
Qed.

Lemma X27_streamed_reply_witness :
  chatHistory
    (handleSendMessage 100 105 110 (Streams [Some "Hel"; None; Some "lo"] true)
       {| chatHistory := []; chatInput := "hi"; isChatLoading := false |})
  = [{| id := 100; role := user; text := "hi"; isThinking := None |};
     {| id := 106; role := model; text := "Hello"; isThinking := Some false |}].
Proof.
  rewrite (X27_streamed_reply 100 105 110 [Some "Hel"; None; Some "lo"]%string
             {| chatHistory := []; chatInput := "hi"; isChatLoading := false |});
    [reflexivity | reflexivity | discriminate | constructor | discriminate].
Defined.

(** X28.  When the stream completes without delivering any chunk, the
    placeholder reply is never updated: it stays in the transcript with
    empty text and [isThinking] still true. *)
Theorem X28_empty_stream_keeps_placeholder (t1 t2 t3 : Z) (st : ChatState) :
  is_blank (chatInput st) = false →
  handleSendMessage t1 t2 t3 (Streams [] true) st
  = {| chatHistory :=
         chatHistory st
           ++ [{| id := t1; role := user; text := chatInput st;
                  isThinking := None |};
               {| id := (t2 + 1)%Z; role := model; text := EmptyString;
                  isThinking := Some true |}];
       chatInput := EmptyString;
       isChatLoading := false |}.
Proof.
  intros Hb. unfold handleSendMessage, stream_chunks. rewrite Hb.
  cbn [foldl snd]. by rewrite <- app_assoc.
Qed.

Lemma X28_empty_stream_keeps_placeholder_witness :
  chatHistory
    (handleSendMessage 100 105 110 (Streams [] true)
       {| chatHistory := []; chatInput := "hi"; isChatLoading := false |})
  = [{| id := 100; role := user; text := "hi"; isThinking := None |};
     {| id := 106; role := model; text := ""; isThinking := Some true |}].
Proof.
  rewrite (X28_empty_stream_keeps_placeholder 100 105 110
             {| chatHistory := []; chatInput := "hi"; isChatLoading := false |});
    reflexivity.
Defined.

Lemma stream_chunks_prefix (botMsgId : Z) (chunks : list (option string))
    (old : list ChatMessage) (rest : list ChatMessage) (acc : string) :
  Forall (λ m, id m ≠ botMsgId) old →
  ∃ rest', (foldl (λ st chunk,
                     let fullResponse := (st.1 +:+ chunk_text chunk)%string in
                     (fullResponse, show_response botMsgId fullResponse st.2))
                  (acc, old ++ rest) chunks).2
           = old ++ rest'
         ∧ length rest' = length rest.
Proof.
  intros Hold. revert acc rest.
  induction chunks as [|c chunks IH]; intros acc rest; [by exists rest|].
  cbn [foldl fst snd].
  replace (show_response botMsgId (acc +:+ chunk_text c) (old ++ rest))
    with (old ++ show_response botMsgId (acc +:+ chunk_text c) rest).
  2:{ unfold show_response. rewrite map_app.
      fold (show_response botMsgId (acc +:+ chunk_text c) old).
      by rewrite show_response_other. }
  destruct (IH (acc +:+ chunk_text c)%string
               (show_response botMsgId (acc +:+ chunk_text c) rest))
    as (rest' & Heq & Hlen).
  exists rest'. split; [exact Heq|]. rewrite Hlen. unfold show_response.
  by rewrite length_map.
Qed.

Lemma stream_chunks_keeps (botMsgId : Z) (chunks : list (option string))
    (old rest : list ChatMessage) :
  Forall (λ m, id m ≠ botMsgId) old →
  ∃ rest', (stream_chunks botMsgId chunks (old ++ rest)).2 = old ++ rest'
         ∧ length rest' = length rest.
Proof. apply stream_chunks_prefix. Qed.

Lemma handleSendMessage_unfold (t1 t2 t3 : Z) (outcome : ChatOutcome)
    (st : ChatState) :
  is_blank (chatInput st) = false →
  handleSendMessage t1 t2 t3 outcome st
  = {| chatHistory :=
         match outcome with
         | CallFails =>
             chatHistory st
               ++ [{| id := t1; role := user; text := chatInput st;
                      isThinking := None |}; error_message t3]
         | Streams chunks completes =>
             (stream_chunks (t2 + 1) chunks
                (chatHistory st
                   ++ [{| id := t1; role := user; text := chatInput st;
                          isThinking := None |};
                       {| id := (t2 + 1)%Z; role := model;
                          text := EmptyString; isThinking := Some true |}])).2
               ++ (if completes then [] else [error_message t3])
         end;
       chatInput := EmptyString;
       isChatLoading := false |}.
Proof.
  intros Hb. unfold handleSendMessage. rewrite Hb. cbv zeta. f_equal.
  destruct outcome as [|chunks []]; rewrite <- !app_assoc; try done.
  by rewrite app_nil_r.
Qed.

(** X29.  Whatever the service does with a non-blank message, the earlier
    transcript is kept as it was (provided the reply's id is not already in
    it), the input is cleared and the loading flag ends off; and when the
    call or the stream fails, the last message of the transcript is the
    apology. *)
Theorem X29_send_keeps_transcript (t1 t2 t3 : Z) (outcome : ChatOutcome)
    (st : ChatState) :
  is_blank (chatInput st) = false →
  Forall (λ m, id m ≠ (t2 + 1)%Z) (chatHistory st) →
  let st' := handleSendMessage t1 t2 t3 outcome st in
  (∃ rest, chatHistory st' = chatHistory st ++ rest ∧ rest ≠ [])
  ∧ chatInput st' = EmptyString
  ∧ isChatLoading st' = false
  ∧ (outcome = CallFails ∨ (∃ chunks, outcome = Streams chunks false) →
     last (chatHistory st') = Some (error_message t3)).
Proof.
  intros Hb Hfresh. cbv zeta. rewrite handleSendMessage_unfold by done.
  cbn [chatHistory chatInput isChatLoading].
  split; [|split; [done|split; [done|]]].
  - destruct outcome as [|chunks completes].
    + eexists. split; [reflexivity|done].
    + destruct (stream_chunks_keeps (t2 + 1) chunks (chatHistory st)
                  [{| id := t1; role := user; text := chatInput st;
                      isThinking := None |};
                   {| id := (t2 + 1)%Z; role := model;
                      text := EmptyString; isThinking := Some true |}]
                  Hfresh) as (rest' & Heq & Hlen).
      rewrite Heq, <- app_assoc. eexists. split; [reflexivity|].
      by destruct rest'.
  - intros [->|[chunks ->]].
    + change [?a; ?b] with ([a] ++ [b]). by rewrite app_assoc, last_snoc.
    + by rewrite last_snoc.
Qed.

Lemma X29_send_keeps_transcript_witness :
  last (chatHistory
          (handleSendMessage 100 105 110 (Streams [Some "par"%string] false)
             {| chatHistory := []; chatInput := "hi";
                isChatLoading := false |}))
  = Some (error_message 110).
Proof.
  destruct (X29_send_keeps_transcript 100 105 110
              (Streams [Some "par"%string] false)
              {| chatHistory := []; chatInput := "hi";
                 isChatLoading := false |})
    as (_ & _ & _ & H); [reflexivity | constructor |].
  apply H. right. by eexists.
Defined.

End AppFacts.
